(** * Find/replace queries of the search extension (src/search.ts)

    A shallow embedding of the query layer: [SearchQuery], the two query
    types [StringQuery] and [RegExpQuery] with their operations, and the
    command wrapper [searchCommand]; followed by the properties proved of
    them.

    Conventions.
    - A JavaScript string is a list of code units, here 8-bit characters
      ([str]).  Offsets into the document are integers ([Z]), as JavaScript
      numbers are.
    - An iterator (a cursor) is represented by the finite sequence of values
      that successive calls of [next()] return before [done]; the creation
      of a cursor is recorded in a trace ([Traced]), so that one can tell
      which ranges an operation scans. *)

From Stdlib Require Import ZArith List Sorted Ascii String Bool Lia.
Import ListNotations.
Open Scope Z_scope.

(** ** Strings *)

Definition str : Type := list ascii.

(** A string literal as a list of code units. *)
Definition js (s : string) : str := list_ascii_of_string s.

Fixpoint str_eqb (a b : str) : bool :=
  match a, b with
  | [], [] => true
  | x :: a', y :: b' => Ascii.eqb x y && str_eqb a' b'
  | _, _ => false
  end.

Definition strlen (s : str) : Z := Z.of_nat (List.length s).

(** [String.prototype.slice(start, end)]: negative indices count from the
    end, and both are clamped to the string. *)
Definition slice_index (s : str) (i : Z) : Z :=
  if i <? 0 then Z.max (strlen s + i) 0 else Z.min i (strlen s).

Definition slice (s : str) (start stop : Z) : str :=
  let a := slice_index s start in
  let b := slice_index s stop in
  firstn (Z.to_nat (b - a)) (skipn (Z.to_nat a) s).

(** [Text.sliceString(from, to)] on a document held as one string. *)
Definition sliceString (doc : str) (rangeFrom rangeTo : Z) : str :=
  firstn (Z.to_nat (rangeTo - rangeFrom)) (skipn (Z.to_nat rangeFrom) doc).

(** [x => x.toLowerCase()], code unit by code unit. *)
Definition toLowerCase (c : ascii) : ascii :=
  let n := N_of_ascii c in
  if ((65 <=? n) && (n <=? 90))%N then ascii_of_N (n + 32) else c.

Definition backslash : ascii := ascii_of_N 92.
Definition newline : ascii := ascii_of_N 10.
Definition carriage_return : ascii := ascii_of_N 13.
Definition tab : ascii := ascii_of_N 9.
Definition dollar : ascii := ascii_of_N 36.
Definition ampersand : ascii := ascii_of_N 38.
Definition plus_sign : ascii := ascii_of_N 43.

Definition is_digit (c : ascii) : bool :=
  let n := N_of_ascii c in ((48 <=? n) && (n <=? 57))%N.

(** [text.replace(/L([class])/g, fn)] for a regular expression that is one
    fixed character [lead] followed by one captured character of a class:
    the text is read from left to right; where [lead] is followed by a
    character [ch] of the class, the callback's result for the matched text
    [lead ch] and the group [ch] is substituted and reading resumes after
    [ch]; every other character is copied. *)
Fixpoint replace_lead_class (lead : ascii) (class : ascii -> bool)
    (fn : str -> ascii -> str) (text : str) : str :=
  match text with
  | [] => []
  | c :: tl =>
      if Ascii.eqb c lead then
        match tl with
        | ch :: rest =>
            if class ch
            then fn [c; ch] ch ++ replace_lead_class lead class fn rest
            else c :: replace_lead_class lead class fn tl
        | [] => [c]
        end
      else c :: replace_lead_class lead class fn tl
  end.

(** ** The search query *)

(** The externals of the query layer: [validRegExp] and the values that a
    [RegExpCursor] yields (src/regexp.ts is not among the sources; the
    regular expression engine is the host's). *)

(** [RegExpExecArray]: [match[0]], the whole match; the captures
    [match[1]], [match[2]], ..., of which one whose group took no part in
    the match is [undefined] ([None]); and the [index] of the match in the
    [input] string. *)
Record RegExpExecArray : Type := {
  whole : str;
  captures : list (option str);
  index : Z;
  input : str
}.

(** The array [match]: its length is [match.length], and [match[i]] is its
    entry number [i]. *)
Definition groups (m : RegExpExecArray) : list (option str) :=
  Some (whole m) :: captures m.

(** The text that [String.prototype.replace] writes for what its callback
    returns: a string as it is, [undefined] as the word undefined. *)
Definition written (v : option str) : str :=
  match v with
  | Some text => text
  | None => js "undefined"
  end.

(** The value of a [SearchCursor]. *)
Record SearchResult : Type := { from : Z; to : Z }.

(** The value of a [RegExpCursor]: a range and the engine's match. *)
Record RegExpResult : Type := {
  range :> SearchResult;
  rmatch : RegExpExecArray
}.

Definition RegExpTest : Type := Z -> Z -> RegExpExecArray -> bool.

Class RegExpHost : Type := {
  (** [validRegExp(source)]: does the source compile? *)
  validRegExp : str -> bool;
  (** The values [new RegExpCursor(text, query, {ignoreCase, test}, from, to)]
      yields by [next()], in order.  The constructor compiles the pattern,
      which fails for a pattern that [validRegExp] refuses: the values are
      those of a cursor that was constructed, and stand for nothing in the
      program for such a pattern. *)
  RegExpCursor_values :
    str -> str -> bool -> option RegExpTest -> Z -> Z -> list RegExpResult
}.

(** [SearchQuery]: the stored fields.  [valid] and [unquoted] are set once
    by the constructor from the others and are functions of them here. *)
Record SearchQuery : Type := {
  search : str;
  caseSensitive : bool;
  literal : bool;
  regexp : bool;
  replace : str;
  wholeWord : bool
}.

Definition unquote_char (ch : ascii) : ascii :=
  if Ascii.eqb ch "n" then newline
  else if Ascii.eqb ch "r" then carriage_return
  else if Ascii.eqb ch "t" then tab
  else backslash.

Definition is_escape_letter (ch : ascii) : bool :=
  Ascii.eqb ch "n" || Ascii.eqb ch "r" || Ascii.eqb ch "t"
  || Ascii.eqb ch backslash.

(** [SearchQuery.unquote]. *)
Definition unquote (q : SearchQuery) (text : str) : str :=
  if literal q then text
  else replace_lead_class backslash is_escape_letter
         (fun _ ch => [unquote_char ch]) text.

Definition unquoted (q : SearchQuery) : str := unquote q (search q).

Definition nonempty (s : str) : bool :=
  match s with [] => false | _ :: _ => true end.

Definition valid `{RegExpHost} (q : SearchQuery) : bool :=
  nonempty (search q) && (negb (regexp q) || validRegExp (search q)).

(** [SearchQuery.eq] (the name [eq] is the Standard Library's equality). *)
Definition SearchQuery_eq (q other : SearchQuery) : bool :=
  str_eqb (search q) (search other) && str_eqb (replace q) (replace other)
  && Bool.eqb (caseSensitive q) (caseSensitive other)
  && Bool.eqb (regexp q) (regexp other)
  && Bool.eqb (wholeWord q) (wholeWord other).

(** ** Editor state, traces *)

Inductive CharCategory : Type := Word | Space | Other.

Definition CharCategory_eqb (a b : CharCategory) : bool :=
  match a, b with
  | Word, Word | Space, Space | Other, Other => true
  | _, _ => false
  end.

(** The part of [EditorState] the query layer reads: the document, the main
    selection and, for [charCategorizer(pos)], how the state classes a text
    that holds a character ([classify]). *)
Record EditorState : Type := {
  doc : str;
  selection_from : Z;
  selection_to : Z;
  selection_head : Z;
  selection_ranges : list (Z * Z);
  readOnly : bool;
  classify : Z -> str -> CharCategory
}.

(** [state.charCategorizer(pos)], the editor's: the empty text, which
    [charBefore] and [charAfter] give at the ends of a text, holds no
    character that is not white space and is classed as [Space] (what lies
    outside a text counts as a boundary); a text that holds a character is
    classed as the state says. *)
Definition charCategorizer (state : EditorState) (pos : Z) (ch : str)
  : CharCategory :=
  match ch with
  | [] => Space
  | _ :: _ => classify state pos ch
  end.

Definition doc_length (state : EditorState) : Z := strlen (doc state).

(** What a transaction given to [view.dispatch] carries (announcements and
    scroll effects are left out). *)
Record TransactionSpec : Type := {
  tr_selection : list (Z * Z);
  tr_changes : list (Z * Z * str);
  tr_userEvent : str
}.

(** What an operation does besides returning: the cursors it creates, each
    with its range, and what a command asks of the view. *)
Inductive Event : Type :=
| NewSearchCursor (rangeFrom rangeTo : Z)
| NewRegExpCursor (rangeFrom rangeTo : Z)
| OpenSearchPanel
| Dispatch (tr : TransactionSpec).

Definition is_cursor_event (e : Event) : bool :=
  match e with
  | NewSearchCursor _ _ | NewRegExpCursor _ _ => true
  | _ => false
  end.

(** A computation with its trace of events, oldest first. *)
Definition Traced (A : Type) : Type := (A * list Event)%type.

Definition ret {A : Type} (a : A) : Traced A := (a, []).

Definition bind {A B : Type} (m : Traced A) (k : A -> Traced B) : Traced B :=
  let (b, l) := k (fst m) in (b, snd m ++ l).

Definition tell (e : Event) : Traced unit := (tt, [e]).

Definition result {A : Type} (m : Traced A) : A := fst m.
Definition trace {A : Type} (m : Traced A) : list Event := snd m.

Declare Scope traced_scope.
Delimit Scope traced_scope with traced.
Notation "x <- m ;; k" := (bind m (fun x => k))
  (at level 61, m at next level, right associativity) : traced_scope.
Notation "m ;;; k" := (bind m (fun _ => k))
  (at level 61, right associativity) : traced_scope.
Open Scope traced_scope.

(** ** The literal cursor *)

(** Modelled from the spec: the comparison of the Literal Cursor
    (src/cursor.ts is not among the sources).  Does the normalized [query]
    start the text [l], once [l] is normalized character by character? *)
Fixpoint starts_with (norm : ascii -> ascii) (query l : str) : bool :=
  match query, l with
  | [], _ => true
  | q :: query', c :: l' => Ascii.eqb q (norm c) && starts_with norm query' l'
  | _ :: _, [] => false
  end.

Definition StringTest : Type := Z -> Z -> str -> Z -> bool.

(** Modelled from the spec: a [SearchCursor] as constructed from the
    arguments of its declared constructor (src/cursor.ts is not among the
    sources); the search string is kept normalized. *)
Record SearchCursor : Type := {
  sc_text : str;
  sc_query : str;
  sc_from : Z;
  sc_to : Z;
  sc_normalize : ascii -> ascii;
  sc_test : option StringTest
}.

(** Modelled from the spec: [new SearchCursor(text, query, from, to,
    normalize, test)] (src/cursor.ts is not among the sources). *)
Definition new_SearchCursor (text query : str) (rangeFrom rangeTo : Z)
    (normalize : option (ascii -> ascii)) (test : option StringTest)
  : Traced SearchCursor :=
  tell (NewSearchCursor rangeFrom rangeTo) ;;;
  let norm := match normalize with Some f => f | None => fun c => c end in
  ret {| sc_text := text; sc_query := map norm query;
         sc_from := rangeFrom; sc_to := rangeTo;
         sc_normalize := norm; sc_test := test |}.

(** Modelled from the spec: the buffer of the Literal Cursor
    (src/cursor.ts is not among the sources).  The buffer is a chunk that
    the text source yields for the range of the cursor; the source is
    taken to yield the range in one chunk, so that the buffer is the text
    of the range. *)
Definition sc_buffer (c : SearchCursor) : str :=
  sliceString (sc_text c) (sc_from c) (sc_to c).

(** Modelled from the spec: the offset of the buffer of the Literal Cursor
    (src/cursor.ts is not among the sources) in the source: the buffer
    starts where the range starts. *)
Definition sc_bufferStart (c : SearchCursor) : Z := sc_from c.

(** Modelled from the spec: the acceptance of a candidate by the Literal
    Cursor (src/cursor.ts is not among the sources).  The boundary test,
    when there is one, is called with the match, the buffer and the offset
    of the buffer. *)
Definition sc_accepts (c : SearchCursor) (l : str) (pos : Z) : bool :=
  starts_with (sc_normalize c) (sc_query c) l
  && match sc_test c with
     | Some test =>
         test pos (pos + strlen (sc_query c)) (sc_buffer c) (sc_bufferStart c)
     | None => true
     end.

(** Modelled from the spec: the scan of the Literal Cursor (src/cursor.ts is
    not among the sources).  Candidate positions are tried from left to
    right; a candidate matches when the normalized text at it equals the
    normalized search string, it ends at or before the end of the range,
    and the boundary test accepts it.  After a match [next()] goes on past
    the end of the match, [nextOverlapping()] one unit further.  [l] is the
    text from [pos] on, and [skip] the number of positions still covered by
    the match before. *)
Fixpoint sc_scan (c : SearchCursor) (overlapping : bool) (l : str) (pos : Z)
    (skip : nat) : list SearchResult :=
  match l with
  | [] => []
  | _ :: tl =>
      if sc_to c <? pos + strlen (sc_query c) then []
      else match skip with
           | S k => sc_scan c overlapping tl (pos + 1) k
           | O =>
               if sc_accepts c l pos
               then {| from := pos; to := pos + strlen (sc_query c) |}
                    :: sc_scan c overlapping tl (pos + 1)
                         (if overlapping then O
                          else Nat.pred (List.length (sc_query c)))
               else sc_scan c overlapping tl (pos + 1) O
           end
  end.

(** Modelled from the spec: the values a Literal Cursor yields.  A search
    string of length 0 is outside its contract; it then yields nothing. *)
Definition sc_values (overlapping : bool) (c : SearchCursor)
  : list SearchResult :=
  match sc_query c with
  | [] => []
  | _ :: _ =>
      sc_scan c overlapping (skipn (Z.to_nat (sc_from c)) (sc_text c))
        (sc_from c) O
  end.

(** Modelled from the spec: the values of [cursor.next()] of the Literal
    Cursor (src/cursor.ts is not among the sources), called until [done]. *)
Definition SearchCursor_next : SearchCursor -> list SearchResult :=
  sc_values false.

(** Modelled from the spec: the values of [cursor.nextOverlapping()] of
    the Literal Cursor (src/cursor.ts is not among the sources), called
    until [done]. *)
Definition SearchCursor_nextOverlapping : SearchCursor -> list SearchResult :=
  sc_values true.

(** ** Word tests *)

(** [findClusterBreak(str, pos, forward)]: every code unit of the 8-bit
    alphabet is a cluster of its own. *)
Definition findClusterBreak (s : str) (pos : Z) (forward : bool) : Z :=
  if forward then (if pos <? strlen s then pos + 1 else pos)
  else (if 0 <? pos then pos - 1 else pos).

Definition charBefore (s : str) (i : Z) : str :=
  slice s (findClusterBreak s i false) i.

Definition charAfter (s : str) (i : Z) : str :=
  slice s i (findClusterBreak s i true).

Definition notWord (categorizer : str -> CharCategory) (ch : str) : bool :=
  negb (CharCategory_eqb (categorizer ch) Word).

(** [stringWordTest(doc, categorizer)]. *)
Definition stringWordTest (text : str) (categorizer : str -> CharCategory)
  : StringTest :=
  fun rangeFrom rangeTo buf bufPos =>
    let widen := (rangeFrom <? bufPos) || (bufPos + strlen buf <? rangeTo) in
    let bufPos' := if widen then Z.max 0 (rangeFrom - 2) else bufPos in
    let buf' := if widen
                then sliceString text bufPos'
                       (Z.min (strlen text) (rangeTo + 2))
                else buf in
    (notWord categorizer (charBefore buf' (rangeFrom - bufPos'))
     || notWord categorizer (charAfter buf' (rangeFrom - bufPos')))
    && (notWord categorizer (charAfter buf' (rangeTo - bufPos'))
        || notWord categorizer (charBefore buf' (rangeTo - bufPos'))).

(** [regexpWordTest(categorizer)]. *)
Definition regexpWordTest (categorizer : str -> CharCategory) : RegExpTest :=
  fun _ _ m =>
    negb (nonempty (whole m))
    || ((notWord categorizer (charBefore (input m) (index m))
         || notWord categorizer (charAfter (input m) (index m)))
        && (notWord categorizer
              (charAfter (input m) (index m + strlen (whole m)))
            || notWord categorizer
                 (charBefore (input m) (index m + strlen (whole m))))).

(** [stringCursor(spec, state, from, to)]. *)
Definition stringCursor (spec : SearchQuery) (state : EditorState)
    (rangeFrom rangeTo : Z) : Traced SearchCursor :=
  new_SearchCursor (doc state) (unquoted spec) rangeFrom rangeTo
    (if caseSensitive spec then None else Some toLowerCase)
    (if wholeWord spec
     then Some (stringWordTest (doc state)
                  (charCategorizer state (selection_head state)))
     else None).

(** A [RegExpCursor] as constructed. *)
Record RegExpCursor : Type := {
  rc_text : str;
  rc_query : str;
  rc_ignoreCase : bool;
  rc_test : option RegExpTest;
  rc_from : Z;
  rc_to : Z
}.

Definition new_RegExpCursor (text query : str) (ignoreCase : bool)
    (test : option RegExpTest) (rangeFrom rangeTo : Z) : Traced RegExpCursor :=
  tell (NewRegExpCursor rangeFrom rangeTo) ;;;
  ret {| rc_text := text; rc_query := query; rc_ignoreCase := ignoreCase;
         rc_test := test; rc_from := rangeFrom; rc_to := rangeTo |}.

(** The values of [cursor.next()], called until [done]. *)
Definition RegExpCursor_next `{RegExpHost} (c : RegExpCursor)
  : list RegExpResult :=
  RegExpCursor_values (rc_text c) (rc_query c) (rc_ignoreCase c) (rc_test c)
    (rc_from c) (rc_to c).

(** [regexpCursor(spec, state, from, to)]. *)
Definition regexpCursor (spec : SearchQuery) (state : EditorState)
    (rangeFrom rangeTo : Z) : Traced RegExpCursor :=
  new_RegExpCursor (doc state) (search spec) (negb (caseSensitive spec))
    (if wholeWord spec
     then Some (regexpWordTest (charCategorizer state (selection_head state)))
     else None)
    rangeFrom rangeTo.

(** ** The two query types *)

(** [FindPrev.ChunkSize] and [RegExp.HighlightMargin]. *)
Definition ChunkSize : Z := 10000.
Definition HighlightMargin : Z := 250.

(** [while (!cursor.next().done) range = cursor.value], from [range = null]. *)
Definition last_value {A : Type} (values : list A) : option A :=
  fold_left (fun _ v => Some v) values None.

(** [while (!cursor.next().done) { if (ranges.length >= limit) return null;
    ranges.push(cursor.value) }; return ranges]. *)
Fixpoint collect {A : Type} (values ranges : list A) (limit : Z)
  : option (list A) :=
  match values with
  | [] => Some ranges
  | v :: rest =>
      if limit <=? Z.of_nat (List.length ranges) then None
      else collect rest (ranges ++ [v]) limit
  end.

(** The number of rounds that the loops of [prevMatchInRange] are given;
    they stop of themselves before (see [rounds_enough] and the lemmas on
    the rounds of the two loops). *)
Definition rounds (rangeFrom rangeTo : Z) : nat :=
  S (Z.to_nat ((rangeTo - rangeFrom) / ChunkSize)).

Module StringQuery.

Definition nextMatch (spec : SearchQuery) (state : EditorState)
    (curFrom curTo : Z) : Traced (option SearchResult) :=
  cursor <- stringCursor spec state curTo (doc_length state) ;;
  match SearchCursor_nextOverlapping cursor with
  | v :: _ => ret (Some v)
  | [] =>
      cursor <- stringCursor spec state 0 curFrom ;;
      ret (hd_error (SearchCursor_nextOverlapping cursor))
  end.

(** The loop [for (let pos = to;;) ...] of [prevMatchInRange]; [None] when
    the rounds are used up. *)
Fixpoint prevMatchLoop (n : nat) (spec : SearchQuery) (state : EditorState)
    (rangeFrom pos : Z) : option (Traced (option SearchResult)) :=
  match n with
  | O => None
  | S n' =>
      let start :=
        Z.max rangeFrom (pos - ChunkSize - strlen (unquoted spec)) in
      let scan := stringCursor spec state start pos in
      match last_value (SearchCursor_nextOverlapping (result scan)) with
      | Some r => Some (Some r, trace scan)
      | None =>
          if start =? rangeFrom then Some (None, trace scan)
          else match prevMatchLoop n' spec state rangeFrom
                       (pos - ChunkSize) with
               | Some m => Some (result m, trace scan ++ trace m)
               | None => None
               end
      end
  end.

Definition prevMatchInRange (spec : SearchQuery) (state : EditorState)
    (rangeFrom rangeTo : Z) : Traced (option SearchResult) :=
  match prevMatchLoop (rounds rangeFrom rangeTo) spec state rangeFrom
          rangeTo with
  | Some m => m
  | None => ret None
  end.

Definition prevMatch (spec : SearchQuery) (state : EditorState)
    (curFrom curTo : Z) : Traced (option SearchResult) :=
  r <- prevMatchInRange spec state 0 curFrom ;;
  match r with
  | Some v => ret (Some v)
  | None => prevMatchInRange spec state curTo (doc_length state)
  end.

Definition getReplacement (spec : SearchQuery) (_result : SearchResult)
  : str :=
  unquote spec (replace spec).

Definition matchAll (spec : SearchQuery) (state : EditorState) (limit : Z)
  : Traced (option (list SearchResult)) :=
  cursor <- stringCursor spec state 0 (doc_length state) ;;
  ret (collect (SearchCursor_next cursor) [] limit).

(** The calls of [add], in order. *)
Definition highlight (spec : SearchQuery) (state : EditorState)
    (rangeFrom rangeTo : Z) : Traced (list (Z * Z)) :=
  cursor <- stringCursor spec state
              (Z.max 0 (rangeFrom - strlen (unquoted spec)))
              (Z.min (rangeTo + strlen (unquoted spec)) (doc_length state)) ;;
  ret (map (fun v => (from v, to v)) (SearchCursor_next cursor)).

End StringQuery.

Module RegExpQuery.
Section WithHost.
Context `{RegExpHost}.

Definition nextMatch (spec : SearchQuery) (state : EditorState)
    (curFrom curTo : Z) : Traced (option RegExpResult) :=
  cursor <- regexpCursor spec state curTo (doc_length state) ;;
  match RegExpCursor_next cursor with
  | v :: _ => ret (Some v)
  | [] =>
      cursor <- regexpCursor spec state 0 curFrom ;;
      ret (hd_error (RegExpCursor_next cursor))
  end.

(** [range && (start == from || range.from > start + 10)]. *)
Definition accepted (rangeFrom start : Z) (range : option RegExpResult)
  : bool :=
  match range with
  | Some r => (start =? rangeFrom) || (start + 10 <? from r)
  | None => false
  end.

(** The loop [for (let size = 1;; size++) ...] of [prevMatchInRange];
    [None] when the rounds are used up. *)
Fixpoint prevMatchLoop (n : nat) (spec : SearchQuery) (state : EditorState)
    (rangeFrom rangeTo size : Z) : option (Traced (option RegExpResult)) :=
  match n with
  | O => None
  | S n' =>
      let start := Z.max rangeFrom (rangeTo - size * ChunkSize) in
      let scan := regexpCursor spec state start rangeTo in
      let range := last_value (RegExpCursor_next (result scan)) in
      if accepted rangeFrom start range then Some (range, trace scan)
      else if start =? rangeFrom then Some (None, trace scan)
      else match prevMatchLoop n' spec state rangeFrom rangeTo (size + 1)
           with
           | Some m => Some (result m, trace scan ++ trace m)
           | None => None
           end
  end.

Definition prevMatchInRange (spec : SearchQuery) (state : EditorState)
    (rangeFrom rangeTo : Z) : Traced (option RegExpResult) :=
  match prevMatchLoop (rounds rangeFrom rangeTo) spec state rangeFrom
          rangeTo 1 with
  | Some m => m
  | None => ret None
  end.

Definition prevMatch (spec : SearchQuery) (state : EditorState)
    (curFrom curTo : Z) : Traced (option RegExpResult) :=
  r <- prevMatchInRange spec state 0 curFrom ;;
  match r with
  | Some v => ret (Some v)
  | None => prevMatchInRange spec state curTo (doc_length state)
  end.

(** [+i] for a one-character string [i]: the digit's value, or [None] for
    [NaN]. *)
Definition toNumber (i : ascii) : option Z :=
  if is_digit i then Some (Z.of_N (N_of_ascii i) - 48) else None.

Definition is_template_char (c : ascii) : bool :=
  Ascii.eqb c dollar || Ascii.eqb c ampersand || is_digit c
  || Ascii.eqb c plus_sign.

(** The callback of [getReplacement]: [(m, i) => i == "$" ? "$" : i == "&"
    ? result.match[0] : i != "0" && +i < result.match.length ?
    result.match[i] : m]. *)
Definition expand_reference (m : RegExpExecArray) (matched : str)
    (i : ascii) : str :=
  if Ascii.eqb i dollar then [dollar]
  else if Ascii.eqb i ampersand then whole m
  else match toNumber i with
       | Some n =>
           if negb (Ascii.eqb i "0")
              && (n <? Z.of_nat (List.length (groups m)))
           then written (nth (Z.to_nat n) (groups m) None)
           else matched
       | None => matched
       end.

(** [this.spec.replace.replace(/\$([$&\d+])/g, ...)]. *)
Definition expand (m : RegExpExecArray) (template : str) : str :=
  replace_lead_class dollar is_template_char (expand_reference m) template.

Definition getReplacement (spec : SearchQuery) (r : RegExpResult) : str :=
  unquote spec (expand (rmatch r) (replace spec)).

Definition matchAll (spec : SearchQuery) (state : EditorState) (limit : Z)
  : Traced (option (list RegExpResult)) :=
  cursor <- regexpCursor spec state 0 (doc_length state) ;;
  ret (collect (RegExpCursor_next cursor) [] limit).

(** The calls of [add], in order. *)
Definition highlight (spec : SearchQuery) (state : EditorState)
    (rangeFrom rangeTo : Z) : Traced (list (Z * Z)) :=
  cursor <- regexpCursor spec state (Z.max 0 (rangeFrom - HighlightMargin))
              (Z.min (rangeTo + HighlightMargin) (doc_length state)) ;;
  ret (map (fun v : RegExpResult => (from v, to v))
         (RegExpCursor_next cursor)).

End WithHost.
End RegExpQuery.

(** ** Query types as one variant, search state, commands *)

(** [QueryType]: [new StringQuery(spec)] or [new RegExpQuery(spec)]. *)
Inductive QueryType : Type :=
| OfString (spec : SearchQuery)
| OfRegExp (spec : SearchQuery).

Definition spec_of (query : QueryType) : SearchQuery :=
  match query with OfString spec | OfRegExp spec => spec end.

(** [SearchQuery.create]. *)
Definition create (spec : SearchQuery) : QueryType :=
  if regexp spec then OfRegExp spec else OfString spec.

(** The [Result] type parameter of [QueryType<Result>]. *)
Definition ResultOf (query : QueryType) : Type :=
  match query with
  | OfString _ => SearchResult
  | OfRegExp _ => RegExpResult
  end.

Definition range_of {query : QueryType} : ResultOf query -> SearchResult :=
  match query with
  | OfString _ => fun r => r
  | OfRegExp _ => fun r => range r
  end.

Section Commands.
Context `{RegExpHost}.

Definition nextMatch (query : QueryType) (state : EditorState)
    (curFrom curTo : Z) : Traced (option (ResultOf query)) :=
  match query with
  | OfString spec => StringQuery.nextMatch spec state curFrom curTo
  | OfRegExp spec => RegExpQuery.nextMatch spec state curFrom curTo
  end.

Definition prevMatch (query : QueryType) (state : EditorState)
    (curFrom curTo : Z) : Traced (option (ResultOf query)) :=
  match query with
  | OfString spec => StringQuery.prevMatch spec state curFrom curTo
  | OfRegExp spec => RegExpQuery.prevMatch spec state curFrom curTo
  end.

Definition matchAll (query : QueryType) (state : EditorState) (limit : Z)
  : Traced (option (list (ResultOf query))) :=
  match query with
  | OfString spec => StringQuery.matchAll spec state limit
  | OfRegExp spec => RegExpQuery.matchAll spec state limit
  end.

Definition highlight (query : QueryType) (state : EditorState)
    (rangeFrom rangeTo : Z) : Traced (list (Z * Z)) :=
  match query with
  | OfString spec => StringQuery.highlight spec state rangeFrom rangeTo
  | OfRegExp spec => RegExpQuery.highlight spec state rangeFrom rangeTo
  end.

(** [SearchState]; [panel] tells whether the panel constructor is set. *)
Record SearchState : Type := { query : QueryType; panel : bool }.

(** The view: its state, the search state field of that state (absent
    when the extension is not configured) and the visible ranges. *)
Record EditorView : Type := {
  state : EditorState;
  field_searchState : option SearchState;
  visibleRanges : list (Z * Z)
}.

Definition Command : Type := EditorView -> Traced bool.

(** [openSearchPanel], as far as this layer is concerned: it opens or
    focuses the panel and returns true. *)
Definition openSearchPanel : Command :=
  fun _ => tell OpenSearchPanel ;;; ret true.

(** [searchCommand(f)]. *)
Definition searchCommand (f : EditorView -> SearchState -> Traced bool)
  : Command :=
  fun view =>
    match field_searchState view with
    | Some st =>
        if valid (spec_of (query st)) then f view st
        else openSearchPanel view
    | None => openSearchPanel view
    end.

Definition select_single (r : SearchResult) (userEvent : str)
  : Traced unit :=
  tell (Dispatch {| tr_selection := [(from r, to r)]; tr_changes := [];
                    tr_userEvent := userEvent |}).

(** [findNext]. *)
Definition findNext : Command :=
  searchCommand (fun view st =>
    let pos := selection_to (state view) in
    next <- nextMatch (query st) (state view) pos pos ;;
    match next with
    | None => ret false
    | Some r =>
        select_single (range_of r) (js "select.search") ;;; ret true
    end).

(** [findPrevious]. *)
Definition findPrevious : Command :=
  searchCommand (fun view st =>
    let pos := selection_from (state view) in
    prev <- prevMatch (query st) (state view) pos pos ;;
    match prev with
    | None => ret false
    | Some r =>
        select_single (range_of r) (js "select.search") ;;; ret true
    end).

(** [selectMatches]. *)
Definition selectMatches : Command :=
  searchCommand (fun view st =>
    ranges <- matchAll (query st) (state view) 1000 ;;
    match ranges with
    | None | Some [] => ret false
    | Some rs =>
        tell (Dispatch
                {| tr_selection :=
                     map (fun r => (from (range_of r), to (range_of r))) rs;
                   tr_changes := [];
                   tr_userEvent := js "select.search.matches" |}) ;;;
        ret true
    end).

(** The visible ranges as the highlighter groups them: a range closer
    than twice the margin to the one before is joined to it. *)
Fixpoint joined_ranges (rangeFrom rangeTo : Z) (rest : list (Z * Z))
  : list (Z * Z) :=
  match rest with
  | [] => [(rangeFrom, rangeTo)]
  | (f, t) :: rest' =>
      if f - 2 * HighlightMargin <? rangeTo
      then joined_ranges rangeFrom t rest'
      else (rangeFrom, rangeTo) :: joined_ranges f t rest'
  end.

Definition is_selected (state : EditorState) (r : Z * Z) : bool :=
  existsb (fun s => (fst s =? fst r) && (snd s =? snd r))
    (selection_ranges state).

Fixpoint highlight_ranges (q : QueryType) (state : EditorState)
    (ranges : list (Z * Z)) : Traced (list (Z * Z * bool)) :=
  match ranges with
  | [] => ret []
  | (f, t) :: rest =>
      marks <- highlight q state f t ;;
      more <- highlight_ranges q state rest ;;
      ret (map (fun r => (r, is_selected state r)) marks ++ more)
  end.

(** The [highlight] method of the [searchHighlighter] plugin: the marks
    ([from], [to], selected or not) of the decoration set it builds. *)
Definition searchHighlighter_highlight (view : EditorView)
    (st : SearchState) : Traced (list (Z * Z * bool)) :=
  if negb (panel st) || negb (valid (spec_of (query st))) then ret []
  else match visibleRanges view with
       | [] => ret []
       | (f, t) :: rest =>
           highlight_ranges (query st) (state view) (joined_ranges f t rest)
       end.

End Commands.

(** ** A host for patterns of letters and digits *)

Definition is_alnum (c : ascii) : bool :=
  let n := N_of_ascii c in
  (((48 <=? n) && (n <=? 57)) || ((65 <=? n) && (n <=? 90))
   || ((97 <=? n) && (n <=? 122)))%N.

(** Modelled from the spec: the values of the Pattern Cursor
    (src/regexp.ts is not among the sources) for a pattern of letters and
    digits only, which as a regular expression matches its own text and
    nothing else: the occurrences of the pattern in the range, from left to
    right, each search going on past the end of the match before; a match
    carries its one submatch, the matched text; matches that the test
    refuses are left out. *)
Definition literal_values (text query : str) (ignoreCase : bool)
    (test : option RegExpTest) (rangeFrom rangeTo : Z) : list RegExpResult :=
  let norm := if ignoreCase then toLowerCase else fun c => c in
  let cursor := {| sc_text := text; sc_query := map norm query;
                   sc_from := rangeFrom; sc_to := rangeTo;
                   sc_normalize := norm; sc_test := None |} in
  let found :=
    map (fun r : SearchResult =>
           {| range := r;
              rmatch := {| whole := sliceString text (from r) (to r);
                           captures := []; index := from r;
                           input := text |} |})
      (sc_values false cursor) in
  filter (fun r : RegExpResult =>
            match test with
            | Some t => t (from r) (to r) (rmatch r)
            | None => true
            end) found.

(** The host that knows the patterns of letters and digits, and refuses
    every other pattern (as every host refuses an unbalanced parenthesis). *)
Definition literalHost : RegExpHost := {|
  validRegExp := fun source => forallb is_alnum source;
  RegExpCursor_values := literal_values
|}.

(** ** Sample data *)

Definition plainQuery (text : string) : SearchQuery :=
  {| search := js text; caseSensitive := true; literal := false;
     regexp := false; replace := []; wholeWord := false |}.

Definition regexpQuery (text : string) : SearchQuery :=
  {| search := js text; caseSensitive := true; literal := false;
     regexp := true; replace := []; wholeWord := false |}.

Definition plainState (text : str) : EditorState :=
  {| doc := text; selection_from := 0; selection_to := 0;
     selection_head := 0; selection_ranges := [(0, 0)]; readOnly := false;
     classify := fun _ ch =>
       match ch with
       | c :: _ => if is_alnum c then Word
                   else if Ascii.eqb c " " then Space else Other
       | [] => Space
       end |}.

Definition letters (c : ascii) (n : Z) : str := repeat c (Z.to_nat n).

(** Fifty thousand times the letter a. *)
Definition longDoc : str := letters "a" 50000.

(** A run of 19998 letters a between two letters b. *)
Definition runDoc : str := js "b" ++ letters "a" 19998 ++ js "b".

(** The word [xcat] at offset 6 between white space: 10010 units. *)
Definition edgeDoc : str := letters " " 6 ++ js "xcat" ++ letters " " 10000.

(** A literal query for whole words. *)
Definition wordQuery (text : string) : SearchQuery :=
  {| search := js text; caseSensitive := true; literal := false;
     regexp := false; replace := []; wholeWord := true |}.

(** A literal query for two lines, [a] and [b], as [defaultQuery] makes
    it of a selection of two lines. *)
Definition linesQuery (lit : bool) : SearchQuery :=
  {| search := [ascii_of_N 97; newline; ascii_of_N 98];
     caseSensitive := true; literal := lit; regexp := false; replace := [];
     wholeWord := false |}.

Definition escapeQuery (lit : bool) : SearchQuery :=
  {| search := js "x\n"; caseSensitive := true; literal := lit;
     regexp := false; replace := []; wholeWord := false |}.

Definition templateQuery (lit : bool) : SearchQuery :=
  {| search := js "(a)(b)"; caseSensitive := true; literal := lit;
     regexp := true; replace := js "$2$1-$&"; wholeWord := false |}.

Definition abResult : RegExpResult :=
  {| range := {| from := 0; to := 2 |};
     rmatch := {| whole := js "ab"; captures := [Some (js "a"); Some (js "b")];
                  index := 0; input := js "ab" |} |}.

(** The query [(a)|(b)] with the replacement [[$1][$2]], and its match on
    the text [a]: the second group takes no part in it. *)
Definition alternativeQuery : SearchQuery :=
  {| search := js "(a)|(b)"; caseSensitive := true; literal := false;
     regexp := true; replace := js "[$1][$2]"; wholeWord := false |}.

Definition aResult : RegExpResult :=
  {| range := {| from := 0; to := 1 |};
     rmatch := {| whole := js "a"; captures := [Some (js "a"); None];
                  index := 0; input := js "a" |} |}.

(** A view whose query has an empty search string, and one whose query is
    a regular expression with an unbalanced parenthesis. *)
Definition viewOf (q : QueryType) : EditorView :=
  {| state := plainState (js "abc");
     field_searchState := Some {| query := q; panel := true |};
     visibleRanges := [(0, 3)] |}.

Definition emptyQueryView : EditorView := viewOf (OfString (plainQuery "")).

Definition unbalancedView : EditorView := viewOf (OfRegExp (regexpQuery "(")).

(** ** The statements' vocabulary *)

(** The text starts with an escape sequence: a backslash and one of the
    letters n, r, t or a second backslash. *)
Definition starts_escape (s : str) : Prop :=
  exists ch rest, s = backslash :: ch :: rest /\ is_escape_letter ch = true.

(** Escape expansion told sequence by sequence: the four escapes are
    replaced, every other character stays. *)
Inductive Unescapes : str -> str -> Prop :=
| Unescapes_nil : Unescapes [] []
| Unescapes_n s s' :
    Unescapes s s' -> Unescapes (backslash :: "n"%char :: s) (newline :: s')
| Unescapes_r s s' :
    Unescapes s s' ->
    Unescapes (backslash :: "r"%char :: s) (carriage_return :: s')
| Unescapes_t s s' :
    Unescapes s s' -> Unescapes (backslash :: "t"%char :: s) (tab :: s')
| Unescapes_backslash s s' :
    Unescapes s s' -> Unescapes (backslash :: backslash :: s) (backslash :: s')
| Unescapes_other c s s' :
    ~ starts_escape (c :: s) -> Unescapes s s' -> Unescapes (c :: s) (c :: s').

(** Submatch number [n] of a match: its text, which is empty for a group
    that took no part in the match. *)
Definition submatch (m : RegExpExecArray) (n : nat) : str :=
  match nth n (groups m) None with
  | Some text => text
  | None => []
  end.

(** The value of a digit character. *)
Definition digit_value (d : ascii) : nat := N.to_nat (N_of_ascii d) - 48.

(** [$d] refers to a submatch: [d] is a digit other than 0 and less than
    the number of submatches. *)
Definition valid_group (m : RegExpExecArray) (d : ascii) : Prop :=
  is_digit d = true /\ d <> "0"%char
  /\ (digit_value d < List.length (groups m))%nat.

(** The text starts with a reference that is expanded. *)
Definition starts_reference (m : RegExpExecArray) (s : str) : Prop :=
  exists ch rest, s = dollar :: ch :: rest
    /\ (ch = dollar \/ ch = ampersand \/ valid_group m ch).

(** Template expansion told reference by reference.  A reference to a
    group that took part in the match is replaced by the text of the group;
    for a reference to a group that took no part the word undefined is
    written. *)
Inductive Expands (m : RegExpExecArray) : str -> str -> Prop :=
| Expands_nil : Expands m [] []
| Expands_dollar s s' :
    Expands m s s' -> Expands m (dollar :: dollar :: s) (dollar :: s')
| Expands_whole s s' :
    Expands m s s' ->
    Expands m (dollar :: ampersand :: s) (submatch m 0 ++ s')
| Expands_group d text s s' :
    valid_group m d -> nth (digit_value d) (groups m) None = Some text ->
    Expands m s s' ->
    Expands m (dollar :: d :: s) (text ++ s')
| Expands_undefined d s s' :
    valid_group m d -> nth (digit_value d) (groups m) None = None ->
    Expands m s s' ->
    Expands m (dollar :: d :: s) (js "undefined" ++ s')
| Expands_other c s s' :
    ~ starts_reference m (c :: s) -> Expands m s s' ->
    Expands m (c :: s) (c :: s').

(** The start of the [k]-th chunk of the backward regular expression
    search of [[a, b)]. *)
Definition chunk_start (a b k : Z) : Z := Z.max a (b - k * ChunkSize).

Section Vocabulary.
Context `{RegExpHost}.

(** The matches that one forward scan of [[rangeFrom, rangeTo)] by
    [next()] yields. *)
Definition scan_values (query : QueryType) (state : EditorState)
    (rangeFrom rangeTo : Z) : list (ResultOf query) :=
  match query with
  | OfString spec =>
      SearchCursor_next (result (stringCursor spec state rangeFrom rangeTo))
  | OfRegExp spec =>
      RegExpCursor_next (result (regexpCursor spec state rangeFrom rangeTo))
  end.

(** The matches in the document: one forward scan of all of it. *)
Definition all_matches (query : QueryType) (state : EditorState)
  : list (ResultOf query) :=
  scan_values query state 0 (doc_length state).

(** The matches that a scan of [[rangeFrom, rangeTo)] by the regular
    expression cursor yields. *)
Definition regexp_scan (spec : SearchQuery) (state : EditorState)
    (rangeFrom rangeTo : Z) : list RegExpResult :=
  RegExpCursor_next (result (regexpCursor spec state rangeFrom rangeTo)).

(** The answer of the backward regular expression search of [[a, b)].
    The chunks [[max(a, b - j * 10000), b)] are scanned for [j = 1, 2, ...];
    the answer is the last match of the first chunk [k] whose last match
    is accepted: the chunk starts at [a], or the match starts more than 10
    units after the start of the chunk.  Every chunk before it starts
    after [a] and yields nothing, or a last match that starts at most 10
    units after the start of the chunk.  The answer is none when the chunk
    that starts at [a] is reached and yields nothing. *)
Definition chunk_answer (spec : SearchQuery) (state : EditorState)
    (a b : Z) (r : option RegExpResult) : Prop :=
  exists k : Z,
    1 <= k
    /\ (forall j, 1 <= j < k ->
          a < chunk_start a b j
          /\ match last_value (regexp_scan spec state (chunk_start a b j) b)
             with
             | Some m => from m <= chunk_start a b j + 10
             | None => True
             end)
    /\ r = last_value (regexp_scan spec state (chunk_start a b k) b)
    /\ match r with
       | Some m => chunk_start a b k = a \/ chunk_start a b k + 10 < from m
       | None => chunk_start a b k = a
       end.


End Vocabulary.

Definition pattern_length (spec : SearchQuery) : Z := strlen (unquoted spec).

Definition normalizer (spec : SearchQuery) : ascii -> ascii :=
  if caseSensitive spec then (fun c => c) else toLowerCase.

(** The whole-word test of the query on [[a, b)], true when the query does
    not ask for whole words. *)
Definition word_ok (spec : SearchQuery) (state : EditorState) (a b : Z)
  : bool :=
  if wholeWord spec
  then stringWordTest (doc state)
         (charCategorizer state (selection_head state)) a b (doc state) 0
  else true.

(** The search string occurs at offset [o]: the slice of the document of
    the pattern's length at [o] equals the unquoted search string, both
    normalized, and the whole-word test, if asked for, holds. *)
Definition occurs (spec : SearchQuery) (state : EditorState) (o : Z) : Prop :=
  0 <= o /\ o + pattern_length spec <= doc_length state
  /\ map (normalizer spec)
       (sliceString (doc state) o (o + pattern_length spec))
     = map (normalizer spec) (unquoted spec)
  /\ word_ok spec state o (o + pattern_length spec) = true.

(** [m] is an occurrence of the search string inside [[a, b)]. *)
Definition occurs_in (spec : SearchQuery) (state : EditorState) (a b : Z)
    (m : SearchResult) : Prop :=
  a <= from m /\ to m <= b /\ to m = from m + pattern_length spec
  /\ occurs spec state (from m).

(** [r] is the occurrence inside [[a, b)] that starts last, or none if
    there is no occurrence. *)
Definition last_occurrence (spec : SearchQuery) (state : EditorState)
    (a b : Z) (r : option SearchResult) : Prop :=
  match r with
  | Some m => occurs_in spec state a b m
              /\ forall m', occurs_in spec state a b m' -> from m' <= from m
  | None => forall m', ~ occurs_in spec state a b m'
  end.

(** Every match starts at or after [lo] and at or after the end of the
    match before it. *)
Fixpoint chained (lo : Z) (ms : list SearchResult) : Prop :=
  match ms with
  | [] => True
  | m :: rest => lo <= from m /\ chained (to m) rest
  end.



(** The matches that a scan of [[rangeFrom, rangeTo)] by the literal
    cursor yields, overlapping ones among them. *)
Definition string_scan (spec : SearchQuery) (state : EditorState)
    (rangeFrom rangeTo : Z) : list SearchResult :=
  SearchCursor_nextOverlapping
    (result (stringCursor spec state rangeFrom rangeTo)).

(** The offset [p] is a word boundary for a scan of [[lo, hi)]: it is an
    end of the range, or the units of the document before and after it
    are not both word characters. *)
Definition boundary_in (state : EditorState) (lo hi p : Z) : bool :=
  (p =? lo) || (p =? hi)
  || notWord (charCategorizer state (selection_head state))
       (charBefore (doc state) p)
  || notWord (charCategorizer state (selection_head state))
       (charAfter (doc state) p).

(** The whole-word condition on [[a, b)] in a scan of [[lo, hi)], true
    when the query does not ask for whole words. *)
Definition word_ok_in (spec : SearchQuery) (state : EditorState)
    (lo hi a b : Z) : bool :=
  if wholeWord spec
  then boundary_in state lo hi a && boundary_in state lo hi b
  else true.

(** [m] is a match of a scan of [[lo, hi)]: it lies inside the range, the
    slice of the document at it equals the unquoted search string, both
    normalized, and the whole-word condition, if asked for, holds, the ends
    of the range counting as boundaries. *)
Definition occurs_within (spec : SearchQuery) (state : EditorState)
    (lo hi : Z) (m : SearchResult) : Prop :=
  lo <= from m /\ to m <= hi /\ to m = from m + pattern_length spec
  /\ 0 <= from m /\ to m <= doc_length state
  /\ map (normalizer spec) (sliceString (doc state) (from m) (to m))
     = map (normalizer spec) (unquoted spec)
  /\ word_ok_in spec state lo hi (from m) (to m) = true.

(** [r] is the match of a scan of [[lo, hi)] that starts first, or none
    if there is no match. *)
Definition first_within (spec : SearchQuery) (state : EditorState)
    (lo hi : Z) (r : option SearchResult) : Prop :=
  match r with
  | Some m => occurs_within spec state lo hi m
              /\ forall m', occurs_within spec state lo hi m' ->
                            from m <= from m'
  | None => forall m', ~ occurs_within spec state lo hi m'
  end.

(** [r] is the match of a scan of [[lo, hi)] that starts last, or none if
    there is no match. *)
Definition last_within (spec : SearchQuery) (state : EditorState)
    (lo hi : Z) (r : option SearchResult) : Prop :=
  match r with
  | Some m => occurs_within spec state lo hi m
              /\ forall m', occurs_within spec state lo hi m' ->
                            from m' <= from m
  | None => forall m', ~ occurs_within spec state lo hi m'
  end.

(** The [j]-th window of the backward literal search of [[a, b)]: it ends
    at [b - (j - 1) * 10000] and starts 10000 units and the length of the
    search string before its end, or at [a]. *)
Definition window_end (b j : Z) : Z := b - (j - 1) * ChunkSize.

Definition window_start (spec : SearchQuery) (a b j : Z) : Z :=
  Z.max a (window_end b j - ChunkSize - pattern_length spec).

(** The answer of the backward literal search of [[a, b)]: the match that
    starts last in the first window that has a match; every window before
    it starts after [a] and has no match.  The answer is none when the
    window that starts at [a] is reached and has no match. *)
Definition window_answer (spec : SearchQuery) (state : EditorState)
    (a b : Z) (r : option SearchResult) : Prop :=
  exists k : Z,
    1 <= k
    /\ (forall j, 1 <= j < k ->
          a < window_start spec a b j
          /\ forall m,
               ~ occurs_within spec state (window_start spec a b j)
                   (window_end b j) m)
    /\ last_within spec state (window_start spec a b k) (window_end b k) r
    /\ (r = None -> window_start spec a b k = a).

(** The chunks that the backward regular expression search of [[a, b)]
    scans in [k] rounds from round [j] on. *)
Fixpoint regexp_chunks (a b j : Z) (k : nat) : list Event :=
  match k with
  | O => []
  | S k' => NewRegExpCursor (chunk_start a b j) b
            :: regexp_chunks a b (j + 1) k'
  end.

(** The windows of the backward literal search of [[a, pos)], [k] of them,
    for a pattern of length [len]. *)
Fixpoint string_chunks (a pos len : Z) (k : nat) : list Event :=
  match k with
  | O => []
  | S k' => NewSearchCursor (Z.max a (pos - ChunkSize - len)) pos
            :: string_chunks a (pos - ChunkSize) len k'
  end.

(** The width of the range a cursor was created for. *)
Definition span (e : Event) : Z :=
  match e with
  | NewSearchCursor a b | NewRegExpCursor a b => b - a
  | _ => 0
  end.

(** Every width is twice the one before. *)
Fixpoint doubling (widths : list Z) : Prop :=
  match widths with
  | a :: (b :: _) as rest => b = 2 * a /\ doubling rest
  | _ => True
  end.

(** ** The rest of the query layer *)

(** The fields of [SearchConfig] that set the default query, as
    [state.facet(searchConfigFacet)] gives them. *)
Record SearchConfig : Type := {
  config_caseSensitive : bool;
  config_literal : bool;
  config_regexp : bool;
  config_wholeWord : bool
}.

(** [selText.replace(/\n/g, "\\n")]. *)
Definition escape_newlines (s : str) : str :=
  flat_map (fun c => if Ascii.eqb c newline
                     then [backslash; "n"%char] else [c]) s.

(** The [selText] of [defaultQuery]: the text of the main selection, or
    the empty string when the selection is empty or longer than 100. *)
Definition selText (state : EditorState) : str :=
  if (selection_from state =? selection_to state)
     || (selection_from state + 100 <? selection_to state)
  then []
  else sliceString (doc state) (selection_from state) (selection_to state).

(** [defaultQuery(state, fallback)]. *)
Definition defaultQuery (config : SearchConfig) (state : EditorState)
    (fallback : option SearchQuery) : SearchQuery :=
  let fresh :=
    let lit := match fallback with
               | Some fb => literal fb
               | None => config_literal config
               end in
    {| search := if lit then selText state
                 else escape_newlines (selText state);
       caseSensitive := match fallback with
                        | Some fb => caseSensitive fb
                        | None => config_caseSensitive config
                        end;
       literal := lit;
       regexp := match fallback with
                 | Some fb => regexp fb
                 | None => config_regexp config
                 end;
       replace := [];
       wholeWord := match fallback with
                    | Some fb => wholeWord fb
                    | None => config_wholeWord config
                    end |} in
  match fallback with
  | Some fb => if nonempty (selText state) then fresh else fb
  | None => fresh
  end.

(** The effects that the search state field looks at in a transaction:
    [setSearchQuery], [togglePanel], and all others. *)
Inductive SearchEffect : Type :=
| SetSearchQuery (q : SearchQuery)
| TogglePanel (on : bool)
| OtherEffect.

(** The [update] of the [searchState] field over the effects of a
    transaction. *)
Definition searchState_update (value : SearchState)
    (effects : list SearchEffect) : SearchState :=
  fold_left
    (fun v effect =>
       match effect with
       | SetSearchQuery q => {| query := create q; panel := panel v |}
       | TogglePanel on => {| query := query v; panel := on |}
       | OtherEffect => v
       end)
    effects value.

(** [getSearchQuery(state)], the search state field given as in a view. *)
Definition getSearchQuery (config : SearchConfig) (view : EditorView)
  : SearchQuery :=
  match field_searchState view with
  | Some st => spec_of (query st)
  | None => defaultQuery config (state view) None
  end.

(** What [SearchPanel] holds: the values of its five controls and the
    query it shows. *)
Record SearchPanel : Type := {
  searchField : str;
  replaceField : str;
  caseField : bool;
  reField : bool;
  wordField : bool;
  panel_query : SearchQuery
}.

(** The query that [commit] builds from the controls. *)
Definition panel_fields_query (p : SearchPanel) : SearchQuery :=
  {| search := searchField p; caseSensitive := caseField p;
     literal := false; regexp := reField p; replace := replaceField p;
     wholeWord := wordField p |}.

(** [SearchPanel.commit]: the panel after it, and the query dispatched
    with [setSearchQuery], if any. *)
Definition commit (p : SearchPanel) : SearchPanel * option SearchQuery :=
  let q := panel_fields_query p in
  if negb (SearchQuery_eq q (panel_query p))
  then ({| searchField := searchField p; replaceField := replaceField p;
           caseField := caseField p; reField := reField p;
           wordField := wordField p; panel_query := q |}, Some q)
  else (p, None).

(** What a text input holds after a text is assigned to its [value]: the
    text without its line breaks ([searchField] and [replaceField] are
    single-line inputs, which drop line feeds and carriage returns from a
    value they are given). *)
Definition input_value (text : str) : str :=
  filter (fun c => negb (Ascii.eqb c newline || Ascii.eqb c carriage_return))
    text.

(** [SearchPanel.setQuery]. *)
Definition setQuery (q : SearchQuery) : SearchPanel :=
  {| searchField := input_value (search q);
     replaceField := input_value (replace q);
     caseField := caseSensitive q; reField := regexp q;
     wordField := wholeWord q; panel_query := q |}.

(** [SearchPanel.update] over the effects of the transactions. *)
Definition panel_update (p : SearchPanel) (effects : list SearchEffect)
  : SearchPanel :=
  fold_left
    (fun p effect =>
       match effect with
       | SetSearchQuery q =>
           if negb (SearchQuery_eq q (panel_query p)) then setQuery q else p
       | _ => p
       end)
    effects p.

(** The loop of [selectSelectionMatches]: [None] for [return false],
    otherwise the ranges and the index of the main range. *)
Fixpoint select_loop (values : list SearchResult) (ranges : list (Z * Z))
    (main : nat) (selFrom : Z) : option (list (Z * Z) * nat) :=
  match values with
  | [] => Some (ranges, main)
  | v :: rest =>
      if 1000 <? Z.of_nat (List.length ranges) then None
      else select_loop rest (ranges ++ [(from v, to v)])
             (if from v =? selFrom then List.length ranges else main)
             selFrom
  end.

(** [selectSelectionMatches]: [None] when it returns false, otherwise the
    selection that it dispatches, as ranges and the index of the main
    one.  The cursor is created without range, normalizer and test; the
    range left out is taken to be the whole document. *)
Definition selectSelectionMatches (state : EditorState)
  : Traced (option (list (Z * Z) * nat)) :=
  if (1 <? Z.of_nat (List.length (selection_ranges state)))
     || (selection_from state =? selection_to state)
  then ret None
  else
    cur <- new_SearchCursor (doc state)
             (sliceString (doc state) (selection_from state)
                (selection_to state))
             0 (doc_length state) None None ;;
    ret (select_loop (SearchCursor_next cur) [] O (selection_from state)).

Section MoreCommands.
Context `{RegExpHost}.

(** [query.getReplacement(result)]. *)
Definition getReplacement (q : QueryType) : ResultOf q -> str :=
  match q with
  | OfString spec => StringQuery.getReplacement spec
  | OfRegExp spec => RegExpQuery.getReplacement spec
  end.

(** The length of [state.toText(text)], the document's counting of a
    text. *)
Variable textLength : str -> Z.

(** The selection that [replaceNext] sets on the match [next], given the
    changes made: [next.from - off] and [next.to - off]. *)
Definition replaceNext_selection (changes : list (Z * Z * str))
    (replacementLength : Z) (next : SearchResult) : Z * Z :=
  let off :=
    match changes with
    | [] => 0
    | (changeFrom, _, _) :: _ =>
        if to next <=? changeFrom then 0
        else to next - from next - replacementLength
    end in
  (from next - off, to next - off).

(** [replaceNext]. *)
Definition replaceNext : Command :=
  searchCommand (fun view st =>
    let s := state view in
    if readOnly s then ret false
    else
      next <- nextMatch (query st) s (selection_from s) (selection_from s) ;;
      match next with
      | None => ret false
      | Some r =>
          if (from (range_of r) =? selection_from s)
             && (to (range_of r) =? selection_to s)
          then
            let replacement := getReplacement (query st) r in
            let changes :=
              [(from (range_of r), to (range_of r), replacement)] in
            next' <- nextMatch (query st) s (from (range_of r))
                       (to (range_of r)) ;;
            tell (Dispatch
                    {| tr_selection :=
                         match next' with
                         | Some n =>
                             [replaceNext_selection changes
                                (textLength replacement) (range_of n)]
                         | None => []
                         end;
                       tr_changes := changes;
                       tr_userEvent := js "input.replace" |}) ;;;
            ret true
          else
            tell (Dispatch
                    {| tr_selection :=
                         [replaceNext_selection [] 0 (range_of r)];
                       tr_changes := [];
                       tr_userEvent := js "input.replace" |}) ;;;
            ret true
      end).

(** The body of [replaceAll]; [None] stands for the [TypeError] of
    [null.map] when [matchAll] returns null. *)
Definition replaceAll_body (view : EditorView) (st : SearchState)
  : Traced (option bool) :=
  if readOnly (state view) then ret (Some false)
  else
    ranges <- matchAll (query st) (state view) 1000000000 ;;
    match ranges with
    | None => ret None
    | Some [] => ret (Some false)
    | Some rs =>
        tell (Dispatch
                {| tr_selection := [];
                   tr_changes :=
                     map (fun r => (from (range_of r), to (range_of r),
                                    getReplacement (query st) r)) rs;
                   tr_userEvent := js "input.replace.all" |}) ;;;
        ret (Some true)
    end.

(** [replaceAll]: [searchCommand] around the body above. *)
Definition replaceAll (view : EditorView) : Traced (option bool) :=
  match field_searchState view with
  | Some st =>
      if valid (spec_of (query st)) then replaceAll_body view st
      else (b <- openSearchPanel view ;; ret (Some b))
  | None => b <- openSearchPanel view ;; ret (Some b)
  end.

End MoreCommands.

(** The query of [selectSelectionMatches] as a search query: the selected
    text, taken literally and with its case. *)
Definition selectionQuery (state : EditorState) : SearchQuery :=
  {| search := sliceString (doc state) (selection_from state)
                 (selection_to state);
     caseSensitive := true; literal := true; regexp := false;
     replace := []; wholeWord := false |}.

(** Where an offset of the document lies after the range [[a, b)] has been
    replaced by a text of length [n]. *)
Definition mapPos (a b n pos : Z) : Z :=
  if b <=? pos then pos - (b - a) + n else pos.

(** The events of a trace that are not the creation of a cursor. *)
Definition view_events (t : list Event) : list Event :=
  filter (fun e => negb (is_cursor_event e)) t.

(** A window of the document: the text [buf] is what the document holds
    from [bufPos] on. *)
Definition is_window (text buf : str) (bufPos : Z) : Prop :=
  0 <= bufPos /\ buf = sliceString text bufPos (bufPos + strlen buf).

(** The text holds no line break: neither a line feed nor a carriage
    return. *)
Definition no_line_break (text : str) : Prop :=
  ~ In newline text /\ ~ In carriage_return text.

(** The effects that set the query, and those that toggle the panel. *)
Definition sets_query (e : SearchEffect) : bool :=
  match e with SetSearchQuery _ => true | _ => false end.

Definition toggles_panel (e : SearchEffect) : bool :=
  match e with TogglePanel _ => true | _ => false end.

(** [m] is a match of the scan of a window for which a cursor was created
    in the trace, a window inside the document. *)
Definition scanned_match (spec : SearchQuery) (state : EditorState)
    (events : list Event) (m : SearchResult) : Prop :=
  exists lo hi,
    In (NewSearchCursor lo hi) events
    /\ 0 <= lo /\ hi <= doc_length state
    /\ occurs_within spec state lo hi m.

(** The marks of the highlighter as ranges. *)
Definition mark_range (m : Z * Z * bool) : SearchResult :=
  {| from := fst (fst m); to := snd (fst m) |}.

(** The range a cursor was created for. *)
Definition event_range (e : Event) : Z * Z :=
  match e with
  | NewSearchCursor a b | NewRegExpCursor a b => (a, b)
  | _ => (0, 0)
  end.

(** The visible ranges as the highlighter groups them. *)
Definition joined_visible (view : EditorView) : list (Z * Z) :=
  match visibleRanges view with
  | [] => []
  | (f, t) :: rest => joined_ranges f t rest
  end.

(** What a find command may ask of the view: nothing, returning false; the
    search panel, returning true; or one transaction that selects one
    range and changes nothing, returning true. *)
Definition only_selects (m : Traced bool) : Prop :=
  match view_events (trace m) with
  | [] => result m = false
  | [OpenSearchPanel] => result m = true
  | [Dispatch tr] =>
      result m = true /\ tr_changes tr = []
      /\ tr_userEvent tr = js "select.search"
      /\ exists r, tr_selection tr = [r]
  | _ => False
  end.

(** The matches that the cursor of [selectSelectionMatches] yields. *)
Definition selection_matches (state : EditorState) : list SearchResult :=
  SearchCursor_next
    (result (stringCursor (selectionQuery state) state 0 (doc_length state))).

(** * Properties *)

(** ** Strings and traces *)

Lemma str_eqb_eq (a b : str) : str_eqb a b = true <-> a = b.
Proof.
  revert b; induction a as [|x a IH]; intros [|y b]; simpl;
    try (split; (reflexivity || discriminate)).
  rewrite andb_true_iff, Ascii.eqb_eq, IH.
  split; [intros [-> ->]; reflexivity | intros E; inversion E; auto].
Qed.

Lemma strlen_nonneg (s : str) : 0 <= strlen s.
Proof. unfold strlen; lia. Qed.

Lemma strlen_map (f : ascii -> ascii) (s : str) : strlen (map f s) = strlen s.
Proof. unfold strlen; now rewrite length_map. Qed.

Lemma last_value_fold {A : Type} (l : list A) (acc : option A) :
  fold_left (fun _ v => Some v) l acc
  = match last_value l with Some x => Some x | None => acc end.
Proof.
  unfold last_value; revert acc; induction l as [|a l IH]; intros acc; simpl.
  - reflexivity.
  - rewrite (IH (Some a)).
    destruct (fold_left _ l None); reflexivity.
Qed.

Lemma last_value_cons {A : Type} (a : A) (l : list A) :
  last_value (a :: l)
  = match last_value l with Some x => Some x | None => Some a end.
Proof. unfold last_value at 1; simpl; apply last_value_fold. Qed.

Lemma last_value_nil_iff {A : Type} (l : list A) :
  last_value l = None <-> l = [].
Proof.
  destruct l as [|a l]; [split; reflexivity|].
  rewrite last_value_cons; destruct (last_value l); split; discriminate.
Qed.

Lemma last_value_in {A : Type} (l : list A) (x : A) :
  last_value l = Some x -> In x l.
Proof.
  induction l as [|a l IH]; [discriminate|].
  rewrite last_value_cons; destruct (last_value l) as [y|].
  - intros E; right; apply IH; exact E.
  - intros E; left; congruence.
Qed.

Lemma sliceString_length (text : str) (a b : Z) :
  0 <= a -> a <= b -> b <= strlen text ->
  strlen (sliceString text a b) = b - a.
Proof.
  intros A B C; unfold sliceString, strlen in *.
  rewrite length_firstn, length_skipn; lia.
Qed.

Lemma slice_inside (s : str) (x y : Z) :
  0 <= x -> x <= y -> y <= strlen s -> slice s x y = sliceString s x y.
Proof.
  intros X Y L; unfold slice, slice_index, sliceString.
  destruct (Z.ltb_spec x 0); [lia|]; destruct (Z.ltb_spec y 0); [lia|].
  rewrite !Z.min_l by lia; reflexivity.
Qed.

Lemma window_length (text buf : str) (p : Z) :
  is_window text buf p -> p + strlen buf <= strlen text \/ buf = [].
Proof.
  intros [P E]; destruct buf as [|c buf]; [right; reflexivity | left].
  assert (L : List.length (c :: buf)
              = List.length (sliceString text p (p + strlen (c :: buf))))
    by (rewrite <- E; reflexivity).
  unfold sliceString in L; rewrite length_firstn, length_skipn in L.
  unfold strlen in *; simpl List.length in *; lia.
Qed.

Lemma window_slice (text buf : str) (p x y : Z) :
  is_window text buf p -> p <= x -> x <= y -> y <= p + strlen buf ->
  sliceString buf (x - p) (y - p) = sliceString text x y.
Proof.
  intros [P E] X Y L; rewrite E at 1; unfold sliceString.
  rewrite skipn_firstn_comm, firstn_firstn, skipn_skipn.
  replace (Z.to_nat (x - p) + Z.to_nat p)%nat with (Z.to_nat x) by lia.
  f_equal; unfold strlen in *; lia.
Qed.

Lemma window_chars (text buf : str) (p x : Z) :
  is_window text buf p -> p <= x -> x <= p + strlen buf ->
  x <= strlen text ->
  (p < x \/ x = 0) -> (x < p + strlen buf \/ x = strlen text) ->
  charBefore buf (x - p) = charBefore text x
  /\ charAfter buf (x - p) = charAfter text x.
Proof.
  intros W X E L Left Right; pose proof W as [P _].
  pose proof (strlen_nonneg buf) as NB.
  assert (WL : p + strlen buf <= strlen text).
  { destruct (window_length text buf p W) as [K|K]; [exact K|].
    subst buf; unfold strlen in *; simpl in *; lia. }
  unfold charBefore, charAfter, findClusterBreak; split.
  - destruct (Z.ltb_spec 0 (x - p)), (Z.ltb_spec 0 x); try lia.
    + rewrite !slice_inside by lia.
      replace (x - p - 1) with (x - 1 - p) by lia.
      apply window_slice; auto; lia.
    + rewrite !slice_inside by lia.
      unfold sliceString; rewrite !Z.sub_diag; reflexivity.
  - destruct (Z.ltb_spec (x - p) (strlen buf)), (Z.ltb_spec x (strlen text));
      try lia.
    + rewrite !slice_inside by lia.
      replace (x - p + 1) with (x + 1 - p) by lia.
      apply window_slice; auto; lia.
    + rewrite !slice_inside by lia.
      unfold sliceString; rewrite !Z.sub_diag; reflexivity.
Qed.

Lemma sliceString_whole (text : str) :
  sliceString text 0 (strlen text) = text.
Proof.
  unfold sliceString, strlen; rewrite Z.sub_0_r, Nat2Z.id; simpl.
  apply firstn_all.
Qed.

Lemma sliceString_clip (text : str) (a b : Z) :
  strlen text <= b -> sliceString text a b = sliceString text a (strlen text).
Proof.
  intros B; unfold sliceString, strlen in *.
  rewrite !firstn_all2; [reflexivity | |]; rewrite length_skipn; lia.
Qed.

Lemma charBefore_start (s : str) : charBefore s 0 = [].
Proof.
  unfold charBefore, findClusterBreak, slice, slice_index; simpl.
  rewrite Z.min_l by apply strlen_nonneg; reflexivity.
Qed.

Lemma charAfter_end (s : str) : charAfter s (strlen s) = [].
Proof.
  unfold charAfter, findClusterBreak.
  rewrite Z.ltb_irrefl, slice_inside;
    [|apply strlen_nonneg | lia | lia].
  unfold sliceString; rewrite Z.sub_diag; reflexivity.
Qed.

(** The whole-word test on a match in the buffer of a cursor of
    [[lo, hi)], the text of the range: an end of the match that is an end
    of the range passes, the other ends are tested on the units of the
    text around them. *)
Lemma stringWordTest_range (text : str) (categorizer : str -> CharCategory)
    (lo hi f t : Z) :
  notWord categorizer [] = true ->
  0 <= lo -> lo <= f -> f < t -> t <= hi -> t <= strlen text ->
  stringWordTest text categorizer f t (sliceString text lo hi) lo
  = ((f =? lo) || notWord categorizer (charBefore text f)
     || notWord categorizer (charAfter text f))
    && ((t =? hi) || notWord categorizer (charBefore text t)
        || notWord categorizer (charAfter text t)).
Proof.
  intros Empty Lo F T Hi Len.
  set (e := Z.min hi (strlen text)).
  assert (Buf : sliceString text lo hi = sliceString text lo e).
  { subst e; destruct (Z.le_gt_cases hi (strlen text)).
    - rewrite Z.min_l by lia; reflexivity.
    - rewrite Z.min_r by lia; apply sliceString_clip; lia. }
  rewrite Buf; set (buf := sliceString text lo e).
  assert (BL : strlen buf = e - lo)
    by (apply sliceString_length; subst e; lia).
  assert (W : is_window text buf lo)
    by (split; [exact Lo | rewrite BL; subst buf; f_equal; lia]).
  unfold stringWordTest.
  destruct (Z.ltb_spec f lo); [lia|].
  destruct (Z.ltb_spec (lo + strlen buf) t); [subst e; lia|].
  cbn [orb]; f_equal.
  - destruct (Z.eqb_spec f lo) as [->|NE].
    + rewrite Z.sub_diag, charBefore_start, Empty; reflexivity.
    + destruct (window_chars text buf lo f W) as [-> ->];
        try (subst e; lia); reflexivity.
  - destruct (Z.eq_dec t e) as [E|NE].
    + destruct (Z.eq_dec e (strlen text)) as [E'|NE'].
      * assert (A : charAfter text t = [])
          by (rewrite E, E'; apply charAfter_end).
        destruct (window_chars text buf lo t W) as [-> ->];
          try (subst e; lia).
        rewrite A, Empty, !orb_true_r; reflexivity.
      * assert (TH : t = hi) by (subst e; lia).
        replace (t - lo) with (strlen buf) by lia.
        rewrite charAfter_end, Empty.
        destruct (Z.eqb_spec t hi); [reflexivity | contradiction].
    + destruct (Z.eqb_spec t hi); [subst e; lia|].
      destruct (window_chars text buf lo t W) as [-> ->];
        try (subst e; lia).
      cbn [orb]; apply orb_comm.
Qed.

(** ** The query value *)

Lemma SearchQuery_eq_fields (q other : SearchQuery) :
  SearchQuery_eq q other = true
  <-> search q = search other /\ replace q = replace other
      /\ caseSensitive q = caseSensitive other /\ regexp q = regexp other
      /\ wholeWord q = wholeWord other.
Proof.
  unfold SearchQuery_eq.
  rewrite !andb_true_iff, !str_eqb_eq, !Bool.eqb_true_iff; tauto.
Qed.

(** C1.  [SearchQuery.eq] holds exactly when five of the six fields are
    equal: it does not look at [literal].  The queries [escapeQuery false]
    and [escapeQuery true] differ in that field, and in the search string
    they stand for ([unquoted]), and are equal for [eq]. *)
Theorem SearchQuery_eq_ignores_literal :
  (forall q other,
     SearchQuery_eq q other = true
     <-> search q = search other /\ replace q = replace other
         /\ caseSensitive q = caseSensitive other
         /\ regexp q = regexp other /\ wholeWord q = wholeWord other)
  /\ SearchQuery_eq (escapeQuery false) (escapeQuery true) = true
  /\ literal (escapeQuery false) <> literal (escapeQuery true)
  /\ unquoted (escapeQuery false) = [ "x"%char; newline ]
  /\ unquoted (escapeQuery true) = [ "x"%char; backslash; "n"%char ].
Proof.
  split; [exact SearchQuery_eq_fields|].
  repeat split; discriminate.
Qed.

Lemma starts_escape_dec (c : ascii) (s : str) :
  (if Ascii.eqb c backslash
   then match s with ch :: _ => is_escape_letter ch | [] => false end
   else false) = true
  <-> starts_escape (c :: s).
Proof.
  unfold starts_escape; destruct (Ascii.eqb_spec c backslash) as [->|N].
  - destruct s as [|ch rest].
    + split; [discriminate | intros (? & ? & E & _); discriminate].
    + split; [intros E; exists ch, rest; auto|].
      intros (ch' & rest' & E & L); inversion E; subst; exact L.
  - split; [discriminate|].
    intros (ch & rest & E & _); inversion E; contradiction.
Qed.

Lemma Unescapes_replace (n : nat) : forall text : str,
  (List.length text <= n)%nat ->
  Unescapes text
    (replace_lead_class backslash is_escape_letter
       (fun _ ch => [unquote_char ch]) text).
Proof.
  induction n as [|n IH]; intros [|c tl] L; simpl in L; try lia;
    try (simpl; constructor).
  pose proof (starts_escape_dec c tl) as D.
  simpl; destruct (Ascii.eqb_spec c backslash) as [->|N].
  - destruct tl as [|ch rest]; simpl in *.
    + constructor; [rewrite <- D; discriminate | constructor].
    + destruct (is_escape_letter ch) eqn:E.
      * unfold is_escape_letter in E; unfold unquote_char; simpl.
        destruct (Ascii.eqb_spec ch "n") as [->|];
          [apply Unescapes_n, IH; lia|].
        destruct (Ascii.eqb_spec ch "r") as [->|];
          [apply Unescapes_r, IH; lia|].
        destruct (Ascii.eqb_spec ch "t") as [->|];
          [apply Unescapes_t, IH; lia|].
        destruct (Ascii.eqb_spec ch backslash) as [->|]; [|discriminate].
        apply Unescapes_backslash, IH; lia.
      * constructor; [rewrite <- D; discriminate | apply IH; simpl; lia].
  - constructor; [rewrite <- D; discriminate | apply IH; lia].
Qed.

Lemma Unescapes_functional (text out : str) :
  Unescapes text out ->
  out = replace_lead_class backslash is_escape_letter
          (fun _ ch => [unquote_char ch]) text.
Proof.
  induction 1 as [| s s' _ IH | s s' _ IH | s s' _ IH | s s' _ IH
                 | c s s' N _ IH]; try (simpl; rewrite IH; reflexivity).
  - reflexivity.
  - pose proof (starts_escape_dec c s) as D'.
    simpl. destruct (Ascii.eqb c backslash).
    + destruct s as [|ch rest]; [rewrite IH; reflexivity|].
      destruct (is_escape_letter ch); [exfalso; apply N, D'; reflexivity|].
      rewrite IH; reflexivity.
    + rewrite IH; reflexivity.
Qed.

(** C10.  [unquote] returns its input unchanged when the [literal] flag is
    set; otherwise its result is the one and only expansion of the escape
    sequences backslash-n, backslash-r, backslash-t and
    backslash-backslash (to newline, carriage return, tab and one
    backslash), every other character being kept. *)
Theorem unquote_expands_escapes (q : SearchQuery) (text out : str) :
  (if literal q then out = text else Unescapes text out)
  <-> out = unquote q text.
Proof.
  unfold unquote; destruct (literal q); [tauto|].
  split.
  - apply Unescapes_functional.
  - intros ->; apply (Unescapes_replace (List.length text)); lia.
Qed.

(** ** Replacement templates *)

Lemma digit_not_special (d : ascii) :
  is_digit d = true -> d <> dollar /\ d <> ampersand /\ d <> plus_sign.
Proof. intros D; repeat split; intros ->; discriminate. Qed.

Lemma digit_value_toNumber (d : ascii) :
  is_digit d = true ->
  RegExpQuery.toNumber d = Some (Z.of_nat (digit_value d)).
Proof.
  unfold RegExpQuery.toNumber, digit_value, is_digit; intros D; rewrite D.
  apply andb_true_iff in D as [D1 D2].
  apply N.leb_le in D1, D2. f_equal; lia.
Qed.

Lemma valid_group_dec (m : RegExpExecArray) (d : ascii) :
  is_digit d = true ->
  (negb (Ascii.eqb d "0")
   && (Z.of_nat (digit_value d) <? Z.of_nat (List.length (groups m)))) = true
  <-> valid_group m d.
Proof.
  intros D; unfold valid_group.
  rewrite andb_true_iff, negb_true_iff, Z.ltb_lt.
  destruct (Ascii.eqb_spec d "0") as [->|N]; split;
    try (intros (? & K); (discriminate || (repeat split; auto; lia)));
    intros (? & ? & ?); try contradiction; split; auto; lia.
Qed.

Lemma expand_reference_digit (m : RegExpExecArray) (matched : str)
    (d : ascii) :
  is_digit d = true ->
  RegExpQuery.expand_reference m matched d
  = if negb (Ascii.eqb d "0")
       && (Z.of_nat (digit_value d) <? Z.of_nat (List.length (groups m)))
    then written (nth (digit_value d) (groups m) None) else matched.
Proof.
  intros D; unfold RegExpQuery.expand_reference.
  destruct (digit_not_special d D) as (N1 & N2 & _).
  destruct (Ascii.eqb_spec d dollar); [contradiction|].
  destruct (Ascii.eqb_spec d ampersand); [contradiction|].
  rewrite (digit_value_toNumber d D), Nat2Z.id; reflexivity.
Qed.

Lemma starts_reference_inv (m : RegExpExecArray) (c ch : ascii) (rest : str) :
  starts_reference m (c :: ch :: rest)
  <-> c = dollar /\ (ch = dollar \/ ch = ampersand \/ valid_group m ch).
Proof.
  unfold starts_reference; split.
  - intros (ch' & rest' & E & K); inversion E; subst; auto.
  - intros (-> & K); exists ch, rest; auto.
Qed.

Lemma not_reference_single (m : RegExpExecArray) (c : ascii) :
  ~ starts_reference m [c].
Proof. intros (? & ? & E & _); discriminate. Qed.

Lemma not_reference_other (m : RegExpExecArray) (c : ascii) (s : str) :
  c <> dollar -> ~ starts_reference m (c :: s).
Proof. intros N (? & ? & E & _); inversion E; contradiction. Qed.

Lemma Expands_expand (m : RegExpExecArray) (n : nat) : forall template : str,
  (List.length template <= n)%nat ->
  Expands m template (RegExpQuery.expand m template).
Proof.
  unfold RegExpQuery.expand.
  induction n as [|n IH]; intros [|c tl] L; simpl in L; try lia;
    try (simpl; constructor).
  simpl; destruct (Ascii.eqb_spec c dollar) as [->|N];
    [|constructor; [apply not_reference_other; exact N | apply IH; lia]].
  destruct tl as [|ch rest];
    [constructor; [apply not_reference_single | constructor]|].
  simpl in L.
  assert (IHr : Expands m rest
                  (replace_lead_class dollar RegExpQuery.is_template_char
                     (RegExpQuery.expand_reference m) rest))
    by (apply IH; lia).
  assert (Copy : ch <> dollar -> ch <> ampersand -> ~ valid_group m ch ->
            Expands m (dollar :: ch :: rest)
              ([dollar; ch] ++
               replace_lead_class dollar RegExpQuery.is_template_char
                 (RegExpQuery.expand_reference m) rest)).
  { intros N1 N2 N3; simpl.
    constructor; [rewrite starts_reference_inv; tauto|].
    constructor; [apply not_reference_other; exact N1 | exact IHr]. }
  unfold RegExpQuery.is_template_char.
  destruct (Ascii.eqb_spec ch dollar) as [->|N1];
    [simpl; apply Expands_dollar; exact IHr|].
  destruct (Ascii.eqb_spec ch ampersand) as [->|N2];
    [simpl; apply Expands_whole; exact IHr|].
  destruct (is_digit ch) eqn:D; simpl.
  - rewrite (expand_reference_digit m _ ch D).
    pose proof (valid_group_dec m ch D) as V.
    destruct (negb (Ascii.eqb ch "0") && _).
    + destruct (nth (digit_value ch) (groups m) None) as [text|] eqn:G.
      * apply Expands_group; [apply V; reflexivity | exact G | exact IHr].
      * apply Expands_undefined;
          [apply V; reflexivity | exact G | exact IHr].
    + apply Copy; auto. rewrite <- V; discriminate.
  - assert (NV : ~ valid_group m ch) by (intros (D' & _); congruence).
    destruct (Ascii.eqb_spec ch plus_sign) as [->|N3].
    + apply Copy; auto.
    + constructor; [rewrite starts_reference_inv; tauto|].
      apply (IH (ch :: rest)); simpl; lia.
Qed.

Lemma Expands_functional (m : RegExpExecArray) (template out : str) :
  Expands m template out -> out = RegExpQuery.expand m template.
Proof.
  unfold RegExpQuery.expand.
  assert (Group : forall d s s' v,
            valid_group m d -> nth (digit_value d) (groups m) None = v ->
            s' = replace_lead_class dollar RegExpQuery.is_template_char
                   (RegExpQuery.expand_reference m) s ->
            written v ++ s'
            = replace_lead_class dollar RegExpQuery.is_template_char
                (RegExpQuery.expand_reference m) (dollar :: d :: s)).
  { intros d s s' v V G IH; destruct V as (D & V); simpl.
    unfold RegExpQuery.is_template_char; rewrite D, !orb_true_r, orb_true_l.
    rewrite (expand_reference_digit m _ d D).
    pose proof (valid_group_dec m d D) as VD.
    destruct (negb (Ascii.eqb d "0") && _).
    - rewrite IH, G; reflexivity.
    - exfalso; destruct VD as [_ VD]; discriminate VD; split; tauto. }
  induction 1 as [| s s' _ IH | s s' _ IH | d text s s' V G _ IH
                  | d s s' V G _ IH | c s s' N _ IH].
  - reflexivity.
  - rewrite IH; reflexivity.
  - rewrite IH; reflexivity.
  - apply (Group d s s' (Some text) V G IH).
  - apply (Group d s s' None V G IH).
  - simpl; destruct (Ascii.eqb_spec c dollar) as [->|Nc];
      [|rewrite IH; reflexivity].
    destruct s as [|ch rest]; [rewrite IH; reflexivity|].
    rewrite starts_reference_inv in N.
    unfold RegExpQuery.is_template_char.
    destruct (Ascii.eqb_spec ch dollar) as [->|N1]; [tauto|].
    destruct (Ascii.eqb_spec ch ampersand) as [->|N2]; [tauto|].
    assert (Rest : s' = ch :: replace_lead_class dollar
                            RegExpQuery.is_template_char
                            (RegExpQuery.expand_reference m) rest).
    { rewrite IH; simpl; destruct (Ascii.eqb_spec ch dollar); tauto. }
    destruct (is_digit ch) eqn:D; simpl.
    + rewrite (expand_reference_digit m _ ch D).
      pose proof (valid_group_dec m ch D) as VD.
      destruct (negb (Ascii.eqb ch "0") && _);
        [exfalso; apply N; split; auto; right; right; apply VD; reflexivity|].
      rewrite Rest; reflexivity.
    + destruct (Ascii.eqb_spec ch plus_sign) as [->|N3].
      * rewrite Rest; reflexivity.
      * rewrite IH; reflexivity.
Qed.

(** C8 fails for a reference to a group that took no part in the match.
    The replacement of a regular expression match is the unquoted expansion
    of the template, and that expansion is the one and only text obtained
    by replacing every [$$] by [$], every [$&] by submatch 0 and every [$d],
    for a digit [d] other than 0 and less than the number of submatches, by
    the text of submatch [d] when group [d] took part in the match, all
    other characters ([$0], [$9] out of range, ...) being kept; the
    template [$2$1-$&] on the submatches [ab], [a], [b] gives [ba-ab].  But
    where group [d] took no part, [match[d]] is undefined and the word
    undefined is written in the place of [$d]: for the match of [(a)|(b)]
    on the text [a], whose submatch 2 is undefined, the template
    [[$1][$2]] gives [[a][undefined]]. *)
Theorem getReplacement_expands_template (spec : SearchQuery)
    (r : RegExpResult) :
  (exists out, Expands (rmatch r) (replace spec) out
               /\ (forall out', Expands (rmatch r) (replace spec) out' ->
                                out' = out)
               /\ RegExpQuery.getReplacement spec r = unquote spec out)
  /\ (forall lit, RegExpQuery.getReplacement (templateQuery lit) abResult
                 = js "ba-ab")
  /\ RegExpQuery.expand (rmatch abResult) (js "$$ $9 $0") = js "$ $9 $0"
  /\ valid_group (rmatch aResult) "2"
  /\ nth 2 (groups (rmatch aResult)) None = None
  /\ RegExpQuery.getReplacement alternativeQuery aResult
     = js "[a][undefined]".
Proof.
  split; [|split; [intros [|]; reflexivity|]].
  - exists (RegExpQuery.expand (rmatch r) (replace spec)); repeat split.
    + apply (Expands_expand _ (List.length (replace spec))); lia.
    + apply Expands_functional.
  - split; [reflexivity | split; [|split; reflexivity]].
    split; [reflexivity | split; [discriminate | vm_compute; lia]].
Qed.

(** ** Collecting all matches *)

Lemma collect_limit {A : Type} (values : list A) : forall ranges limit,
  Z.of_nat (List.length ranges) <= limit ->
  collect values ranges limit
  = if limit <? Z.of_nat (List.length ranges + List.length values)
    then None else Some (ranges ++ values).
Proof.
  induction values as [|v rest IH]; intros ranges limit L; simpl.
  - rewrite Nat.add_0_r, app_nil_r.
    destruct (Z.ltb_spec limit (Z.of_nat (List.length ranges))); [lia|easy].
  - destruct (Z.leb_spec limit (Z.of_nat (List.length ranges))).
    + destruct (Z.ltb_spec limit
                  (Z.of_nat (List.length ranges + S (List.length rest))));
        [reflexivity | lia].
    + rewrite IH by (rewrite length_app; simpl; lia).
      rewrite length_app, <- app_assoc; simpl.
      replace (List.length ranges + 1 + List.length rest)%nat
        with (List.length ranges + S (List.length rest))%nat by lia.
      reflexivity.
Qed.

(** C7.  For a limit that is not negative, [matchAll] returns null when the
    document has more matches than the limit, and the list of all matches
    otherwise: also when there are exactly [limit] of them, and the empty
    list, which is not null, when there is none. *)
Theorem matchAll_limit `{RegExpHost} (query : QueryType)
    (state : EditorState) (limit : Z) :
  0 <= limit ->
  (limit < Z.of_nat (List.length (all_matches query state)) ->
   result (matchAll query state limit) = None)
  /\ (Z.of_nat (List.length (all_matches query state)) <= limit ->
      result (matchAll query state limit) = Some (all_matches query state))
  /\ (all_matches query state = [] ->
      result (matchAll query state limit) = Some []
      /\ Some [] <> (None : option (list (ResultOf query)))).
Proof.
  intros L.
  assert (E : result (matchAll query state limit)
              = collect (all_matches query state) [] limit)
    by (destruct query; reflexivity).
  rewrite E, collect_limit by (simpl; lia); simpl.
  destruct (Z.ltb_spec limit (Z.of_nat (List.length (all_matches query state))))
    as [G|G].
  - split; [reflexivity | split; [lia|]].
    intros N; rewrite N in G; simpl in G; lia.
  - split; [lia | split; [reflexivity|]].
    intros N; rewrite N; split; [reflexivity | discriminate].
Qed.

(** ** The scan of the literal cursor *)

Section Scan.
Variable c : SearchCursor.

Let L : Z := strlen (sc_query c).

Lemma sc_scan_sound (overlapping : bool) (l : str) :
  forall (pos : Z) (skip : nat) (m : SearchResult),
  In m (sc_scan c overlapping l pos skip) ->
  exists i : nat,
    (skip <= i < List.length l)%nat /\ from m = pos + Z.of_nat i
    /\ to m = from m + L /\ to m <= sc_to c
    /\ sc_accepts c (skipn i l) (from m) = true.
Proof.
  induction l as [|x tl IH]; intros pos skip m; simpl; [tauto|].
  fold L. destruct (Z.ltb_spec (sc_to c) (pos + L)) as [G|G]; [simpl; tauto|].
  assert (Shift : forall k,
            In m (sc_scan c overlapping tl (pos + 1) k) ->
            exists i : nat,
              (k <= i /\ S i < S (List.length tl))%nat
              /\ from m = pos + Z.of_nat (S i)
              /\ to m = from m + L /\ to m <= sc_to c
              /\ sc_accepts c (skipn (S i) (x :: tl)) (from m) = true).
  { intros k I; destruct (IH _ _ _ I) as (i & B & F & T & T' & A).
    exists i; simpl; repeat split; auto; lia. }
  destruct skip as [|k].
  - destruct (sc_accepts c (x :: tl) pos) eqn:A.
    + intros [<-|I].
      * exists O; simpl; repeat split; auto; lia.
      * destruct (Shift _ I) as (i & B & R); exists (S i); split; [lia|auto].
    + intros I.
      destruct (Shift _ I) as (i & B & R); exists (S i); split; [lia|auto].
  - intros I.
    destruct (Shift _ I) as (i & B & R); exists (S i); split; [lia|auto].
Qed.

Lemma sc_scan_all (l : str) : forall (pos : Z) (i : nat),
  (i < List.length l)%nat -> pos + Z.of_nat i + L <= sc_to c ->
  sc_accepts c (skipn i l) (pos + Z.of_nat i) = true ->
  In {| from := pos + Z.of_nat i; to := pos + Z.of_nat i + L |}
     (sc_scan c true l pos O).
Proof.
  induction l as [|x tl IH]; intros pos i B T A; simpl in B; [lia|].
  simpl; fold L.
  destruct (Z.ltb_spec (sc_to c) (pos + L)) as [G|G]; [lia|].
  destruct i as [|i].
  - simpl in A; rewrite Z.add_0_r in *; rewrite A; left; reflexivity.
  - assert (I : In {| from := pos + 1 + Z.of_nat i;
                      to := pos + 1 + Z.of_nat i + L |}
                  (sc_scan c true tl (pos + 1) O)).
    { apply IH; [lia | lia |].
      simpl in A. replace (pos + 1 + Z.of_nat i) with (pos + Z.of_nat (S i))
        by lia. exact A. }
    replace (pos + Z.of_nat (S i)) with (pos + 1 + Z.of_nat i) by lia.
    destruct (sc_accepts c (x :: tl) pos); [right|]; exact I.
Qed.

Lemma sc_scan_ascending (l : str) : forall pos : Z,
  StronglySorted (fun a b : SearchResult => from a < from b)
    (sc_scan c true l pos O).
Proof.
  induction l as [|x tl IH]; intros pos; simpl; [constructor|].
  destruct (sc_to c <? pos + strlen (sc_query c)); [constructor|].
  destruct (sc_accepts c (x :: tl) pos); [|apply IH].
  constructor; [apply IH|].
  apply Forall_forall; intros m I.
  destruct (sc_scan_sound _ _ _ _ _ I) as (i & _ & F & _); simpl; lia.
Qed.

Hypothesis query_nonempty : sc_query c <> [].

Lemma query_length_pos : 0 < L.
Proof.
  subst L; unfold strlen; destruct (sc_query c); [contradiction|simpl; lia].
Qed.

Lemma sc_scan_chained (l : str) : forall (pos : Z) (skip : nat),
  chained (pos + Z.of_nat skip) (sc_scan c false l pos skip).
Proof.
  pose proof query_length_pos as P.
  induction l as [|x tl IH]; intros pos skip; simpl; [exact I|].
  fold L; destruct (sc_to c <? pos + L); [exact I|].
  destruct skip as [|k].
  - destruct (sc_accepts c (x :: tl) pos).
    + simpl; split; [lia|].
      replace (pos + L)
        with (pos + 1 + Z.of_nat (Nat.pred (List.length (sc_query c))))
        by (subst L; unfold strlen in *; lia).
      apply IH.
    + replace (pos + Z.of_nat 0) with (pos + 1 + Z.of_nat 0 - 1) by lia.
      specialize (IH (pos + 1) O).
      destruct (sc_scan c false tl (pos + 1) 0); simpl in *; [exact I|].
      split; [lia | tauto].
  - replace (pos + Z.of_nat (S k)) with (pos + 1 + Z.of_nat k) by lia.
    apply IH.
Qed.

Lemma sc_scan_covers (l : str) : forall (pos : Z) (skip i : nat),
  (skip <= i < List.length l)%nat -> pos + Z.of_nat i + L <= sc_to c ->
  sc_accepts c (skipn i l) (pos + Z.of_nat i) = true ->
  exists m, In m (sc_scan c false l pos skip)
            /\ from m <= pos + Z.of_nat i < to m.
Proof.
  pose proof query_length_pos as P.
  induction l as [|x tl IH]; intros pos skip i B T A; simpl in B; [lia|].
  simpl; fold L.
  destruct (Z.ltb_spec (sc_to c) (pos + L)) as [G|G]; [lia|].
  assert (Shift : forall k j, (k <= j)%nat -> i = S j ->
            exists m, In m (sc_scan c false tl (pos + 1) k)
                      /\ from m <= pos + Z.of_nat i < to m).
  { intros k j K ->.
    replace (pos + Z.of_nat (S j)) with (pos + 1 + Z.of_nat j) in * by lia.
    apply IH; [lia | lia | exact A]. }
  destruct skip as [|k].
  - destruct (sc_accepts c (x :: tl) pos) eqn:A0.
    + destruct (Z.ltb_spec (Z.of_nat i) L) as [S|S].
      * eexists; split; [left; reflexivity | simpl; lia].
      * destruct i as [|j]; [lia|].
        destruct (Shift (Nat.pred (List.length (sc_query c))) j)
          as (m & I & R); [subst L; unfold strlen in *; lia | reflexivity|].
        exists m; split; [right; exact I | exact R].
    + destruct i as [|j];
        [simpl in A; rewrite Z.add_0_r in A; congruence|].
      apply (Shift O j); [lia | reflexivity].
  - destruct i as [|j]; [lia|].
    apply (Shift k j); [lia | reflexivity].
Qed.

End Scan.

Lemma chained_after (ms : list SearchResult) : forall lo m,
  chained lo ms -> Forall (fun m => from m < to m) ms -> In m ms ->
  lo <= from m.
Proof.
  induction ms as [|a ms IH]; intros lo m C F I; [contradiction|].
  destruct C as [C1 C2]; inversion F; subst.
  destruct I as [<-|I]; [exact C1|].
  specialize (IH _ _ C2 H2 I); lia.
Qed.

Lemma chained_sorted (ms : list SearchResult) : forall lo,
  chained lo ms -> Forall (fun m => from m < to m) ms ->
  StronglySorted
    (fun x y : SearchResult => from x < from y /\ to x <= from y) ms.
Proof.
  induction ms as [|a ms IH]; intros lo C F; constructor;
    destruct C as [C1 C2]; inversion F; subst.
  - apply (IH _ C2 H2).
  - apply Forall_forall; intros m I.
    pose proof (chained_after ms _ _ C2 H2 I); lia.
Qed.

Lemma sorted_pair {A : Type} (R : A -> A -> Prop) (l : list A) (x y : A) :
  StronglySorted R l -> In x l -> In y l -> x = y \/ R x y \/ R y x.
Proof.
  induction 1 as [|a l S IH F]; intros X Y; [contradiction|].
  rewrite Forall_forall in F.
  destruct X as [->|X], Y as [->|Y]; auto.
Qed.

Lemma sorted_first {A : Type} (R : A -> A -> Prop) (l : list A) (a x : A) :
  StronglySorted R l -> hd_error l = Some a -> In x l -> x = a \/ R a x.
Proof.
  intros S E I; destruct l as [|b l]; [discriminate|].
  inversion E; subst; inversion S; subst.
  destruct I as [->|I]; [left; reflexivity|].
  right; eapply Forall_forall; eauto.
Qed.

Lemma sorted_last {A : Type} (R : A -> A -> Prop) (l : list A) : forall a x,
  StronglySorted R l -> last_value l = Some a -> In x l -> x = a \/ R x a.
Proof.
  induction l as [|b l IH]; intros a x S E I; [contradiction|].
  inversion S; subst. rewrite last_value_cons in E.
  destruct (last_value l) as [y|] eqn:Y.
  - inversion E; subst.
    destruct I as [->|I]; [|apply (IH a x); auto].
    right; eapply Forall_forall; [exact H2 | apply last_value_in; exact Y].
  - apply last_value_nil_iff in Y; subst; inversion E; subst.
    destruct I as [->|[]]; left; reflexivity.
Qed.

(** ** Cursor values and occurrences *)

Lemma starts_with_slice (norm : ascii -> ascii) (q : str) : forall l : str,
  starts_with norm (map norm q) l = true
  <-> (List.length q <= List.length l)%nat
      /\ map norm (firstn (List.length q) l) = map norm q.
Proof.
  induction q as [|a q IH]; intros l; simpl.
  - split; [split; [lia | reflexivity] | reflexivity].
  - destruct l as [|x l]; simpl.
    + split; [discriminate | intros [B _]; lia].
    + rewrite andb_true_iff, Ascii.eqb_eq, IH.
      split.
      * intros (E & B & M); split; [lia | congruence].
      * intros (B & M); inversion M; repeat split; auto; lia.
Qed.

Lemma unquoted_nonempty (spec : SearchQuery) :
  nonempty (search spec) = true -> unquoted spec <> [].
Proof.
  unfold unquoted, unquote; destruct (search spec) as [|c tl];
    [discriminate|intros _].
  destruct (literal spec); [discriminate|].
  simpl; destruct (Ascii.eqb c backslash); [|discriminate].
  destruct tl as [|ch rest]; [discriminate|].
  destruct (is_escape_letter ch); discriminate.
Qed.

Lemma pattern_length_pos (spec : SearchQuery) :
  unquoted spec <> [] -> 0 < pattern_length spec.
Proof.
  unfold pattern_length, strlen; destruct (unquoted spec);
    [contradiction | simpl; lia].
Qed.

Lemma sc_values_scan (overlapping : bool) (c : SearchCursor) :
  sc_query c <> [] ->
  sc_values overlapping c
  = sc_scan c overlapping (skipn (Z.to_nat (sc_from c)) (sc_text c))
      (sc_from c) O.
Proof.
  unfold sc_values; destruct (sc_query c); [contradiction|reflexivity].
Qed.

Section StringCursorFacts.
Variables (spec : SearchQuery) (state : EditorState) (a b : Z).

Let c : SearchCursor := result (stringCursor spec state a b).

Lemma stringCursor_query_length : strlen (sc_query c) = pattern_length spec.
Proof. subst c; simpl; apply strlen_map. Qed.

Lemma stringCursor_query_nonempty :
  unquoted spec <> [] -> sc_query c <> [].
Proof.
  subst c; simpl; destruct (unquoted spec); [contradiction|discriminate].
Qed.

Lemma stringCursor_test (o : Z) :
  0 <= a -> a <= o -> o + pattern_length spec <= b ->
  o + pattern_length spec <= doc_length state -> unquoted spec <> [] ->
  match sc_test c with
  | Some test =>
      test o (o + strlen (sc_query c)) (sc_buffer c) (sc_bufferStart c)
  | None => true
  end = word_ok_in spec state a b o (o + pattern_length spec).
Proof.
  intros A O B D N; pose proof (pattern_length_pos spec N) as P.
  rewrite stringCursor_query_length; subst c.
  unfold word_ok_in, sc_buffer, sc_bufferStart; simpl.
  destruct (wholeWord spec); [|reflexivity].
  rewrite stringWordTest_range; try lia; [|reflexivity | exact D].
  unfold boundary_in.
  destruct (Z.eqb_spec o b); [lia|].
  destruct (Z.eqb_spec (o + pattern_length spec) a); [lia|].
  rewrite !orb_false_r; reflexivity.
Qed.

Lemma stringCursor_accepts (o : Z) :
  0 <= a -> a <= o -> o + pattern_length spec <= b -> unquoted spec <> [] ->
  sc_accepts c (skipn (Z.to_nat o) (doc state)) o = true
  <-> occurs_within spec state a b
        {| from := o; to := o + pattern_length spec |}.
Proof.
  intros A O B N; pose proof (pattern_length_pos spec N) as P.
  unfold sc_accepts, occurs_within; cbn [from to].
  rewrite andb_true_iff.
  assert (Q : sc_query c = map (normalizer spec) (unquoted spec)
              /\ sc_normalize c = normalizer spec).
  { subst c; unfold normalizer; simpl.
    destruct (caseSensitive spec); split; reflexivity. }
  destruct Q as [Q1 Q2]. rewrite Q2, Q1 at 1. rewrite starts_with_slice.
  unfold sliceString.
  replace (Z.to_nat (o + pattern_length spec - o))
    with (List.length (unquoted spec))
    by (unfold pattern_length, strlen; lia).
  rewrite length_skipn.
  split.
  - intros ((L & M) & W).
    assert (D : o + pattern_length spec <= doc_length state)
      by (unfold doc_length, pattern_length, strlen in *; lia).
    rewrite (stringCursor_test o A O B D N) in W.
    repeat split; auto; lia.
  - intros (_ & _ & _ & _ & D & M & W).
    rewrite (stringCursor_test o A O B D N).
    repeat split; auto.
    unfold doc_length, pattern_length, strlen in *; lia.
Qed.

Hypothesis from_nonneg : 0 <= a.
Hypothesis pattern_nonempty : unquoted spec <> [].

Lemma scan_occurs_within (overlapping : bool) (m : SearchResult) :
  In m (sc_values overlapping c) -> occurs_within spec state a b m.
Proof.
  pose proof (stringCursor_query_nonempty pattern_nonempty) as N.
  rewrite (sc_values_scan _ _ N).
  assert (TO : sc_to c = b /\ sc_from c = a /\ sc_text c = doc state)
    by (subst c; repeat split; reflexivity).
  destruct TO as (TO & FROM & TEXT).
  rewrite FROM, TEXT.
  intros I; apply sc_scan_sound in I as (i & B & F & T & T' & A).
  rewrite skipn_skipn, stringCursor_query_length, TO in *.
  replace (i + Z.to_nat a)%nat with (Z.to_nat (from m)) in A by lia.
  apply stringCursor_accepts in A; [|lia|lia|lia|auto].
  destruct m as [f t]; cbn [from to] in *; subst t; exact A.
Qed.

Lemma nextOverlapping_occurrences (m : SearchResult) :
  In m (SearchCursor_nextOverlapping c) <-> occurs_within spec state a b m.
Proof.
  split; [apply scan_occurs_within|].
  pose proof (stringCursor_query_nonempty pattern_nonempty) as N.
  pose proof (pattern_length_pos spec pattern_nonempty) as P.
  unfold SearchCursor_nextOverlapping; rewrite (sc_values_scan _ _ N).
  assert (TO : sc_to c = b /\ sc_from c = a /\ sc_text c = doc state)
    by (subst c; repeat split; reflexivity).
  destruct TO as (TO & FROM & TEXT).
  rewrite FROM, TEXT.
  intros O; pose proof O as (A & B & T & O1 & O2 & _).
  destruct m as [f t]; cbn [from to] in *; subst t.
  apply stringCursor_accepts in O; [|lia|lia|lia|auto].
  rewrite <- stringCursor_query_length.
  replace f with (a + Z.of_nat (Z.to_nat (f - a))) at 1 2 by lia.
  apply sc_scan_all.
  - rewrite length_skipn; unfold doc_length, strlen in *; lia.
  - rewrite stringCursor_query_length, TO; lia.
  - rewrite skipn_skipn.
    replace (Z.to_nat (f - a) + Z.to_nat a)%nat with (Z.to_nat f) by lia.
    replace (a + Z.of_nat (Z.to_nat (f - a))) with f by lia.
    exact O.
Qed.

Lemma nextOverlapping_ascending :
  StronglySorted (fun x y : SearchResult => from x < from y)
    (SearchCursor_nextOverlapping c).
Proof.
  unfold SearchCursor_nextOverlapping, sc_values.
  destruct (sc_query c); [constructor | apply sc_scan_ascending].
Qed.

Lemma nextOverlapping_first :
  first_within spec state a b (hd_error (SearchCursor_nextOverlapping c)).
Proof.
  pose proof nextOverlapping_ascending as S.
  destruct (hd_error (SearchCursor_nextOverlapping c)) as [m|] eqn:E; simpl.
  - split.
    + apply nextOverlapping_occurrences.
      destruct (SearchCursor_nextOverlapping c); inversion E; left; auto.
    + intros m' O; apply nextOverlapping_occurrences in O.
      destruct (sorted_first _ _ _ _ S E O) as [->|R]; lia.
  - intros m' O; apply nextOverlapping_occurrences in O.
    destruct (SearchCursor_nextOverlapping c); [contradiction|discriminate].
Qed.

Lemma nextOverlapping_last :
  last_within spec state a b (last_value (SearchCursor_nextOverlapping c)).
Proof.
  pose proof nextOverlapping_ascending as S.
  destruct (last_value (SearchCursor_nextOverlapping c)) as [m|] eqn:E; simpl.
  - split.
    + apply nextOverlapping_occurrences, last_value_in, E.
    + intros m' O; apply nextOverlapping_occurrences in O.
      destruct (sorted_last _ _ _ _ S E O) as [->|R]; lia.
  - intros m' O; apply nextOverlapping_occurrences in O.
    apply last_value_nil_iff in E; rewrite E in O; contradiction.
Qed.

Lemma next_occurrences (m : SearchResult) :
  In m (SearchCursor_next c) -> occurs_within spec state a b m.
Proof. apply scan_occurs_within. Qed.

Lemma next_chained : chained a (SearchCursor_next c).
Proof.
  pose proof (stringCursor_query_nonempty pattern_nonempty) as N.
  unfold SearchCursor_next; rewrite (sc_values_scan _ _ N).
  replace a with (sc_from c + Z.of_nat 0) at 1
    by (subst c; simpl; lia).
  apply sc_scan_chained; exact N.
Qed.

Lemma next_covers (m : SearchResult) :
  occurs_within spec state a b m ->
  exists m', In m' (SearchCursor_next c) /\ from m' <= from m < to m'.
Proof.
  pose proof (stringCursor_query_nonempty pattern_nonempty) as N.
  pose proof (pattern_length_pos spec pattern_nonempty) as P.
  unfold SearchCursor_next; rewrite (sc_values_scan _ _ N).
  assert (TO : sc_to c = b /\ sc_from c = a /\ sc_text c = doc state)
    by (subst c; repeat split; reflexivity).
  destruct TO as (TO & FROM & TEXT).
  rewrite FROM, TEXT.
  intros O; pose proof O as (A & B & T & O1 & O2 & _).
  destruct m as [f t]; cbn [from to] in *; subst t.
  apply stringCursor_accepts in O; [|lia|lia|lia|auto].
  replace f with (a + Z.of_nat (Z.to_nat (f - a))) by lia.
  apply sc_scan_covers; auto.
  - rewrite length_skipn; unfold doc_length, strlen in *; lia.
  - rewrite stringCursor_query_length, TO; lia.
  - rewrite skipn_skipn.
    replace (Z.to_nat (f - a) + Z.to_nat a)%nat
      with (Z.to_nat f) by lia.
    replace (a + Z.of_nat (Z.to_nat (f - a))) with f by lia.
    exact O.
Qed.

End StringCursorFacts.

(** ** Matches of a scan and occurrences in the document *)

Lemma boundary_in_document (state : EditorState) (lo hi p : Z) :
  boundary_in state 0 (doc_length state) p = true ->
  boundary_in state lo hi p = true.
Proof.
  assert (E : notWord (charCategorizer state (selection_head state)) []
              = true) by reflexivity.
  unfold boundary_in, doc_length.
  destruct (Z.eqb_spec p 0) as [->|_].
  - intros _; rewrite charBefore_start, E, orb_true_r; reflexivity.
  - destruct (Z.eqb_spec p (strlen (doc state))) as [->|_].
    + intros _; rewrite charAfter_end, E, orb_true_r; reflexivity.
    + cbn [orb]; intros K.
      destruct ((p =? lo) || (p =? hi)); [reflexivity | exact K].
Qed.


Lemma word_ok_whole (spec : SearchQuery) (state : EditorState) (f t : Z) :
  0 <= f -> f < t -> t <= doc_length state ->
  word_ok spec state f t = word_ok_in spec state 0 (doc_length state) f t.
Proof.
  intros F T L; unfold word_ok, word_ok_in.
  destruct (wholeWord spec); [|reflexivity].
  rewrite <- (sliceString_whole (doc state)) at 2.
  fold (doc_length state).
  rewrite stringWordTest_range; try lia; [|reflexivity | exact L].
  unfold boundary_in.
  destruct (Z.eqb_spec f (doc_length state)); [lia|].
  destruct (Z.eqb_spec t 0); [lia|].
  rewrite !orb_false_r; reflexivity.
Qed.

Lemma occurs_within_whole (spec : SearchQuery) (state : EditorState)
    (m : SearchResult) :
  unquoted spec <> [] ->
  occurs_within spec state 0 (doc_length state) m
  <-> occurs_in spec state 0 (doc_length state) m.
Proof.
  intros N; pose proof (pattern_length_pos spec N) as P.
  unfold occurs_within, occurs_in, occurs; split.
  - intros (A & B & T & F & L & M & W).
    rewrite <- T, word_ok_whole by lia; repeat split; auto; lia.
  - intros (A & B & T & F & L & M & W).
    rewrite <- T in *; rewrite word_ok_whole in W by lia.
    repeat split; auto; lia.
Qed.

Lemma occurs_in_within (spec : SearchQuery) (state : EditorState)
    (lo hi : Z) (m : SearchResult) :
  unquoted spec <> [] ->
  occurs_in spec state lo hi m -> occurs_within spec state lo hi m.
Proof.
  intros N; pose proof (pattern_length_pos spec N) as P.
  unfold occurs_within, occurs_in, occurs.
  intros (A & B & T & F & L & M & W).
  rewrite <- T in *; rewrite word_ok_whole in W by lia.
  repeat split; auto; try lia.
  unfold word_ok_in in *; destruct (wholeWord spec); [|reflexivity].
  apply andb_true_iff in W as [W1 W2].
  rewrite !boundary_in_document; auto.
Qed.


Lemma occurs_within_plain (spec : SearchQuery) (state : EditorState)
    (lo hi : Z) (m : SearchResult) :
  wholeWord spec = false ->
  occurs_within spec state lo hi m <-> occurs_in spec state lo hi m.
Proof.
  intros W; unfold occurs_within, occurs_in, occurs, word_ok_in, word_ok.
  rewrite W; split.
  - intros (A & B & T & F & L & M & _).
    rewrite <- T; repeat split; auto; lia.
  - intros (A & B & T & F & L & M & _).
    rewrite <- T in *; repeat split; auto; lia.
Qed.

(** ** All matches of a literal query *)

(** C2, as it stands, fails: in the document [aaaa] the search string [aa]
    occurs at the offsets 0, 1 and 2, and [matchAll] returns the matches at
    0 and 2 only, the occurrence at 1 overlapping the match at 0. *)
Lemma matchAll_leaves_out_overlapping_occurrence :
  exists ms,
    result (StringQuery.matchAll (plainQuery "aa") (plainState (js "aaaa")) 10)
    = Some ms
    /\ ~ (forall o : Z,
            In o (map from ms)
            <-> sliceString (js "aaaa") o
                  (o + strlen (unquoted (plainQuery "aa")))
                = unquoted (plainQuery "aa")).
Proof.
  eexists; split; [reflexivity|].
  intros E; destruct (E 1) as [_ E1].
  destruct (E1 eq_refl) as [K|[K|[]]]; discriminate.
Qed.

(** C2, amended.  For a literal query with a search string that is not empty
    and a limit not less than the number of matches, [matchAll] returns the
    occurrences of the search string met from left to right when each
    search resumes at the end of the match before: the matches are in
    ascending order and do not overlap, and a range is returned exactly
    when it is an occurrence (the slice of the document equals the unquoted
    search string, both normalized as the query's case sensitivity says,
    and the whole-word test holds) that does not start inside a returned
    match. *)
Theorem matchAll_nonoverlapping_occurrences `{RegExpHost}
    (spec : SearchQuery) (state : EditorState) (limit : Z) :
  nonempty (search spec) = true ->
  Z.of_nat (List.length (all_matches (OfString spec) state)) <= limit ->
  exists ms,
    result (StringQuery.matchAll spec state limit) = Some ms
    /\ StronglySorted
         (fun x y : SearchResult => from x < from y /\ to x <= from y) ms
    /\ forall m,
         In m ms
         <-> occurs_in spec state 0 (doc_length state) m
             /\ ~ (exists m', In m' ms /\ from m' < from m < to m').
Proof.
  intros NE LIM. pose proof (unquoted_nonempty spec NE) as N.
  pose proof (pattern_length_pos spec N) as P.
  set (ms := SearchCursor_next
               (result (stringCursor spec state 0 (doc_length state)))).
  assert (LIM' : Z.of_nat (List.length ms) <= limit) by exact LIM.
  assert (Occ : forall m, In m ms ->
                  occurs_in spec state 0 (doc_length state) m).
  { intros m I; apply (occurs_within_whole spec state m N).
    apply next_occurrences; [lia | exact N | exact I]. }
  assert (S : StronglySorted
                (fun x y : SearchResult => from x < from y /\ to x <= from y)
                ms).
  { apply (chained_sorted ms 0); [apply next_chained; exact N|].
    apply Forall_forall; intros m I.
    destruct (Occ m I) as (_ & _ & T & _); lia. }
  exists ms; split; [|split; [exact S|]].
  - change (result (StringQuery.matchAll spec state limit))
      with (collect ms [] limit).
    rewrite collect_limit by (simpl; lia).
    cbn [List.length Nat.add app].
    destruct (Z.ltb_spec limit (Z.of_nat (List.length ms))); [lia|reflexivity].
  - intros m; split.
    + intros I; split; [apply Occ, I|].
      intros (m' & I' & B).
      destruct (Occ m I) as (_ & _ & T & _).
      destruct (sorted_pair _ _ _ _ S I I') as [->|[R|R]]; lia.
    + intros (O & NI).
      destruct (next_covers spec state 0 (doc_length state) (Z.le_refl 0)
                  N m (proj2 (occurs_within_whole spec state m N) O))
        as (m' & I' & B).
      fold ms in I'.
      destruct (Z.eq_dec (from m') (from m)) as [E|NE'];
        [|exfalso; apply NI; exists m'; split; [exact I' | lia]].
      destruct (Occ m' I') as (_ & _ & T' & _), O as (_ & _ & T & _).
      destruct m as [f t], m' as [f' t']; simpl in *.
      replace t with t' by lia; subst f'; exact I'.
Qed.

(** ** Next match *)







(** ** Previous match: the rounds of the loops *)

Lemma rounds_enough (a b : Z) : b - a < Z.of_nat (rounds a b) * ChunkSize.
Proof.
  unfold rounds, ChunkSize.
  pose proof (Z.div_mod (b - a) 10000 ltac:(lia)).
  pose proof (Z.mod_pos_bound (b - a) 10000 ltac:(lia)).
  lia.
Qed.

Section RegExpRounds.
Context `{RegExpHost}.
Variables (spec : SearchQuery) (state : EditorState) (a b : Z).

(** The last match of the scan of the chunk of size [i]. *)
Let chunk_last (i : Z) : option RegExpResult :=
  last_value (regexp_scan spec state (chunk_start a b i) b).

Lemma accepted_iff (start : Z) (range : option RegExpResult) :
  RegExpQuery.accepted a start range = true
  <-> exists m, range = Some m /\ (start = a \/ start + 10 < from m).
Proof.
  unfold RegExpQuery.accepted; destruct range as [m|].
  - rewrite orb_true_iff, Z.eqb_eq, Z.ltb_lt; split.
    + intros K; exists m; auto.
    + intros (m' & E & K); inversion E; subst; exact K.
  - split; [discriminate | intros (m & E & _); discriminate].
Qed.

Lemma RegExpQuery_prevMatchLoop_rounds (n : nat) : forall j : Z,
  (0 < n)%nat -> 1 <= j -> b - a < (j - 1 + Z.of_nat n) * ChunkSize ->
  exists (r : option RegExpResult) (k : nat),
    RegExpQuery.prevMatchLoop n spec state a b j
    = Some (r, regexp_chunks a b j k)
    /\ (1 <= k <= n)%nat
    /\ (forall i, j <= i < j + Z.of_nat k - 1 ->
          chunk_start a b i <> a
          /\ RegExpQuery.accepted a (chunk_start a b i) (chunk_last i)
             = false)
    /\ r = (if RegExpQuery.accepted a (chunk_start a b (j + Z.of_nat k - 1))
                 (chunk_last (j + Z.of_nat k - 1))
            then chunk_last (j + Z.of_nat k - 1) else None)
    /\ (RegExpQuery.accepted a (chunk_start a b (j + Z.of_nat k - 1))
          (chunk_last (j + Z.of_nat k - 1)) = false ->
        chunk_start a b (j + Z.of_nat k - 1) = a).
Proof.
  induction n as [|n IH]; intros j N J F; [lia|].
  cbn [RegExpQuery.prevMatchLoop].
  change (Z.max a (b - j * ChunkSize)) with (chunk_start a b j).
  change (last_value (RegExpCursor_next
            (result (regexpCursor spec state (chunk_start a b j) b))))
    with (chunk_last j).
  change (trace (regexpCursor spec state (chunk_start a b j) b))
    with [NewRegExpCursor (chunk_start a b j) b].
  destruct (RegExpQuery.accepted a (chunk_start a b j) (chunk_last j)) eqn:A.
  - exists (chunk_last j), 1%nat.
    replace (j + Z.of_nat 1 - 1) with j by lia; rewrite A.
    repeat split; try lia; try discriminate; intros; lia.
  - destruct (Z.eqb_spec (chunk_start a b j) a) as [E|NE].
    + exists None, 1%nat.
      replace (j + Z.of_nat 1 - 1) with j by lia; rewrite A.
      repeat split; try lia; auto; intros; lia.
    + assert (Far : a < b - j * ChunkSize)
        by (unfold chunk_start in NE; lia).
      destruct (IH (j + 1)) as (r & k & L & K & Rej & R & Stop);
        [unfold ChunkSize in *; lia | lia | unfold ChunkSize in *; lia|].
      exists r, (S k); rewrite L.
      replace (j + Z.of_nat (S k) - 1) with (j + 1 + Z.of_nat k - 1) by lia.
      repeat split; try lia; auto.
      * destruct (Z.eq_dec i j) as [->|]; [exact NE | apply Rej; lia].
      * destruct (Z.eq_dec i j) as [->|]; [exact A | apply Rej; lia].
Qed.

Lemma RegExpQuery_prevMatchInRange_rounds :
  exists k : nat,
    (1 <= k <= rounds a b)%nat
    /\ trace (RegExpQuery.prevMatchInRange spec state a b)
       = regexp_chunks a b 1 k
    /\ (forall i, 1 <= i < Z.of_nat k ->
          chunk_start a b i <> a
          /\ RegExpQuery.accepted a (chunk_start a b i) (chunk_last i)
             = false)
    /\ result (RegExpQuery.prevMatchInRange spec state a b)
       = (if RegExpQuery.accepted a (chunk_start a b (Z.of_nat k))
               (chunk_last (Z.of_nat k))
          then chunk_last (Z.of_nat k) else None)
    /\ (RegExpQuery.accepted a (chunk_start a b (Z.of_nat k))
          (chunk_last (Z.of_nat k)) = false ->
        chunk_start a b (Z.of_nat k) = a).
Proof.
  destruct (RegExpQuery_prevMatchLoop_rounds (rounds a b) 1)
    as (r & k & L & K & Rej & R & Stop);
    [unfold rounds; lia | lia | pose proof (rounds_enough a b); lia|].
  replace (1 + Z.of_nat k - 1) with (Z.of_nat k) in * by lia.
  exists k; unfold RegExpQuery.prevMatchInRange; rewrite L.
  repeat split; auto; try lia; apply Rej; lia.
Qed.

End RegExpRounds.

Section StringRounds.
Variables (spec : SearchQuery) (state : EditorState) (a : Z).

Let len : Z := strlen (unquoted spec).

(** The window scanned from [pos] down, and its last match. *)
Let window_from (pos : Z) : Z := Z.max a (pos - ChunkSize - len).

Let window_last (pos : Z) : option SearchResult :=
  last_value (string_scan spec state (window_from pos) pos).

Lemma StringQuery_prevMatchLoop_step (n : nat) (pos : Z) :
  StringQuery.prevMatchLoop (S n) spec state a pos
  = match window_last pos with
    | Some r => Some (Some r, [NewSearchCursor (window_from pos) pos])
    | None =>
        if window_from pos =? a
        then Some (None, [NewSearchCursor (window_from pos) pos])
        else match StringQuery.prevMatchLoop n spec state a
                     (pos - ChunkSize) with
             | Some m =>
                 Some (result m,
                       NewSearchCursor (window_from pos) pos :: trace m)
             | None => None
             end
    end.
Proof. reflexivity. Qed.

Lemma StringQuery_prevMatchLoop_rounds (n : nat) : forall pos : Z,
  (0 < n)%nat -> pos - a < Z.of_nat n * ChunkSize ->
  exists (r : option SearchResult) (k : nat),
    StringQuery.prevMatchLoop n spec state a pos
    = Some (r, string_chunks a pos len k)
    /\ (1 <= k <= n)%nat
    /\ (forall j, 1 <= j < Z.of_nat k ->
          a < window_from (pos - (j - 1) * ChunkSize)
          /\ window_last (pos - (j - 1) * ChunkSize) = None)
    /\ r = window_last (pos - (Z.of_nat k - 1) * ChunkSize)
    /\ (r = None -> window_from (pos - (Z.of_nat k - 1) * ChunkSize) = a).
Proof.
  induction n as [|n IH]; intros pos N F; [lia|].
  rewrite StringQuery_prevMatchLoop_step.
  destruct (window_last pos) as [m|] eqn:WL.
  - exists (Some m), 1%nat.
    replace (pos - (Z.of_nat 1 - 1) * ChunkSize) with pos by lia.
    repeat split; try lia; auto; discriminate.
  - destruct (Z.eqb_spec (window_from pos) a) as [E|NE].
    + exists None, 1%nat.
      replace (pos - (Z.of_nat 1 - 1) * ChunkSize) with pos by lia.
      repeat split; try lia; auto.
    + assert (Far : a < window_from pos) by (unfold window_from in *; lia).
      assert (Far' : a < pos - ChunkSize - len)
        by (unfold window_from in *; lia).
      pose proof (strlen_nonneg (unquoted spec)) as LEN; fold len in LEN.
      destruct (IH (pos - ChunkSize)) as (r & k & L & K & Empty & R & Stop);
        [unfold ChunkSize in *; lia | unfold ChunkSize in *; lia|].
      exists r, (S k); rewrite L.
      replace (pos - (Z.of_nat (S k) - 1) * ChunkSize)
        with (pos - ChunkSize - (Z.of_nat k - 1) * ChunkSize) by lia.
      repeat split; try lia; auto.
      * destruct (Z.eq_dec j 1) as [->|J];
          [replace (pos - (1 - 1) * ChunkSize) with pos by lia; exact Far|].
        replace (pos - (j - 1) * ChunkSize)
          with (pos - ChunkSize - (j - 1 - 1) * ChunkSize) by lia.
        apply Empty; lia.
      * destruct (Z.eq_dec j 1) as [->|J];
          [replace (pos - (1 - 1) * ChunkSize) with pos by lia; exact WL|].
        replace (pos - (j - 1) * ChunkSize)
          with (pos - ChunkSize - (j - 1 - 1) * ChunkSize) by lia.
        apply Empty; lia.
Qed.

Hypothesis from_nonneg : 0 <= a.
Hypothesis pattern_nonempty : unquoted spec <> [].

(** No occurrence in the document inside [[a, pos)] starts after the
    answer of the loop. *)
Lemma StringQuery_prevMatchLoop_bound (n : nat) :
  forall (pos : Z) (m : Traced (option SearchResult)) (m' : SearchResult),
  StringQuery.prevMatchLoop n spec state a pos = Some m ->
  occurs_in spec state a pos m' ->
  exists r, result m = Some r /\ from m' <= from r.
Proof.
  pose proof (pattern_length_pos spec pattern_nonempty) as P.
  induction n as [|n IH]; intros pos m m'; [discriminate|].
  rewrite StringQuery_prevMatchLoop_step.
  assert (W : last_within spec state (window_from pos) pos (window_last pos))
    by (apply nextOverlapping_last; [unfold window_from; lia | auto]).
  assert (In_window : occurs_in spec state a pos m' ->
            window_from pos <= from m' ->
            occurs_within spec state (window_from pos) pos m').
  { intros (O1 & O2 & O3 & O4) G.
    apply occurs_in_within; [exact pattern_nonempty|].
    unfold occurs_in; auto. }
  destruct (window_last pos) as [r|].
  - intros [= <-] O; cbn [result fst last_within] in *.
    exists r; split; [reflexivity|].
    destruct W as [Or Max].
    destruct (Z.le_gt_cases (window_from pos) (from m')) as [G|G].
    + apply Max, In_window; auto.
    + destruct Or as (A & _); lia.
  - cbn [last_within] in W.
    destruct (Z.eqb_spec (window_from pos) a) as [E|NE].
    + intros _ O; exfalso; apply (W m'), In_window; auto.
      destruct O as (O1 & _); lia.
    + assert (Far : window_from pos = pos - ChunkSize - len)
        by (unfold window_from in *; lia).
      destruct (StringQuery.prevMatchLoop n spec state a (pos - ChunkSize))
        as [m0|] eqn:L; [|discriminate].
      intros [= <-] O; cbn [result fst].
      apply (IH _ _ _ L).
      destruct (Z.le_gt_cases (window_from pos) (from m')) as [G|G];
        [exfalso; apply (W m'), In_window; auto|].
      destruct O as (O1 & O2 & O3 & O4).
      split; [exact O1 | split; [|split; [exact O3 | exact O4]]].
      unfold pattern_length in O3; fold len in O3; lia.
Qed.

End StringRounds.

Lemma window_end_first (b : Z) : window_end b 1 = b.
Proof. unfold window_end; lia. Qed.

Lemma StringQuery_prevMatchInRange_rounds (spec : SearchQuery)
    (state : EditorState) (a b : Z) :
  exists k : nat,
    (1 <= k <= rounds a b)%nat
    /\ trace (StringQuery.prevMatchInRange spec state a b)
       = string_chunks a b (strlen (unquoted spec)) k
    /\ (forall j, 1 <= j < Z.of_nat k ->
          a < window_start spec a b j
          /\ string_scan spec state (window_start spec a b j)
               (window_end b j) = [])
    /\ result (StringQuery.prevMatchInRange spec state a b)
       = last_value
           (string_scan spec state (window_start spec a b (Z.of_nat k))
              (window_end b (Z.of_nat k)))
    /\ (result (StringQuery.prevMatchInRange spec state a b) = None ->
        window_start spec a b (Z.of_nat k) = a).
Proof.
  destruct (StringQuery_prevMatchLoop_rounds spec state a (rounds a b) b)
    as (r & k & L & K & Empty & R & Stop);
    [unfold rounds; lia | apply rounds_enough|].
  exists k; unfold StringQuery.prevMatchInRange; rewrite L.
  cbn [result trace fst snd].
  split; [exact K | split; [reflexivity | split]];
    [|split; [exact R | exact Stop]].
  intros j J; destruct (Empty j J) as [Far None]; split; [exact Far|].
  apply last_value_nil_iff; exact None.
Qed.

Lemma StringQuery_prevMatchInRange_answer (spec : SearchQuery)
    (state : EditorState) (a b : Z) :
  0 <= a -> unquoted spec <> [] ->
  window_answer spec state a b
    (result (StringQuery.prevMatchInRange spec state a b))
  /\ (b - a <= ChunkSize ->
      last_within spec state a b
        (result (StringQuery.prevMatchInRange spec state a b))).
Proof.
  intros A N.
  destruct (StringQuery_prevMatchInRange_rounds spec state a b)
    as (k & K & _ & Empty & R & Stop).
  assert (Last : forall j,
            last_within spec state (window_start spec a b j) (window_end b j)
              (last_value
                 (string_scan spec state (window_start spec a b j)
                    (window_end b j))))
    by (intros j; apply nextOverlapping_last;
          [unfold window_start; lia | exact N]).
  split.
  - exists (Z.of_nat k); split; [lia | split; [|split; [|exact Stop]]].
    + intros j J; destruct (Empty j J) as [Far E]; split; [exact Far|].
      specialize (Last j); rewrite E in Last; exact Last.
    + rewrite R; apply Last.
  - intros Small.
    pose proof (strlen_nonneg (unquoted spec)) as LEN.
    assert (K1 : k = 1%nat).
    { destruct (Nat.eq_dec k 1) as [E|NE]; [exact E|].
      destruct (Empty 1) as [Far _]; [lia|].
      unfold window_start, window_end, pattern_length, ChunkSize in *; lia. }
    subst k; rewrite R.
    replace a with (window_start spec a b 1) at 1
      by (unfold window_start, window_end, pattern_length, ChunkSize in *;
          lia).
    rewrite <- (window_end_first b) at 2.
    apply Last.
Qed.

Lemma StringQuery_prevMatchInRange_bound (spec : SearchQuery)
    (state : EditorState) (a b : Z) (m' : SearchResult) :
  0 <= a -> unquoted spec <> [] ->
  occurs_in spec state a b m' ->
  exists m,
    result (StringQuery.prevMatchInRange spec state a b) = Some m
    /\ from m' <= from m.
Proof.
  intros A N O.
  destruct (StringQuery_prevMatchLoop_rounds spec state a (rounds a b) b)
    as (r & k & L & _); [unfold rounds; lia | apply rounds_enough|].
  unfold StringQuery.prevMatchInRange; rewrite L.
  apply (StringQuery_prevMatchLoop_bound spec state a A N _ _ _ m' L O).
Qed.

Lemma window_answer_inside (spec : SearchQuery) (state : EditorState)
    (a b : Z) (m : SearchResult) :
  window_answer spec state a b (Some m) ->
  exists lo hi,
    a <= lo /\ hi <= b /\ occurs_within spec state lo hi m.
Proof.
  intros (k & K & _ & [O _] & _).
  exists (window_start spec a b k), (window_end b k).
  split; [unfold window_start; lia | split; [|exact O]].
  unfold window_end, ChunkSize; lia.
Qed.

Lemma StringQuery_prevMatchInRange_last (spec : SearchQuery)
    (state : EditorState) (a b : Z) :
  0 <= a -> unquoted spec <> [] -> wholeWord spec = false ->
  last_occurrence spec state a b
    (result (StringQuery.prevMatchInRange spec state a b)).
Proof.
  intros A N W.
  destruct (StringQuery_prevMatchInRange_answer spec state a b A N)
    as [Ans _].
  pose proof (fun m' => StringQuery_prevMatchInRange_bound spec state a b m'
                          A N) as Bound.
  destruct (result (StringQuery.prevMatchInRange spec state a b)) as [m|];
    cbn [last_occurrence].
  - split.
    + destruct (window_answer_inside _ _ _ _ _ Ans) as (lo & hi & L & H & O).
      apply (occurs_within_plain spec state lo hi m W) in O.
      destruct O as (O1 & O2 & O3 & O4); unfold occurs_in.
      split; [lia | split; [lia | auto]].
    + intros m' O; destruct (Bound m' O) as (r & [= <-] & B); exact B.
  - intros m' O; destruct (Bound m' O) as (r & E & _); discriminate.
Qed.

(** ** Previous match *)

(** C4, as it stands, fails.  For regular expression queries: in
    [runDoc], a b, 19998 letters a and a b, the scan of [[0, 20000)] for
    [aa] ends with the match at 19997, where the slice of the document is
    [aa]; [prevMatch] from 20000 scans the chunk [[10000, 20000)] only and
    returns its last match, which starts at 19996.  For literal whole-word
    queries: in [edgeDoc] the word [xcat] stands at offset 6, and a scan
    of [[0, 10010)] for the whole word [cat] has no match; [prevMatch]
    from 10010 scans the window [[7, 10010)], where [cat] stands at the
    start of the window, and returns [[7, 10)]. *)
Lemma RegExpQuery_prevMatch_not_the_last_match :
  option_map (fun r : RegExpResult => (from r, to r))
    (result (@RegExpQuery.prevMatch literalHost (regexpQuery "aa")
               (plainState runDoc) 20000 20000))
  = Some (19996, 19998)
  /\ option_map (fun r : RegExpResult => (from r, to r))
       (last_value (@regexp_scan literalHost (regexpQuery "aa")
                      (plainState runDoc) 0 20000))
     = Some (19997, 19999)
  /\ sliceString runDoc 19997 19999 = js "aa"
  /\ result (StringQuery.prevMatch (wordQuery "cat") (plainState edgeDoc)
               10010 10010)
     = Some {| from := 7; to := 10 |}
  /\ string_scan (wordQuery "cat") (plainState edgeDoc) 0 10010 = []
  /\ sliceString edgeDoc 6 10 = js "xcat".
Proof. repeat split; vm_compute; reflexivity. Qed.

Lemma last_occurrence_wrap (spec : SearchQuery) (state : EditorState)
    (curFrom curTo : Z) :
  result (StringQuery.prevMatch spec state curFrom curTo)
  = match result (StringQuery.prevMatchInRange spec state 0 curFrom) with
    | Some m => Some m
    | None => result (StringQuery.prevMatchInRange spec state curTo
                        (doc_length state))
    end.
Proof.
  unfold StringQuery.prevMatch, bind, result.
  destruct (StringQuery.prevMatchInRange spec state 0 curFrom) as [[m|] t];
    simpl; [reflexivity|].
  destruct (StringQuery.prevMatchInRange spec state curTo (doc_length state));
    reflexivity.
Qed.

Lemma chunk_answer_wrap `{RegExpHost} (spec : SearchQuery)
    (state : EditorState) (curFrom curTo : Z) :
  result (RegExpQuery.prevMatch spec state curFrom curTo)
  = match result (RegExpQuery.prevMatchInRange spec state 0 curFrom) with
    | Some m => Some m
    | None => result (RegExpQuery.prevMatchInRange spec state curTo
                        (doc_length state))
    end.
Proof.
  unfold RegExpQuery.prevMatch, bind, result.
  destruct (RegExpQuery.prevMatchInRange spec state 0 curFrom) as [[m|] t];
    simpl; [reflexivity|].
  destruct (RegExpQuery.prevMatchInRange spec state curTo (doc_length state));
    reflexivity.
Qed.

Lemma RegExpQuery_prevMatchInRange_chunks `{RegExpHost} (spec : SearchQuery)
    (state : EditorState) (a b : Z) :
  exists k : nat,
    (1 <= k <= rounds a b)%nat
    /\ trace (RegExpQuery.prevMatchInRange spec state a b)
       = regexp_chunks a b 1 k
    /\ (forall j, 1 <= j < Z.of_nat k ->
          a < chunk_start a b j
          /\ match last_value (regexp_scan spec state (chunk_start a b j) b)
             with
             | Some m => from m <= chunk_start a b j + 10
             | None => True
             end)
    /\ result (RegExpQuery.prevMatchInRange spec state a b)
       = last_value
           (regexp_scan spec state (chunk_start a b (Z.of_nat k)) b)
    /\ match result (RegExpQuery.prevMatchInRange spec state a b) with
       | Some m => chunk_start a b (Z.of_nat k) = a
                   \/ chunk_start a b (Z.of_nat k) + 10 < from m
       | None => chunk_start a b (Z.of_nat k) = a
       end.
Proof.
  destruct (RegExpQuery_prevMatchInRange_rounds spec state a b)
    as (k & K & T & Rej & R & Stop).
  exists k; split; [exact K | split; [exact T | split]].
  - intros j J; destruct (Rej j J) as [N A].
    split; [unfold chunk_start in *; lia|].
    destruct (last_value (regexp_scan spec state (chunk_start a b j) b))
      as [m|]; [|exact I].
    unfold RegExpQuery.accepted in A.
    apply orb_false_iff in A as [_ A]; apply Z.ltb_ge in A; exact A.
  - rewrite R; clear R.
    destruct (RegExpQuery.accepted a (chunk_start a b (Z.of_nat k)) _) eqn:A.
    + apply accepted_iff in A as (m & E & C).
      rewrite E; split; [reflexivity | exact C].
    + specialize (Stop eq_refl).
      destruct (last_value
                  (regexp_scan spec state (chunk_start a b (Z.of_nat k)) b))
        as [m|]; [|split; [reflexivity | exact Stop]].
      unfold RegExpQuery.accepted in A; rewrite Stop, Z.eqb_refl in A.
      discriminate.
Qed.

Lemma RegExpQuery_prevMatchInRange_answer `{RegExpHost} (spec : SearchQuery)
    (state : EditorState) (a b : Z) :
  chunk_answer spec state a b
    (result (RegExpQuery.prevMatchInRange spec state a b))
  /\ (b - a <= ChunkSize ->
      result (RegExpQuery.prevMatchInRange spec state a b)
      = last_value (regexp_scan spec state a b))
  /\ (result (RegExpQuery.prevMatchInRange spec state a b) = None ->
      regexp_scan spec state a b = []).
Proof.
  destruct (RegExpQuery_prevMatchInRange_chunks spec state a b)
    as (k & K & _ & Rej & R & Acc).
  split; [|split].
  - exists (Z.of_nat k); split; [lia | split; [exact Rej | split]];
      [exact R | exact Acc].
  - intros Small.
    assert (K1 : k = 1%nat).
    { destruct (Nat.eq_dec k 1) as [E|NE]; [exact E|].
      destruct (Rej 1) as [N _]; [lia|].
      unfold chunk_start, ChunkSize in *; lia. }
    subst k; rewrite R; f_equal; f_equal.
    unfold chunk_start, ChunkSize in *; lia.
  - intros E; rewrite E in Acc, R.
    apply last_value_nil_iff; rewrite <- Acc; symmetry; exact R.
Qed.

(** C4, amended.  [prevMatch] answers for [[0, curFrom)] and only when the
    answer is none for [[curTo, doc.length)].  For a literal query with a
    search string that is not empty, the answer for a range is the match
    that starts last in the first window, going back from the end of the
    range, that has a match; no occurrence of the search string in the
    document that lies inside the range starts after the answer, and the
    answer is none only if there is no such occurrence.  When the query
    does not ask for whole words, the answer is the occurrence inside the
    range that starts last.  When it does, the ends of a window count as
    word boundaries, and the answer need not be a whole word of the
    document.  For a regular expression query the answer for a range is
    the last match of the scan of the first chunk whose last match is
    accepted (the chunk starts at the range start, or the match starts
    more than 10 units after the start of the chunk): of the whole range
    when it is no longer than 10000; it is none only when the scan of the
    whole range yields nothing, and it need not be the last match of the
    scan of the range. *)
Theorem prevMatch_last_then_wrap `{RegExpHost} (spec : SearchQuery)
    (state : EditorState) (curFrom curTo : Z) :
  (nonempty (search spec) = true -> 0 <= curTo ->
   exists r1 r2,
     window_answer spec state 0 curFrom r1
     /\ window_answer spec state curTo (doc_length state) r2
     /\ result (StringQuery.prevMatch spec state curFrom curTo)
        = match r1 with Some m => Some m | None => r2 end
     /\ (forall m', occurs_in spec state 0 curFrom m' ->
           exists m, r1 = Some m /\ from m' <= from m)
     /\ (forall m', occurs_in spec state curTo (doc_length state) m' ->
           exists m, r2 = Some m /\ from m' <= from m)
     /\ (wholeWord spec = false ->
         last_occurrence spec state 0 curFrom r1
         /\ last_occurrence spec state curTo (doc_length state) r2)
     /\ (curFrom <= ChunkSize -> last_within spec state 0 curFrom r1))
  /\ (exists r1 r2,
        chunk_answer spec state 0 curFrom r1
        /\ chunk_answer spec state curTo (doc_length state) r2
        /\ (curFrom <= ChunkSize ->
            r1 = last_value (regexp_scan spec state 0 curFrom))
        /\ (r1 = None -> regexp_scan spec state 0 curFrom = [])
        /\ result (RegExpQuery.prevMatch spec state curFrom curTo)
           = match r1 with Some m => Some m | None => r2 end).
Proof.
  split.
  - intros NE CT; pose proof (unquoted_nonempty spec NE) as N.
    exists (result (StringQuery.prevMatchInRange spec state 0 curFrom)),
      (result (StringQuery.prevMatchInRange spec state curTo
                 (doc_length state))).
    destruct (StringQuery_prevMatchInRange_answer spec state 0 curFrom
                (Z.le_refl 0) N) as [A1 S1].
    destruct (StringQuery_prevMatchInRange_answer spec state curTo
                (doc_length state) CT N) as [A2 _].
    split; [exact A1 | split; [exact A2 | split]];
      [apply last_occurrence_wrap|].
    split; [intros m'; apply StringQuery_prevMatchInRange_bound; auto; lia|].
    split; [intros m'; apply StringQuery_prevMatchInRange_bound; auto|].
    split; [|intros Small; apply S1; lia].
    intros W; split; apply StringQuery_prevMatchInRange_last; auto; lia.
  - exists (result (RegExpQuery.prevMatchInRange spec state 0 curFrom)),
      (result (RegExpQuery.prevMatchInRange spec state curTo
                 (doc_length state))).
    destruct (RegExpQuery_prevMatchInRange_answer spec state 0 curFrom)
      as (A1 & S1 & E1).
    destruct (RegExpQuery_prevMatchInRange_answer spec state curTo
                (doc_length state)) as (A2 & _).
    split; [exact A1 | split; [exact A2 | split; [|split; [exact E1|]]]].
    + intros Small; apply S1; lia.
    + apply chunk_answer_wrap.
Qed.

(** ** Chunks of the backward search *)

(** C5, as it stands, fails.  On [longDoc], fifty thousand letters a, the
    backward search for [b] finds nothing in any chunk.  The regular
    expression search scans chunks of 10000, 20000, 30000, 40000 and 50000
    units: the width grows by 10000, it is not doubled.  The literal
    search scans windows of 10001 units (the last, cut at the range start,
    of 10000), each 10000 units before the other: not even the first is of
    10000 units, and none is twice the one before. *)
Lemma prevMatchInRange_chunks_are_not_doubled :
  trace (@RegExpQuery.prevMatchInRange literalHost (regexpQuery "b")
           (plainState longDoc) 0 50000)
  = [NewRegExpCursor 40000 50000; NewRegExpCursor 30000 50000;
     NewRegExpCursor 20000 50000; NewRegExpCursor 10000 50000;
     NewRegExpCursor 0 50000]
  /\ ~ doubling
         (map span
            (trace (@RegExpQuery.prevMatchInRange literalHost
                      (regexpQuery "b") (plainState longDoc) 0 50000)))
  /\ trace (StringQuery.prevMatchInRange (plainQuery "b")
              (plainState longDoc) 0 50000)
     = [NewSearchCursor 39999 50000; NewSearchCursor 29999 40000;
        NewSearchCursor 19999 30000; NewSearchCursor 9999 20000;
        NewSearchCursor 0 10000]
  /\ ~ doubling
         (map span
            (trace (StringQuery.prevMatchInRange (plainQuery "b")
                      (plainState longDoc) 0 50000))).
Proof.
  assert (R : trace (@RegExpQuery.prevMatchInRange literalHost
                       (regexpQuery "b") (plainState longDoc) 0 50000)
              = [NewRegExpCursor 40000 50000; NewRegExpCursor 30000 50000;
                 NewRegExpCursor 20000 50000; NewRegExpCursor 10000 50000;
                 NewRegExpCursor 0 50000])
    by (vm_compute; reflexivity).
  assert (S : trace (StringQuery.prevMatchInRange (plainQuery "b")
                       (plainState longDoc) 0 50000)
              = [NewSearchCursor 39999 50000; NewSearchCursor 29999 40000;
                 NewSearchCursor 19999 30000; NewSearchCursor 9999 20000;
                 NewSearchCursor 0 10000])
    by (vm_compute; reflexivity).
  rewrite R, S; repeat split; simpl; intros (D1 & D2 & _); lia.
Qed.

(** C5, amended.  The backward search scans chunk after chunk, of a width
    that is not doubled, and stops at the first chunk that yields a match
    it accepts or that starts at the range start.  The literal search
    scans the windows [[max(from, pos - 10000 - n), pos)], [n] the length
    of the search string, for [pos = to, to - 10000, to - 20000, ...]:
    windows of one width, each 10000 units before the other; a window is
    left for the next only when it starts after the range start and its
    scan yields no match, and the answer is the last match of the last
    window scanned.  The regular expression search scans the chunks
    [[max(from, to - k * 10000), to)] for [k = 1, 2, 3, ...]: the width
    grows by 10000 with each round; a chunk is left for the next only when
    it starts after the range start and its scan yields no match or a last
    match that starts at most 10 units after the start of the chunk, and
    the answer is the last match of the last chunk scanned.  When a search
    finds nothing it has scanned down to the range start: the number of
    scans in a range without a match grows in proportion to the size of
    the range. *)
Theorem prevMatchInRange_chunk_growth `{RegExpHost} (spec : SearchQuery)
    (state : EditorState) (a b : Z) :
  (exists k : nat,
     (1 <= k <= rounds a b)%nat
     /\ trace (StringQuery.prevMatchInRange spec state a b)
        = string_chunks a b (strlen (unquoted spec)) k
     /\ (forall j, 1 <= j < Z.of_nat k ->
           a < window_start spec a b j
           /\ string_scan spec state (window_start spec a b j)
                (window_end b j) = [])
     /\ result (StringQuery.prevMatchInRange spec state a b)
        = last_value
            (string_scan spec state (window_start spec a b (Z.of_nat k))
               (window_end b (Z.of_nat k)))
     /\ ((2 <= k)%nat ->
         a < b - (Z.of_nat k - 1) * ChunkSize - strlen (unquoted spec))
     /\ (result (StringQuery.prevMatchInRange spec state a b) = None ->
         window_start spec a b (Z.of_nat k) = a
         /\ b - Z.of_nat k * ChunkSize - strlen (unquoted spec) <= a))
  /\ (exists k : nat,
        (1 <= k <= rounds a b)%nat
        /\ trace (RegExpQuery.prevMatchInRange spec state a b)
           = regexp_chunks a b 1 k
        /\ (forall j, 1 <= j < Z.of_nat k ->
              a < chunk_start a b j
              /\ match last_value
                         (regexp_scan spec state (chunk_start a b j) b)
                 with
                 | Some m => from m <= chunk_start a b j + 10
                 | None => True
                 end)
        /\ result (RegExpQuery.prevMatchInRange spec state a b)
           = last_value
               (regexp_scan spec state (chunk_start a b (Z.of_nat k)) b)
        /\ match result (RegExpQuery.prevMatchInRange spec state a b) with
           | Some m => chunk_start a b (Z.of_nat k) = a
                       \/ chunk_start a b (Z.of_nat k) + 10 < from m
           | None => chunk_start a b (Z.of_nat k) = a
           end
        /\ ((2 <= k)%nat -> a < b - (Z.of_nat k - 1) * ChunkSize)
        /\ (result (RegExpQuery.prevMatchInRange spec state a b) = None ->
            b - Z.of_nat k * ChunkSize <= a)).
Proof.
  split.
  - destruct (StringQuery_prevMatchInRange_rounds spec state a b)
      as (k & K & T & Empty & R & Stop).
    exists k; split; [exact K | split; [exact T | split; [exact Empty|]]].
    split; [exact R | split].
    + intros K2; destruct (Empty (Z.of_nat k - 1)) as [Far _]; [lia|].
      unfold window_start, window_end, pattern_length in Far; lia.
    + intros E; specialize (Stop E); split; [exact Stop|].
      unfold window_start, window_end, pattern_length in Stop; lia.
  - destruct (RegExpQuery_prevMatchInRange_chunks spec state a b)
      as (k & K & T & Rej & R & Acc).
    exists k; split; [exact K | split; [exact T | split; [exact Rej|]]].
    split; [exact R | split; [exact Acc | split]].
    + intros K2; destruct (Rej (Z.of_nat k - 1)) as [Far _]; [lia|].
      unfold chunk_start in Far; lia.
    + intros E; rewrite E in Acc; unfold chunk_start in Acc; lia.
Qed.

(** C6.  The backward regular expression search of [[a, b)] scans the
    chunks [[max(a, b - i * 10000), b)] for [i = 1, ..., k] and answers
    with the last match of the scan of chunk [k], or none if that scan
    yields nothing.  The last match of a chunk ends the search only if the
    chunk starts at [a] or the match starts more than 10 units after the
    start of the chunk: every chunk before the [k]-th does not start at
    [a] and its last match, if there is one, starts at most 10 units after
    the start of the chunk, and the next, larger chunk was scanned
    instead. *)
Theorem RegExpQuery_prevMatchInRange_accepts `{RegExpHost}
    (spec : SearchQuery) (state : EditorState) (a b : Z) :
  exists k : nat,
    (1 <= k)%nat
    /\ trace (RegExpQuery.prevMatchInRange spec state a b)
       = regexp_chunks a b 1 k
    /\ (forall i, 1 <= i < Z.of_nat k ->
          chunk_start a b i <> a
          /\ match last_value (regexp_scan spec state (chunk_start a b i) b)
             with
             | Some m => from m <= chunk_start a b i + 10
             | None => True
             end)
    /\ result (RegExpQuery.prevMatchInRange spec state a b)
       = last_value
           (regexp_scan spec state (chunk_start a b (Z.of_nat k)) b)
    /\ (forall m,
          result (RegExpQuery.prevMatchInRange spec state a b) = Some m ->
          chunk_start a b (Z.of_nat k) = a
          \/ chunk_start a b (Z.of_nat k) + 10 < from m)
    /\ (result (RegExpQuery.prevMatchInRange spec state a b) = None ->
        chunk_start a b (Z.of_nat k) = a).
Proof.
  destruct (RegExpQuery_prevMatchInRange_rounds spec state a b)
    as (k & K & T & Rej & R & Stop).
  exists k; split; [lia | split; [exact T | split]].
  - intros i I; destruct (Rej i I) as [N A]; split; [exact N|].
    destruct (last_value (regexp_scan spec state (chunk_start a b i) b))
      as [m|]; [|exact Logic.I].
    unfold RegExpQuery.accepted in A.
    apply orb_false_iff in A as [_ A]; apply Z.ltb_ge in A; exact A.
  - rewrite R.
    destruct (RegExpQuery.accepted a (chunk_start a b (Z.of_nat k)) _) eqn:A.
    + apply accepted_iff in A as (m & E & C).
      split; [reflexivity | split].
      * intros m' E'; rewrite E in E'; inversion E'; subst; exact C.
      * rewrite E; discriminate.
    + specialize (Stop eq_refl).
      assert (E : last_value (regexp_scan spec state
                    (chunk_start a b (Z.of_nat k)) b) = None).
      { destruct (last_value _) as [m|]; [|reflexivity].
        unfold RegExpQuery.accepted in A; rewrite Stop, Z.eqb_refl in A.
        discriminate. }
      rewrite E; split; [reflexivity | split; [discriminate | auto]].
Qed.

(** ** Queries that are not valid *)

(** C9, as it stands, fails: the four operations do not look at [valid].
    For the query with the empty search string, which is not valid, each
    of them creates a cursor. *)
Lemma operations_create_cursors_for_invalid_query :
  @valid literalHost (plainQuery "") = false
  /\ trace (@nextMatch literalHost (OfString (plainQuery ""))
              (plainState (js "abc")) 0 0)
     = [NewSearchCursor 0 3; NewSearchCursor 0 0]
  /\ trace (@prevMatch literalHost (OfString (plainQuery ""))
              (plainState (js "abc")) 0 0)
     = [NewSearchCursor 0 0; NewSearchCursor 0 3]
  /\ trace (@matchAll literalHost (OfString (plainQuery ""))
              (plainState (js "abc")) 1000)
     = [NewSearchCursor 0 3]
  /\ trace (@highlight literalHost (OfString (plainQuery ""))
              (plainState (js "abc")) 0 3)
     = [NewSearchCursor 0 3].
Proof. repeat split. Qed.

(** C9, amended.  The validity of the query is checked by the callers of
    the operations.  When the query of the search state is not valid, a
    command made by [searchCommand] ([findNext], [findPrevious],
    [selectMatches], ...) does not run its body: it opens the search panel
    and returns true, and no cursor is created; and the highlighter returns
    the empty decoration set without calling [highlight].  The operations
    [nextMatch], [prevMatch], [matchAll] and [highlight] themselves do not
    look at [valid]. *)
Theorem invalid_query_is_stopped_by_callers `{RegExpHost}
    (view : EditorView) (st : SearchState)
    (f : EditorView -> SearchState -> Traced bool) :
  field_searchState view = Some st ->
  valid (spec_of (query st)) = false ->
  searchCommand f view = (true, [OpenSearchPanel])
  /\ existsb is_cursor_event (trace (searchCommand f view)) = false
  /\ findNext view = (true, [OpenSearchPanel])
  /\ findPrevious view = (true, [OpenSearchPanel])
  /\ selectMatches view = (true, [OpenSearchPanel])
  /\ searchHighlighter_highlight view st = ([], []).
Proof.
  intros F V.
  assert (C : forall g, searchCommand g view = (true, [OpenSearchPanel]))
    by (intros g; unfold searchCommand; rewrite F, V; reflexivity).
  repeat split; try apply C.
  - rewrite C; reflexivity.
  - unfold searchHighlighter_highlight; rewrite V, orb_true_r; reflexivity.
Qed.

(** ** The theorems at sample data *)

Lemma matchAll_limit_at_aaaa :
  result (@matchAll literalHost (OfString (plainQuery "aa"))
            (plainState (js "aaaa")) 2)
  = Some (@all_matches literalHost (OfString (plainQuery "aa"))
            (plainState (js "aaaa"))).
Proof.
  apply (@matchAll_limit literalHost (OfString (plainQuery "aa"))
           (plainState (js "aaaa")) 2); [lia | vm_compute; discriminate].
Defined.

Lemma matchAll_nonoverlapping_occurrences_at_aaaa :
  exists ms,
    result (StringQuery.matchAll (plainQuery "aa") (plainState (js "aaaa")) 2)
    = Some ms
    /\ StronglySorted
         (fun x y : SearchResult => from x < from y /\ to x <= from y) ms
    /\ forall m,
         In m ms
         <-> occurs_in (plainQuery "aa") (plainState (js "aaaa")) 0
               (doc_length (plainState (js "aaaa"))) m
             /\ ~ (exists m', In m' ms /\ from m' < from m < to m').
Proof.
  apply (@matchAll_nonoverlapping_occurrences literalHost (plainQuery "aa")
           (plainState (js "aaaa")) 2);
    [reflexivity | vm_compute; discriminate].
Defined.




Lemma prevMatch_last_then_wrap_at_aaa :
  exists r1 r2,
    window_answer (plainQuery "aa") (plainState (js "aaa")) 0 3 r1
    /\ window_answer (plainQuery "aa") (plainState (js "aaa")) 3
         (doc_length (plainState (js "aaa"))) r2
    /\ result (StringQuery.prevMatch (plainQuery "aa")
                 (plainState (js "aaa")) 3 3)
       = match r1 with Some m => Some m | None => r2 end
    /\ (forall m',
          occurs_in (plainQuery "aa") (plainState (js "aaa")) 0 3 m' ->
          exists m, r1 = Some m /\ from m' <= from m)
    /\ (forall m',
          occurs_in (plainQuery "aa") (plainState (js "aaa")) 3
            (doc_length (plainState (js "aaa"))) m' ->
          exists m, r2 = Some m /\ from m' <= from m)
    /\ (wholeWord (plainQuery "aa") = false ->
        last_occurrence (plainQuery "aa") (plainState (js "aaa")) 0 3 r1
        /\ last_occurrence (plainQuery "aa") (plainState (js "aaa")) 3
             (doc_length (plainState (js "aaa"))) r2)
    /\ (3 <= ChunkSize ->
        last_within (plainQuery "aa") (plainState (js "aaa")) 0 3 r1).
Proof.
  apply (@prevMatch_last_then_wrap literalHost (plainQuery "aa")
           (plainState (js "aaa")) 3 3); [reflexivity | lia].
Defined.

Lemma invalid_query_is_stopped_by_callers_at_empty :
  @findNext literalHost emptyQueryView = (true, [OpenSearchPanel])
  /\ @findNext literalHost unbalancedView = (true, [OpenSearchPanel]).
Proof.
  split.
  - apply (@invalid_query_is_stopped_by_callers literalHost emptyQueryView
             {| query := OfString (plainQuery ""); panel := true |}
             (fun _ _ => ret true)); reflexivity.
  - apply (@invalid_query_is_stopped_by_callers literalHost unbalancedView
             {| query := OfRegExp (regexpQuery "("); panel := true |}
             (fun _ _ => ret true)); reflexivity.
Defined.

(** * Further properties of the query layer *)

(** ** Unquoting and templates *)

Lemma replace_lead_class_absent (lead : ascii) (class : ascii -> bool)
    (fn : str -> ascii -> str) (text : str) :
  ~ In lead text -> replace_lead_class lead class fn text = text.
Proof.
  induction text as [|c tl IH]; intros N; [reflexivity|].
  simpl; destruct (Ascii.eqb_spec c lead) as [->|_].
  - exfalso; apply N; left; reflexivity.
  - rewrite IH; [reflexivity | intros I; apply N; right; exact I].
Qed.

(** X1.  A text without a backslash is left as it is by [unquote],
    whatever the [literal] flag. *)
Theorem unquote_without_backslash (q : SearchQuery) (text : str) :
  ~ In backslash text -> unquote q text = text.
Proof.
  intros N; unfold unquote; destruct (literal q); [reflexivity|].
  apply replace_lead_class_absent, N.
Qed.

Lemma unquote_without_backslash_at_abc :
  unquote (plainQuery "abc") (js "a b.c") = js "a b.c".
Proof.
  apply (unquote_without_backslash (plainQuery "abc") (js "a b.c")).
  simpl; intros [K|[K|[K|[K|[K|[]]]]]]; discriminate.
Defined.

Lemma unescape_length (n : nat) : forall text : str,
  (List.length text <= n)%nat ->
  (List.length (replace_lead_class backslash is_escape_letter
                  (fun _ ch => [unquote_char ch]) text)
   <= List.length text)%nat
  /\ nonempty (replace_lead_class backslash is_escape_letter
                 (fun _ ch => [unquote_char ch]) text)
     = nonempty text.
Proof.
  induction n as [|n IH]; intros [|c tl] L; simpl in L; try lia;
    try (simpl; split; [lia | reflexivity]).
  simpl; destruct (Ascii.eqb c backslash).
  - destruct tl as [|ch rest]; [simpl; split; [lia | reflexivity]|].
    simpl in L. destruct (is_escape_letter ch); simpl.
    + destruct (IH rest) as [B _]; [lia|]; split; [lia | reflexivity].
    + destruct (IH (ch :: rest)) as [B _]; [simpl; lia|].
      simpl in B; split; [lia | reflexivity].
  - destruct (IH tl) as [B _]; [lia|]; simpl; split; [lia | reflexivity].
Qed.

(** X2.  [unquote] never makes a text longer, and its result is empty only
    for the empty text: the unquoted search string of a query whose search
    string is not empty (as that of every valid query) is not empty. *)
Theorem unquote_never_longer `{RegExpHost} (q : SearchQuery) (text : str) :
  (List.length (unquote q text) <= List.length text)%nat
  /\ nonempty (unquote q text) = nonempty text
  /\ (valid q = true -> nonempty (unquoted q) = true).
Proof.
  assert (U : forall t, (List.length (unquote q t) <= List.length t)%nat
                        /\ nonempty (unquote q t) = nonempty t).
  { intros t; unfold unquote; destruct (literal q); [split; auto|].
    apply (unescape_length (List.length t)); lia. }
  destruct (U text) as [B N]; split; [exact B | split; [exact N|]].
  unfold valid, unquoted; intros V; apply andb_true_iff in V as [V _].
  destruct (U (search q)) as [_ N']; congruence.
Qed.

Lemma unquote_never_longer_at_escape :
  nonempty (unquoted (escapeQuery false)) = true.
Proof.
  apply (@unquote_never_longer literalHost (escapeQuery false) []).
  reflexivity.
Defined.

(** X3.  A replacement template without a dollar sign is not changed by
    the expansion: a regular expression query then gives the replacement
    text that a literal query with the same fields gives. *)
Theorem getReplacement_without_dollar (spec : SearchQuery)
    (r : RegExpResult) (s : SearchResult) :
  ~ In dollar (replace spec) ->
  RegExpQuery.expand (rmatch r) (replace spec) = replace spec
  /\ RegExpQuery.getReplacement spec r = StringQuery.getReplacement spec s.
Proof.
  intros N.
  assert (E : RegExpQuery.expand (rmatch r) (replace spec) = replace spec)
    by (apply replace_lead_class_absent, N).
  split; [exact E|].
  unfold RegExpQuery.getReplacement, StringQuery.getReplacement.
  rewrite E; reflexivity.
Qed.

Lemma getReplacement_without_dollar_at_ab :
  RegExpQuery.getReplacement (regexpQuery "ab") abResult
  = StringQuery.getReplacement (regexpQuery "ab") (range abResult).
Proof.
  apply (getReplacement_without_dollar (regexpQuery "ab") abResult
           (range abResult)).
  simpl; tauto.
Defined.

(** ** Comparing queries *)

Lemma str_eqb_refl (a : str) : str_eqb a a = true.
Proof. apply str_eqb_eq; reflexivity. Qed.

(** X4.  [SearchQuery.eq] is an equivalence: every query equals itself,
    the order of the two queries does not matter, and queries equal to a
    third are equal. *)
Theorem SearchQuery_eq_equivalence :
  (forall q, SearchQuery_eq q q = true)
  /\ (forall q other, SearchQuery_eq q other = SearchQuery_eq other q)
  /\ (forall q1 q2 q3,
        SearchQuery_eq q1 q2 = true -> SearchQuery_eq q2 q3 = true ->
        SearchQuery_eq q1 q3 = true).
Proof.
  split; [|split].
  - intros q; apply SearchQuery_eq_fields; repeat split.
  - intros q other.
    destruct (SearchQuery_eq q other) eqn:E1,
             (SearchQuery_eq other q) eqn:E2; try reflexivity.
    + apply SearchQuery_eq_fields in E1 as (A & B & C & D & E).
      rewrite <- E2; symmetry; apply SearchQuery_eq_fields; auto.
    + apply SearchQuery_eq_fields in E2 as (A & B & C & D & E).
      rewrite <- E1; apply SearchQuery_eq_fields; auto.
  - intros q1 q2 q3 E1 E2.
    apply SearchQuery_eq_fields in E1 as (A & B & C & D & E).
    apply SearchQuery_eq_fields in E2 as (A' & B' & C' & D' & E').
    apply SearchQuery_eq_fields; repeat split; congruence.
Qed.

(** X5.  Queries that are equal for [eq] are valid together and create
    query types of the same kind (both literal or both regular
    expression). *)
Theorem SearchQuery_eq_same_kind `{RegExpHost} (q other : SearchQuery) :
  SearchQuery_eq q other = true ->
  valid q = valid other
  /\ match create q, create other with
     | OfString _, OfString _ | OfRegExp _, OfRegExp _ => True
     | _, _ => False
     end.
Proof.
  intros E; apply SearchQuery_eq_fields in E as (A & _ & _ & D & _).
  unfold valid, create; rewrite A, D; split; [reflexivity|].
  destruct (regexp other); exact I.
Qed.

Lemma SearchQuery_eq_same_kind_at_escape :
  @valid literalHost (escapeQuery false) = @valid literalHost (escapeQuery true).
Proof.
  apply (@SearchQuery_eq_same_kind literalHost (escapeQuery false)
           (escapeQuery true)).
  reflexivity.
Defined.

(** ** The search state field and the panel *)

Lemma spec_of_create (q : SearchQuery) : spec_of (create q) = q.
Proof. unfold create; destruct (regexp q); reflexivity. Qed.

Lemma searchState_update_app (v : SearchState) (l1 l2 : list SearchEffect) :
  searchState_update v (l1 ++ l2)
  = searchState_update (searchState_update v l1) l2.
Proof. apply fold_left_app. Qed.

Lemma searchState_update_keeps_query (effects : list SearchEffect) :
  forall v, forallb (fun e => negb (sets_query e)) effects = true ->
  query (searchState_update v effects) = query v.
Proof.
  induction effects as [|e effects IH]; intros v N; [reflexivity|].
  simpl in N; apply andb_true_iff in N as [N1 N2].
  change (searchState_update v (e :: effects))
    with (searchState_update (searchState_update v [e]) effects).
  rewrite (IH _ N2); destruct e; simpl in *; congruence.
Qed.

Lemma searchState_update_keeps_panel (effects : list SearchEffect) :
  forall v, forallb (fun e => negb (toggles_panel e)) effects = true ->
  panel (searchState_update v effects) = panel v.
Proof.
  induction effects as [|e effects IH]; intros v N; [reflexivity|].
  simpl in N; apply andb_true_iff in N as [N1 N2].
  change (searchState_update v (e :: effects))
    with (searchState_update (searchState_update v [e]) effects).
  rewrite (IH _ N2); destruct e; simpl in *; congruence.
Qed.

(** X6.  After a transaction the search state field holds the query of the
    last [setSearchQuery] effect, created as the query type of its kind,
    and [getSearchQuery] returns that very query; the panel is as the last
    [togglePanel] effect says.  A transaction without an effect of one kind
    leaves that part of the field as it was. *)
Theorem searchState_update_last_effect (v : SearchState)
    (before after : list SearchEffect) :
  (forall q config view,
     forallb (fun e => negb (sets_query e)) after = true ->
     field_searchState view
     = Some (searchState_update v (before ++ SetSearchQuery q :: after)) ->
     query (searchState_update v (before ++ SetSearchQuery q :: after))
     = create q
     /\ getSearchQuery config view = q)
  /\ (forall on,
        forallb (fun e => negb (toggles_panel e)) after = true ->
        panel (searchState_update v (before ++ TogglePanel on :: after)) = on)
  /\ (forallb (fun e => negb (sets_query e)) after = true ->
      query (searchState_update v after) = query v)
  /\ (forallb (fun e => negb (toggles_panel e)) after = true ->
      panel (searchState_update v after) = panel v).
Proof.
  split; [|split; [|split]].
  - intros q config view N F.
    assert (Q : query (searchState_update v
                         (before ++ SetSearchQuery q :: after)) = create q).
    { rewrite searchState_update_app.
      change (SetSearchQuery q :: after) with ([SetSearchQuery q] ++ after).
      rewrite searchState_update_app, searchState_update_keeps_query by exact N.
      reflexivity. }
    split; [exact Q|].
    unfold getSearchQuery; rewrite F, Q; apply spec_of_create.
  - intros on N. rewrite searchState_update_app.
    change (TogglePanel on :: after) with ([TogglePanel on] ++ after).
    rewrite searchState_update_app, searchState_update_keeps_panel by exact N.
    reflexivity.
  - apply searchState_update_keeps_query.
  - apply searchState_update_keeps_panel.
Qed.

Lemma searchState_update_last_effect_at_two :
  panel (searchState_update
           {| query := OfString (plainQuery "a"); panel := false |}
           ([SetSearchQuery (regexpQuery "b")]
            ++ TogglePanel true :: [SetSearchQuery (plainQuery "c")]))
  = true.
Proof.
  apply (searchState_update_last_effect
           {| query := OfString (plainQuery "a"); panel := false |}
           [SetSearchQuery (regexpQuery "b")]
           [SetSearchQuery (plainQuery "c")]).
  reflexivity.
Defined.

Lemma input_value_fixed (text : str) :
  input_value text = text <-> no_line_break text.
Proof.
  unfold no_line_break, input_value; induction text as [|c tl IH]; simpl.
  - tauto.
  - destruct (Ascii.eqb_spec c newline) as [->|N1]; cbn [orb negb].
    + split; [|tauto]. intros E.
      assert (L : (List.length (filter
                     (fun c => negb (Ascii.eqb c newline
                                     || Ascii.eqb c carriage_return)) tl)
                   <= List.length tl)%nat) by apply filter_length_le.
      rewrite E in L; simpl in L; lia.
    + destruct (Ascii.eqb_spec c carriage_return) as [->|N2]; cbn [negb].
      * split; [|tauto]. intros E.
        assert (L : (List.length (filter
                       (fun c => negb (Ascii.eqb c newline
                                       || Ascii.eqb c carriage_return)) tl)
                     <= List.length tl)%nat) by apply filter_length_le.
        rewrite E in L; simpl in L; lia.
      * split.
        -- intros E; inversion E as [E']; rewrite E'.
           apply IH in E'; destruct E' as [A B].
           split; intros [K|K]; auto; congruence.
        -- intros [A B]; f_equal; apply IH; split; auto.
Qed.

(** X7.  When the panel has been set to show a query whose search string
    and replacement text hold no line break, [commit] with the controls
    untouched dispatches nothing and leaves the panel as it is, whatever
    the query's [literal] flag.  When one of the two texts holds a line
    break, the text inputs hold the texts without their line breaks, and
    [commit] dispatches the query made of these texts and the three
    flags. *)
Theorem commit_after_setQuery (q : SearchQuery) :
  (no_line_break (search q) /\ no_line_break (replace q) ->
   commit (setQuery q) = (setQuery q, None))
  /\ (~ (no_line_break (search q) /\ no_line_break (replace q)) ->
      snd (commit (setQuery q))
      = Some {| search := input_value (search q);
                caseSensitive := caseSensitive q; literal := false;
                regexp := regexp q; replace := input_value (replace q);
                wholeWord := wholeWord q |}).
Proof.
  unfold commit.
  destruct (SearchQuery_eq (panel_fields_query (setQuery q))
              (panel_query (setQuery q))) eqn:E.
  - apply SearchQuery_eq_fields in E as (E1 & E2 & _); cbn in E1, E2.
    split; [reflexivity|].
    intros K; exfalso; apply K; split; apply input_value_fixed; assumption.
  - split; [|reflexivity].
    intros [A B]; apply input_value_fixed in A, B.
    enough (T : SearchQuery_eq (panel_fields_query (setQuery q))
                  (panel_query (setQuery q)) = true) by congruence.
    apply SearchQuery_eq_fields; cbn; rewrite A, B; repeat split.
Qed.

Lemma commit_after_setQuery_at_lines :
  commit (setQuery (plainQuery "ab")) = (setQuery (plainQuery "ab"), None)
  /\ snd (commit (setQuery (linesQuery true)))
     = Some {| search := js "ab"; caseSensitive := true; literal := false;
               regexp := false; replace := []; wholeWord := false |}.
Proof.
  split.
  - apply (commit_after_setQuery (plainQuery "ab")).
    repeat split; simpl; intuition discriminate.
  - apply (commit_after_setQuery (linesQuery true)).
    intros [[K _] _]; apply K; simpl; auto.
Defined.

(** X8.  [commit] dispatches a query only if it differs, for [eq], from the
    query the panel showed; the query dispatched has the [literal] flag
    off and the values of the five controls; a second [commit] dispatches
    nothing, and the panel's [update] on the effect dispatched does not
    set the panel anew. *)
Theorem commit_dispatches_once (p : SearchPanel) :
  match snd (commit p) with
  | Some q =>
      SearchQuery_eq q (panel_query p) = false
      /\ q = panel_fields_query p /\ literal q = false
      /\ panel_update (fst (commit p)) [SetSearchQuery q] = fst (commit p)
  | None => SearchQuery_eq (panel_fields_query p) (panel_query p) = true
            /\ fst (commit p) = p
  end
  /\ commit (fst (commit p)) = (fst (commit p), None).
Proof.
  assert (R : forall q, SearchQuery_eq q q = true)
    by (intros q; apply SearchQuery_eq_fields; repeat split).
  unfold commit.
  destruct (SearchQuery_eq (panel_fields_query p) (panel_query p)) eqn:E;
    simpl.
  - rewrite E; simpl; auto.
  - split.
    + split; [exact E | split; [reflexivity | split; [reflexivity|]]].
      unfold panel_update; simpl.
      rewrite (R (panel_fields_query p)); reflexivity.
    + change (panel_fields_query
                {| searchField := searchField p;
                   replaceField := replaceField p; caseField := caseField p;
                   reField := reField p; wordField := wordField p;
                   panel_query := panel_fields_query p |})
        with (panel_fields_query p).
      rewrite (R (panel_fields_query p)); reflexivity.
Qed.

(** ** The default query *)

Lemma unescape_escape_newlines (s : str) :
  ~ In backslash s ->
  replace_lead_class backslash is_escape_letter
    (fun _ ch => [unquote_char ch]) (escape_newlines s) = s.
Proof.
  induction s as [|c tl IH]; intros N; [reflexivity|].
  assert (NB : c <> backslash) by (intros ->; apply N; left; reflexivity).
  assert (IH' : replace_lead_class backslash is_escape_letter
                  (fun _ ch => [unquote_char ch]) (escape_newlines tl) = tl)
    by (apply IH; intros I; apply N; right; exact I).
  simpl; destruct (Ascii.eqb_spec c newline) as [->|NN]; simpl.
  - rewrite IH'; reflexivity.
  - destruct (Ascii.eqb_spec c backslash); [contradiction|].
    rewrite IH'; reflexivity.
Qed.

(** X9.  When the main selection gives a selected text that is not empty
    ([selText]: at most 100 units), [defaultQuery] returns a query that
    takes its flags from the fallback query, has an empty replacement
    text, and whose unquoted search string is the selected text, provided
    the query is literal or the selected text has no backslash. *)
Theorem defaultQuery_searches_selection (config : SearchConfig)
    (state : EditorState) (fb : SearchQuery) :
  selText state <> [] ->
  literal fb = true \/ ~ In backslash (selText state) ->
  let q := defaultQuery config state (Some fb) in
  unquoted q = selText state
  /\ replace q = []
  /\ caseSensitive q = caseSensitive fb /\ literal q = literal fb
  /\ regexp q = regexp fb /\ wholeWord q = wholeWord fb.
Proof.
  intros NE C q; subst q; unfold defaultQuery.
  destruct (selText state) as [|c tl] eqn:S; [contradiction|].
  cbn [nonempty]; repeat split.
  unfold unquoted, unquote; cbn [search literal].
  destruct (literal fb) eqn:L; [reflexivity|].
  destruct C as [C|C]; [discriminate|].
  apply unescape_escape_newlines, C.
Qed.

Lemma defaultQuery_searches_selection_at_bc :
  unquoted (defaultQuery
              {| config_caseSensitive := false; config_literal := false;
                 config_regexp := false; config_wholeWord := false |}
              {| doc := js "abcd"; selection_from := 1; selection_to := 3;
                 selection_head := 3; selection_ranges := [(1, 3)];
                 readOnly := false; classify := fun _ _ => Other |}
              (Some (plainQuery "zz")))
  = js "bc".
Proof.
  apply (defaultQuery_searches_selection
           {| config_caseSensitive := false; config_literal := false;
              config_regexp := false; config_wholeWord := false |}
           {| doc := js "abcd"; selection_from := 1; selection_to := 3;
              selection_head := 3; selection_ranges := [(1, 3)];
              readOnly := false; classify := fun _ _ => Other |}
           (plainQuery "zz")).
  - discriminate.
  - right; simpl; intros [K|[K|[]]]; discriminate.
Defined.

(** ** Highlighting *)

Lemma result_bind {A B : Type} (m : Traced A) (k : A -> Traced B) :
  result (bind m k) = result (k (result m)).
Proof. unfold bind, result; destruct (k (fst m)); reflexivity. Qed.

Lemma trace_bind {A B : Type} (m : Traced A) (k : A -> Traced B) :
  trace (bind m k) = trace m ++ trace (k (result m)).
Proof. unfold bind, trace, result; destruct (k (fst m)); reflexivity. Qed.

Lemma joined_ranges_head (rest : list (Z * Z)) : forall f t,
  exists t' more, joined_ranges f t rest = (f, t') :: more.
Proof.
  induction rest as [|[f2 t2] rest IH]; intros f t; cbn [joined_ranges].
  - exists t, []; reflexivity.
  - destruct (f2 - 2 * HighlightMargin <? t); [apply IH|].
    exists t, (joined_ranges f2 t2 rest); reflexivity.
Qed.

(** Joined ranges lie at least twice the margin apart. *)
Lemma joined_ranges_margin (rest : list (Z * Z)) : forall f t,
  Sorted (fun x y : Z * Z => snd x + 2 * HighlightMargin <= fst y)
    (joined_ranges f t rest).
Proof.
  induction rest as [|[f2 t2] rest IH]; intros f t; cbn [joined_ranges].
  - repeat constructor.
  - destruct (Z.ltb_spec (f2 - 2 * HighlightMargin) t) as [G|G];
      [apply IH|].
    constructor; [apply IH|].
    destruct (joined_ranges_head rest f2 t2) as (t' & more & E).
    rewrite E; constructor; unfold HighlightMargin in *; simpl; lia.
Qed.

(** Joining does not make more ranges. *)
Lemma joined_ranges_count (rest : list (Z * Z)) : forall f t,
  (List.length (joined_ranges f t rest) <= S (List.length rest))%nat.
Proof.
  induction rest as [|[f2 t2] rest IH]; intros f t; cbn [joined_ranges].
  - simpl; lia.
  - destruct (f2 - 2 * HighlightMargin <? t).
    + specialize (IH f t2); simpl; lia.
    + specialize (IH f2 t2); simpl; lia.
Qed.

(** X10.  The ranges that the highlighter scans, made by joining visible
    ranges that are less than twice the margin apart, begin with the start
    of the first visible range, are no more than the visible ranges, and
    each starts at least twice the margin (500 units) after the end of the
    one before. *)
Theorem joined_ranges_apart (f t : Z) (rest : list (Z * Z)) :
  Sorted (fun x y : Z * Z => snd x + 2 * HighlightMargin <= fst y)
    (joined_ranges f t rest)
  /\ (exists t' more, joined_ranges f t rest = (f, t') :: more)
  /\ (List.length (joined_ranges f t rest) <= S (List.length rest))%nat.
Proof.
  split; [apply joined_ranges_margin | split].
  - apply joined_ranges_head.
  - apply joined_ranges_count.
Qed.

Lemma joined_ranges_cover_from (rest : list (Z * Z)) : forall rf rt,
  StronglySorted
    (fun x y : Z * Z => fst x <= fst y /\ snd x <= snd y) ((rf, rt) :: rest) ->
  forall r, In r ((rf, rt) :: rest) ->
  exists j, In j (joined_ranges rf rt rest)
            /\ fst j <= fst r /\ snd r <= snd j.
Proof.
  induction rest as [|[f2 t2] rest IH]; intros rf rt S r I.
  - destruct I as [<-|[]]; exists (rf, rt); simpl; split; [auto | lia].
  - inversion S as [|? ? S' F]; subst.
    inversion S' as [|? ? S'' F']; subst.
    rewrite Forall_forall in F, F'.
    assert (H2 : rf <= f2 /\ rt <= t2) by (apply (F (f2, t2)); left; auto).
    cbn [joined_ranges]; destruct (f2 - 2 * HighlightMargin <? rt).
    + assert (SS : StronglySorted
                     (fun x y : Z * Z => fst x <= fst y /\ snd x <= snd y)
                     ((rf, t2) :: rest)).
      { constructor; [exact S''|].
        apply Forall_forall; intros y Y; simpl.
        destruct (F y (or_intror Y)), (F' y Y); simpl in *; lia. }
      destruct I as [<-|[<-|I]].
      * destruct (IH rf t2 SS (rf, t2)) as (j & J & B); [left; auto|].
        exists j; simpl in *; split; [exact J | lia].
      * destruct (IH rf t2 SS (rf, t2)) as (j & J & B); [left; auto|].
        exists j; simpl in *; split; [exact J | lia].
      * apply (IH rf t2 SS r); right; exact I.
    + destruct I as [<-|I].
      * exists (rf, rt); simpl; split; [left; reflexivity | lia].
      * destruct (IH f2 t2 S' r I) as (j & J & B).
        exists j; split; [right; exact J | exact B].
Qed.

(** X11.  When the visible ranges come in ascending order (starts and ends
    do not decrease), every visible range lies inside one of the joined
    ranges the highlighter scans. *)
Theorem joined_ranges_cover (f t : Z) (rest : list (Z * Z)) (r : Z * Z) :
  StronglySorted
    (fun x y : Z * Z => fst x <= fst y /\ snd x <= snd y) ((f, t) :: rest) ->
  In r ((f, t) :: rest) ->
  exists j, In j (joined_ranges f t rest)
            /\ fst j <= fst r /\ snd r <= snd j.
Proof. intros S I; apply (joined_ranges_cover_from rest f t S r I). Qed.

Lemma joined_ranges_cover_at_three :
  exists j, In j (joined_ranges 0 10 [(100, 200); (1000, 1100)])
            /\ fst j <= fst (100, 200) /\ snd (100, 200) <= snd j.
Proof.
  apply (joined_ranges_cover 0 10 [(100, 200); (1000, 1100)] (100, 200)).
  - repeat constructor; simpl; lia.
  - right; left; reflexivity.
Defined.

Lemma record_eta (values : list SearchResult) :
  map (fun v : SearchResult => {| from := from v; to := to v |}) values
  = values.
Proof.
  induction values as [|[f t] l IH]; simpl; [|rewrite IH]; reflexivity.
Qed.

Lemma chained_from_below (ms : list SearchResult) (lo lo' : Z) :
  lo' <= lo -> chained lo ms -> chained lo' ms.
Proof. destruct ms; simpl; [tauto | intros; split; [lia | tauto]]. Qed.

Lemma chained_app (l1 : list SearchResult) : forall lo hi l2,
  chained lo l1 ->
  Forall (fun m => from m <= to m /\ to m <= hi) l1 ->
  lo <= hi -> chained hi l2 -> chained lo (l1 ++ l2).
Proof.
  induction l1 as [|m l1 IH]; intros lo hi l2 C F B C2; simpl.
  - apply (chained_from_below l2 hi lo B C2).
  - destruct C as [C1 C']; inversion F as [|? ? [F1 F2] F']; subst.
    split; [exact C1 | apply (IH (to m) hi); auto].
Qed.

(** X12.  [StringQuery.highlight] creates one cursor, for the range widened
    by the length of the search string on either side and cut to the
    document.  Every range it reports is a match of the scan of that
    window: it lies inside the window, the document holds the search
    string at it and, for a whole-word query, its ends are word
    boundaries, the ends of the window counting as boundaries.  Every
    occurrence of the search string in the document that touches the range
    asked for starts inside a reported range. *)
Theorem StringQuery_highlight_marks (spec : SearchQuery)
    (state : EditorState) (rangeFrom rangeTo : Z) :
  nonempty (search spec) = true ->
  let a := Z.max 0 (rangeFrom - pattern_length spec) in
  let b := Z.min (rangeTo + pattern_length spec) (doc_length state) in
  trace (StringQuery.highlight spec state rangeFrom rangeTo)
  = [NewSearchCursor a b]
  /\ 0 <= a /\ b <= doc_length state
  /\ (forall f t,
        In (f, t) (result (StringQuery.highlight spec state rangeFrom rangeTo))
        -> occurs_within spec state a b {| from := f; to := t |})
  /\ (forall m,
        occurs_in spec state 0 (doc_length state) m ->
        rangeFrom <= to m -> from m <= rangeTo ->
        exists f t,
          In (f, t)
            (result (StringQuery.highlight spec state rangeFrom rangeTo))
          /\ f <= from m < t).
Proof.
  intros NE a b; pose proof (unquoted_nonempty spec NE) as N.
  assert (A : 0 <= a) by (subst a; lia).
  split; [reflexivity | split; [exact A | split; [subst b; lia | split]]].
  - intros f t I.
    change (result (StringQuery.highlight spec state rangeFrom rangeTo))
      with (map (fun v : SearchResult => (from v, to v))
              (SearchCursor_next (result (stringCursor spec state a b))))
      in I.
    apply in_map_iff in I as ([f' t'] & E & I); inversion E; subst.
    apply (next_occurrences spec state a b A N _ I).
  - intros m (O1 & O2 & O3 & O4) T1 T2.
    assert (O : occurs_in spec state a b m).
    { split; [|split; [|split; [exact O3 | exact O4]]]; subst a b; lia. }
    destruct (next_covers spec state a b A N m
                (occurs_in_within spec state a b m N O)) as (m' & I & B).
    exists (from m'), (to m'); split; [|exact B].
    change (result (StringQuery.highlight spec state rangeFrom rangeTo))
      with (map (fun v : SearchResult => (from v, to v))
              (SearchCursor_next (result (stringCursor spec state a b)))).
    apply in_map_iff; exists m'; auto.
Qed.

Lemma StringQuery_highlight_marks_at_abc :
  trace (StringQuery.highlight (plainQuery "b") (plainState (js "abc")) 1 2)
  = [NewSearchCursor 0 3].
Proof.
  apply (StringQuery_highlight_marks (plainQuery "b") (plainState (js "abc"))
           1 2).
  reflexivity.
Defined.

Lemma highlight_ranges_cons `{RegExpHost} (q : QueryType)
    (state : EditorState) (f t : Z) (rest : list (Z * Z)) :
  result (highlight_ranges q state ((f, t) :: rest))
  = map (fun r => (r, is_selected state r)) (result (highlight q state f t))
    ++ result (highlight_ranges q state rest)
  /\ trace (highlight_ranges q state ((f, t) :: rest))
     = trace (highlight q state f t) ++ trace (highlight_ranges q state rest).
Proof.
  cbn [highlight_ranges]; rewrite !result_bind, !trace_bind.
  split; [reflexivity|].
  cbn [ret trace snd]; rewrite app_nil_r; reflexivity.
Qed.

Lemma joined_ranges_wellformed (rest : list (Z * Z)) : forall rf rt,
  rf <= rt ->
  StronglySorted
    (fun x y : Z * Z => fst x <= fst y /\ snd x <= snd y) ((rf, rt) :: rest) ->
  Forall (fun r => fst r <= snd r) rest ->
  Forall (fun j => fst j <= snd j) (joined_ranges rf rt rest).
Proof.
  induction rest as [|[f2 t2] rest IH]; intros rf rt W S F;
    cbn [joined_ranges].
  - repeat constructor; exact W.
  - inversion S as [|? ? S' F1]; subst.
    inversion S' as [|? ? S'' F2]; subst.
    inversion F as [|? ? W2 F']; subst; simpl in W2.
    rewrite Forall_forall in F1, F2.
    assert (H2 : rf <= f2 /\ rt <= t2) by (apply (F1 (f2, t2)); left; auto).
    destruct (f2 - 2 * HighlightMargin <? rt).
    + apply IH; [lia | | exact F'].
      constructor; [exact S''|].
      apply Forall_forall; intros y Y; simpl.
      destruct (F1 y (or_intror Y)), (F2 y Y); simpl in *; lia.
    + constructor; [exact W | apply IH; auto].
Qed.

Lemma highlight_ranges_chained `{RegExpHost} (spec : SearchQuery)
    (state : EditorState) :
  nonempty (search spec) = true ->
  pattern_length spec <= HighlightMargin ->
  forall (jl : list (Z * Z)) (lo : Z),
  Sorted (fun x y : Z * Z => snd x + 2 * HighlightMargin <= fst y) jl ->
  Forall (fun j => fst j <= snd j) jl ->
  (forall j more, jl = j :: more ->
                  lo <= Z.max 0 (fst j - pattern_length spec)) ->
  chained lo
    (map mark_range (result (highlight_ranges (OfString spec) state jl)))
  /\ Forall (fun m => scanned_match spec state
                        (trace (highlight_ranges (OfString spec) state jl))
                        (mark_range m))
       (result (highlight_ranges (OfString spec) state jl)).
Proof.
  intros NE Short; pose proof (unquoted_nonempty spec NE) as N.
  pose proof (pattern_length_pos spec N) as P.
  induction jl as [|[f t] jl IH]; intros lo S W Lo;
    [split; [exact I | constructor]|].
  destruct (highlight_ranges_cons (OfString spec) state f t jl) as [-> ->].
  inversion S as [|? ? S' Hd]; subst.
  inversion W as [|? ? Wf W']; subst; simpl in Wf.
  set (a := Z.max 0 (f - pattern_length spec)).
  set (b := Z.min (t + pattern_length spec) (doc_length state)).
  set (values := SearchCursor_next (result (stringCursor spec state a b))).
  assert (A : 0 <= a) by (subst a; lia).
  assert (M : map mark_range
                (map (fun r => (r, is_selected state r))
                   (result (highlight (OfString spec) state f t)))
              = values).
  { change (result (highlight (OfString spec) state f t))
      with (map (fun v : SearchResult => (from v, to v)) values).
    rewrite !map_map; apply record_eta. }
  assert (Occ : forall m, In m values -> occurs_within spec state a b m)
    by (intros m; apply next_occurrences; auto).
  destruct (IH (Z.max a (t + pattern_length spec)) S' W') as [C2 F2].
  { intros [f2 t2] more ->; inversion Hd; subst; simpl in *.
    subst a; unfold HighlightMargin in *; lia. }
  split.
  - rewrite map_app, M.
    apply (chained_app values lo (Z.max a (t + pattern_length spec))).
    + apply (chained_from_below values a lo);
        [apply (Lo (f, t) jl eq_refl) | apply next_chained; exact N].
    + apply Forall_forall; intros m I.
      destruct (Occ m I) as (_ & B & T & _); subst b; lia.
    + pose proof (Lo (f, t) jl eq_refl) as L0; simpl in L0; lia.
    + exact C2.
  - apply Forall_app; split.
    + apply Forall_forall; intros m I.
      assert (I' : In (mark_range m) values)
        by (rewrite <- M; apply in_map; exact I).
      exists a, b; split; [left; reflexivity|].
      split; [exact A | split; [subst b; lia | exact (Occ _ I')]].
    + apply Forall_forall; intros m I.
      rewrite Forall_forall in F2.
      destruct (F2 m I) as (lo' & hi' & T & R).
      exists lo', hi'; split; [right; exact T | exact R].
Qed.

(** X13.  For a literal query whose search string is not empty and not
    longer than the margin (250), and visible ranges in ascending order,
    the marks of the highlighter come in ascending order and do not
    overlap, and each is a match of the scan of one of the windows for
    which a cursor was created: the document holds the search string at
    it and, for a whole-word query, its ends are word boundaries, the ends
    of the window counting as boundaries.  When the query does not ask for
    whole words, each mark is an occurrence of the search string in the
    document. *)
Theorem searchHighlighter_marks_ascending `{RegExpHost} (view : EditorView)
    (st : SearchState) (spec : SearchQuery) :
  query st = OfString spec ->
  nonempty (search spec) = true ->
  pattern_length spec <= HighlightMargin ->
  StronglySorted
    (fun x y : Z * Z => fst x <= fst y /\ snd x <= snd y)
    (visibleRanges view) ->
  Forall (fun r => fst r <= snd r) (visibleRanges view) ->
  chained 0
    (map mark_range (result (searchHighlighter_highlight view st)))
  /\ Forall (fun m => scanned_match spec (state view)
                        (trace (searchHighlighter_highlight view st))
                        (mark_range m))
       (result (searchHighlighter_highlight view st))
  /\ (wholeWord spec = false ->
      Forall (fun m => occurs_in spec (state view) 0
                         (doc_length (state view)) (mark_range m))
        (result (searchHighlighter_highlight view st))).
Proof.
  intros Q NE Short S W.
  assert (Main : chained 0
                   (map mark_range
                      (result (searchHighlighter_highlight view st)))
                 /\ Forall (fun m => scanned_match spec (state view)
                              (trace (searchHighlighter_highlight view st))
                              (mark_range m))
                      (result (searchHighlighter_highlight view st))).
  { unfold searchHighlighter_highlight; rewrite Q.
    destruct (negb (panel st) || negb (valid (spec_of (OfString spec))));
      [split; [exact I | constructor]|].
    destruct (visibleRanges view) as [|[f t] rest];
      [split; [exact I | constructor]|].
    inversion W as [|? ? Wf W']; subst; simpl in Wf.
    apply highlight_ranges_chained; auto.
    - apply joined_ranges_margin.
    - apply joined_ranges_wellformed; auto.
    - intros j more E; lia. }
  destruct Main as [C F]; split; [exact C | split; [exact F|]].
  intros Plain; apply Forall_forall; intros m I.
  rewrite Forall_forall in F.
  destruct (F m I) as (lo & hi & _ & Lo & Hi & O).
  apply (occurs_within_plain spec (state view) lo hi _ Plain) in O.
  destruct O as (O1 & O2 & O3 & O4).
  split; [lia | split; [lia | split; [exact O3 | exact O4]]].
Qed.

Lemma searchHighlighter_marks_ascending_at_abc :
  chained 0
    (map mark_range
       (result (@searchHighlighter_highlight literalHost
                  (viewOf (OfString (plainQuery "b")))
                  {| query := OfString (plainQuery "b"); panel := true |}))).
Proof.
  apply (@searchHighlighter_marks_ascending literalHost
           (viewOf (OfString (plainQuery "b")))
           {| query := OfString (plainQuery "b"); panel := true |}
           (plainQuery "b")).
  - reflexivity.
  - reflexivity.
  - vm_compute; discriminate.
  - repeat constructor.
  - repeat constructor; simpl; lia.
Defined.

Lemma Sorted_map {A B : Type} (R : A -> A -> Prop) (R' : B -> B -> Prop)
    (g : A -> B) (l : list A) :
  (forall x y, R x y -> R' (g x) (g y)) ->
  Sorted R l -> Sorted R' (map g l).
Proof.
  intros M; induction 1 as [|a l S IH Hd]; simpl; constructor; [exact IH|].
  destruct Hd; simpl; constructor; apply M; assumption.
Qed.

Lemma highlight_ranges_regexp_trace `{RegExpHost} (spec : SearchQuery)
    (state : EditorState) (jl : list (Z * Z)) :
  trace (highlight_ranges (OfRegExp spec) state jl)
  = map (fun j => NewRegExpCursor (Z.max 0 (fst j - HighlightMargin))
                    (Z.min (snd j + HighlightMargin) (doc_length state)))
      jl.
Proof.
  induction jl as [|[f t] jl IH]; [reflexivity|].
  destruct (highlight_ranges_cons (OfRegExp spec) state f t jl) as [_ ->].
  rewrite IH; reflexivity.
Qed.

(** X14.  With the panel open and a valid regular expression query, the
    highlighter creates one cursor for each joined range, over the range
    widened by the margin (250) on either side and cut to the document;
    these windows come in ascending order without overlap, so that no
    position is scanned twice, and they are no more than the visible
    ranges. *)
Theorem searchHighlighter_regexp_windows `{RegExpHost} (view : EditorView)
    (st : SearchState) (spec : SearchQuery) :
  query st = OfRegExp spec -> panel st = true -> valid spec = true ->
  trace (searchHighlighter_highlight view st)
  = map (fun j => NewRegExpCursor (Z.max 0 (fst j - HighlightMargin))
                    (Z.min (snd j + HighlightMargin)
                       (doc_length (state view))))
      (joined_visible view)
  /\ Sorted (fun x y : Z * Z => snd x <= fst y)
       (map event_range (trace (searchHighlighter_highlight view st)))
  /\ (List.length (trace (searchHighlighter_highlight view st))
      <= List.length (visibleRanges view))%nat.
Proof.
  intros Q P V.
  assert (T : trace (searchHighlighter_highlight view st)
              = map (fun j => NewRegExpCursor
                                (Z.max 0 (fst j - HighlightMargin))
                                (Z.min (snd j + HighlightMargin)
                                   (doc_length (state view))))
                  (joined_visible view)).
  { unfold searchHighlighter_highlight, joined_visible.
    rewrite Q, P; cbn [spec_of]; rewrite V; cbn [negb orb].
    destruct (visibleRanges view) as [|[f t] rest]; [reflexivity|].
    apply highlight_ranges_regexp_trace. }
  rewrite T; split; [reflexivity | split].
  - rewrite map_map; unfold joined_visible.
    destruct (visibleRanges view) as [|[f t] rest]; [constructor|].
    apply (Sorted_map
             (fun x y : Z * Z => snd x + 2 * HighlightMargin <= fst y));
      [|apply joined_ranges_margin].
    intros x y R; unfold HighlightMargin in *; simpl; lia.
  - rewrite length_map; unfold joined_visible.
    destruct (visibleRanges view) as [|[f t] rest]; [simpl; lia|].
    apply joined_ranges_count.
Qed.

Lemma searchHighlighter_regexp_windows_at_abc :
  trace (@searchHighlighter_highlight literalHost
           (viewOf (OfRegExp (regexpQuery "b")))
           {| query := OfRegExp (regexpQuery "b"); panel := true |})
  = [NewRegExpCursor 0 3].
Proof.
  apply (@searchHighlighter_regexp_windows literalHost
           (viewOf (OfRegExp (regexpQuery "b")))
           {| query := OfRegExp (regexpQuery "b"); panel := true |}
           (regexpQuery "b")); reflexivity.
Defined.

(** ** The find commands *)

Lemma view_events_app (l1 l2 : list Event) :
  view_events (l1 ++ l2) = view_events l1 ++ view_events l2.
Proof. apply filter_app. Qed.

Lemma view_events_string_chunks (a : Z) (len : Z) (k : nat) : forall pos,
  view_events (string_chunks a pos len k) = [].
Proof. induction k as [|k IH]; intros pos; simpl; auto. Qed.

Lemma view_events_regexp_chunks (a b : Z) (k : nat) : forall j,
  view_events (regexp_chunks a b j k) = [].
Proof. induction k as [|k IH]; intros j; simpl; auto. Qed.

Lemma nextMatch_view_events `{RegExpHost} (q : QueryType)
    (s : EditorState) (curFrom curTo : Z) :
  view_events (trace (nextMatch q s curFrom curTo)) = [].
Proof.
  destruct q as [spec|spec]; simpl.
  - unfold StringQuery.nextMatch; rewrite trace_bind.
    destruct (SearchCursor_nextOverlapping _); reflexivity.
  - unfold RegExpQuery.nextMatch; rewrite trace_bind.
    destruct (RegExpCursor_next _); reflexivity.
Qed.

Lemma prevMatch_view_events `{RegExpHost} (q : QueryType)
    (s : EditorState) (curFrom curTo : Z) :
  view_events (trace (prevMatch q s curFrom curTo)) = [].
Proof.
  destruct q as [spec|spec]; simpl.
  - unfold StringQuery.prevMatch; rewrite trace_bind, view_events_app.
    destruct (StringQuery_prevMatchInRange_rounds spec s 0 curFrom)
      as (k & _ & -> & _).
    rewrite view_events_string_chunks.
    destruct (result _); [reflexivity|].
    destruct (StringQuery_prevMatchInRange_rounds spec s curTo (doc_length s))
      as (k' & _ & -> & _).
    apply view_events_string_chunks.
  - unfold RegExpQuery.prevMatch; rewrite trace_bind, view_events_app.
    destruct (RegExpQuery_prevMatchInRange_rounds spec s 0 curFrom)
      as (k & _ & -> & _).
    rewrite view_events_regexp_chunks.
    destruct (result _); [reflexivity|].
    destruct (RegExpQuery_prevMatchInRange_rounds spec s curTo (doc_length s))
      as (k' & _ & -> & _).
    apply view_events_regexp_chunks.
Qed.

Lemma find_body_only_selects {A : Type} (m : Traced (option A))
    (g : A -> SearchResult) :
  view_events (trace m) = [] ->
  only_selects
    (next <- m ;;
     match next with
     | None => ret false
     | Some r => select_single (g r) (js "select.search") ;;; ret true
     end)
  /\ (result (next <- m ;;
              match next with
              | None => ret false
              | Some r => select_single (g r) (js "select.search") ;;; ret true
              end) = true <-> result m <> None)
  /\ (forall tr,
        In (Dispatch tr)
          (trace (next <- m ;;
                  match next with
                  | None => ret false
                  | Some r =>
                      select_single (g r) (js "select.search") ;;; ret true
                  end)) ->
        exists r, result m = Some r
                  /\ tr_selection tr = [(from (g r), to (g r))]).
Proof.
  intros E; unfold only_selects.
  rewrite result_bind, trace_bind, view_events_app, E.
  destruct (result m) as [r|]; cbn.
  - split; [repeat split; eexists; reflexivity|].
    split; [split; [discriminate | reflexivity]|].
    intros tr I; apply in_app_iff in I as [I|[I|[]]].
    + assert (V : In (Dispatch tr) (view_events (trace m)))
        by (apply filter_In; split; [exact I | reflexivity]).
      rewrite E in V; contradiction.
    + inversion I; subst; exists r; split; reflexivity.
  - split; [reflexivity|].
    split; [split; [discriminate | intros N; contradiction]|].
    intros tr I; apply in_app_iff in I as [I|[]].
    assert (V : In (Dispatch tr) (view_events (trace m)))
      by (apply filter_In; split; [exact I | reflexivity]).
    rewrite E in V; contradiction.
Qed.

(** X15.  [findNext] and [findPrevious] never change the document: each
    either asks nothing of the view and returns false, or opens the search
    panel, or dispatches one transaction that selects one range, has no
    changes and the user event [select.search], and returns true. *)
Theorem find_commands_only_select `{RegExpHost} (view : EditorView) :
  only_selects (findNext view) /\ only_selects (findPrevious view).
Proof.
  unfold findNext, findPrevious, searchCommand.
  destruct (field_searchState view) as [st|];
    [|split; reflexivity].
  destruct (valid (spec_of (query st))); [|split; reflexivity].
  split.
  - apply (find_body_only_selects
             (nextMatch (query st) (state view) (selection_to (state view))
                (selection_to (state view))) range_of).
    apply nextMatch_view_events.
  - apply (find_body_only_selects
             (prevMatch (query st) (state view) (selection_from (state view))
                (selection_from (state view))) range_of).
    apply prevMatch_view_events.
Qed.

Lemma StringQuery_nextMatch_result (spec : SearchQuery) (s : EditorState)
    (curFrom curTo : Z) :
  result (StringQuery.nextMatch spec s curFrom curTo)
  = match hd_error (SearchCursor_nextOverlapping
                      (result (stringCursor spec s curTo (doc_length s))))
    with
    | Some m => Some m
    | None => hd_error (SearchCursor_nextOverlapping
                          (result (stringCursor spec s 0 curFrom)))
    end.
Proof.
  unfold StringQuery.nextMatch; rewrite result_bind.
  destruct (SearchCursor_nextOverlapping
              (result (stringCursor spec s curTo (doc_length s))));
    reflexivity.
Qed.

Lemma StringQuery_nextMatch_first (spec : SearchQuery) (s : EditorState)
    (curFrom curTo : Z) :
  unquoted spec <> [] -> 0 <= curTo ->
  match result (StringQuery.nextMatch spec s curFrom curTo) with
  | Some m =>
      first_within spec s curTo (doc_length s) (Some m)
      \/ (first_within spec s curTo (doc_length s) None
          /\ first_within spec s 0 curFrom (Some m))
  | None =>
      first_within spec s curTo (doc_length s) None
      /\ first_within spec s 0 curFrom None
  end.
Proof.
  intros N C; rewrite StringQuery_nextMatch_result.
  pose proof (nextOverlapping_first spec s curTo (doc_length s) C N) as F1.
  pose proof (nextOverlapping_first spec s 0 curFrom (Z.le_refl 0) N) as F2.
  destruct (hd_error (SearchCursor_nextOverlapping
                        (result (stringCursor spec s curTo (doc_length s)))))
    as [m|]; [left; exact F1|].
  destruct (hd_error (SearchCursor_nextOverlapping
                        (result (stringCursor spec s 0 curFrom))))
    as [m|]; [right; split; assumption | split; assumption].
Qed.

(** X16.  For a valid literal query, [findNext] with the selection ending
    at [pos] returns true exactly when the scan of [[pos, doc.length)] or
    the scan of [[0, pos)] has a match; a range that begins before [pos]
    and ends after it is not found.  The range it selects is the match of
    the scan of [[pos, doc.length)] that starts first or, if that scan has
    none, the one of the scan of [[0, pos)] that starts first.  A match of
    a scan lies inside the scanned range, the document holds the search
    string at it and, for a whole-word query, its ends are word
    boundaries, the ends of the scanned range counting as boundaries; so
    [findNext] returns true whenever the search string occurs in the
    document inside one of the two ranges. *)
Theorem findNext_literal `{RegExpHost} (view : EditorView)
    (st : SearchState) (spec : SearchQuery) :
  field_searchState view = Some st -> query st = OfString spec ->
  valid spec = true -> 0 <= selection_to (state view) ->
  let s := state view in
  let pos := selection_to s in
  (result (findNext view) = true
   <-> exists m, occurs_within spec s pos (doc_length s) m
                 \/ occurs_within spec s 0 pos m)
  /\ (forall tr,
        In (Dispatch tr) (trace (findNext view)) ->
        exists m,
          tr_selection tr = [(from m, to m)]
          /\ (first_within spec s pos (doc_length s) (Some m)
              \/ (first_within spec s pos (doc_length s) None
                  /\ first_within spec s 0 pos (Some m))))
  /\ (forall m,
        occurs_in spec s pos (doc_length s) m \/ occurs_in spec s 0 pos m ->
        result (findNext view) = true).
Proof.
  intros F Q V P; cbv zeta.
  set (s := state view) in *; set (pos := selection_to s) in *.
  assert (N : unquoted spec <> []).
  { apply unquoted_nonempty; unfold valid in V.
    apply andb_true_iff in V as [V _]; exact V. }
  unfold findNext, searchCommand; rewrite F, Q; cbn [spec_of]; rewrite V.
  fold s; fold pos.
  destruct (find_body_only_selects
              (nextMatch (OfString spec) s pos pos) range_of
              (nextMatch_view_events (OfString spec) s pos pos))
    as (_ & R & D).
  pose proof (StringQuery_nextMatch_first spec s pos pos N P) as First.
  cbn [nextMatch] in R, D.
  assert (RN : result (StringQuery.nextMatch spec s pos pos) <> None
               <-> exists m, occurs_within spec s pos (doc_length s) m
                             \/ occurs_within spec s 0 pos m).
  { destruct (result (StringQuery.nextMatch spec s pos pos)) as [m|].
    - split; [intros _ | discriminate].
      exists m; destruct First as [[O _]|[_ [O _]]]; auto.
    - split; [intros K; contradiction|].
      intros (m & [O|O]); exfalso;
        [apply (proj1 First m O) | apply (proj2 First m O)]. }
  split; [rewrite R; exact RN | split].
  - intros tr I.
    destruct (D tr I) as (r & E & Sel).
    destruct (result (StringQuery.nextMatch spec s pos pos)) as [m|] eqn:E'.
    + pose proof (eq_trans (eq_sym E') E) as K.
      inversion K; subst; exists r; split; [exact Sel | exact First].
    + pose proof (eq_trans (eq_sym E') E) as K; discriminate K.
  - intros m O; apply R, RN; exists m.
    destruct O as [O|O]; [left | right]; apply occurs_in_within; auto.
Qed.

Lemma findNext_literal_at_abc :
  result (@findNext literalHost (viewOf (OfString (plainQuery "b")))) = true
  <-> exists m,
        occurs_within (plainQuery "b") (plainState (js "abc")) 0 3 m
        \/ occurs_within (plainQuery "b") (plainState (js "abc")) 0 0 m.
Proof.
  apply (@findNext_literal literalHost (viewOf (OfString (plainQuery "b")))
           {| query := OfString (plainQuery "b"); panel := true |}
           (plainQuery "b")); try reflexivity; simpl; lia.
Defined.

(** X17.  For a valid literal query, [findPrevious] with the selection
    starting at [pos] answers with the backward search of [[0, pos)] and,
    only if that has no answer, of [[pos, doc.length)]: it returns true
    exactly when one of the two has an answer, and selects that answer.
    The answer for a range is the match that starts last in the first
    window, going back from the end of the range, whose scan has a match.
    When the query does not ask for whole words, the answer is the
    occurrence of the search string inside the range that starts last.
    [findPrevious] returns true whenever the search string occurs in the
    document inside one of the two ranges. *)
Theorem findPrevious_literal `{RegExpHost} (view : EditorView)
    (st : SearchState) (spec : SearchQuery) :
  field_searchState view = Some st -> query st = OfString spec ->
  valid spec = true -> 0 <= selection_from (state view) ->
  let s := state view in
  let pos := selection_from s in
  (exists r1 r2,
     window_answer spec s 0 pos r1
     /\ window_answer spec s pos (doc_length s) r2
     /\ (result (findPrevious view) = true <-> r1 <> None \/ r2 <> None)
     /\ (forall tr,
           In (Dispatch tr) (trace (findPrevious view)) ->
           exists m,
             tr_selection tr = [(from m, to m)]
             /\ (r1 = Some m \/ (r1 = None /\ r2 = Some m)))
     /\ (wholeWord spec = false ->
         last_occurrence spec s 0 pos r1
         /\ last_occurrence spec s pos (doc_length s) r2))
  /\ (forall m,
        occurs_in spec s 0 pos m \/ occurs_in spec s pos (doc_length s) m ->
        result (findPrevious view) = true).
Proof.
  intros F Q V P; cbv zeta.
  set (s := state view) in *; set (pos := selection_from s) in *.
  assert (N : unquoted spec <> []).
  { apply unquoted_nonempty; unfold valid in V.
    apply andb_true_iff in V as [V _]; exact V. }
  unfold findPrevious, searchCommand; rewrite F, Q; cbn [spec_of]; rewrite V.
  fold s; fold pos.
  destruct (find_body_only_selects
              (prevMatch (OfString spec) s pos pos) range_of
              (prevMatch_view_events (OfString spec) s pos pos))
    as (_ & R & D).
  cbn [prevMatch] in R, D.
  pose proof (last_occurrence_wrap spec s pos pos) as Wrap.
  set (r1 := result (StringQuery.prevMatchInRange spec s 0 pos)) in *.
  set (r2 := result (StringQuery.prevMatchInRange spec s pos (doc_length s)))
    in *.
  assert (RN : result (StringQuery.prevMatch spec s pos pos) <> None
               <-> r1 <> None \/ r2 <> None).
  { rewrite Wrap; destruct r1 as [m|].
    - split; [left|]; discriminate.
    - split; [right; assumption | intros [K|K]; [contradiction | exact K]]. }
  split.
  - exists r1, r2.
    split; [apply StringQuery_prevMatchInRange_answer; [lia | exact N]|].
    split; [apply StringQuery_prevMatchInRange_answer; [exact P | exact N]|].
    split; [rewrite R; exact RN | split].
    + intros tr I.
      destruct (D tr I) as (r & E & Sel).
      exists r; split; [exact Sel|].
      assert (K : match r1 with Some m => Some m | None => r2 end = Some r)
        by (rewrite <- Wrap; exact E).
      destruct r1 as [m|]; [left; exact K | right; split; auto].
    + intros Plain; split; apply StringQuery_prevMatchInRange_last; auto; lia.
  - intros m O; apply R, RN.
    destruct O as [O|O].
    + left.
      destruct (StringQuery_prevMatchInRange_bound spec s 0 pos m
                  (Z.le_refl 0) N O) as (r & E & _).
      fold r1 in E; rewrite E; discriminate.
    + right.
      destruct (StringQuery_prevMatchInRange_bound spec s pos (doc_length s)
                  m P N O) as (r & E & _).
      fold r2 in E; rewrite E; discriminate.
Qed.

Lemma findPrevious_literal_at_abc :
  result (@findPrevious literalHost (viewOf (OfString (plainQuery "b"))))
  = true.
Proof.
  refine (proj2 (@findPrevious_literal literalHost
                   (viewOf (OfString (plainQuery "b")))
                   {| query := OfString (plainQuery "b"); panel := true |}
                   (plainQuery "b") eq_refl eq_refl eq_refl _)
            {| from := 1; to := 2 |} _).
  - simpl; lia.
  - right; unfold occurs_in, occurs; repeat split; vm_compute;
      first [reflexivity | discriminate].
Defined.

(** ** Selecting all matches *)

Lemma matchAll_result `{RegExpHost} (q : QueryType) (s : EditorState)
    (limit : Z) :
  result (matchAll q s limit) = collect (all_matches q s) [] limit.
Proof. destruct q; reflexivity. Qed.

Lemma matchAll_view_events `{RegExpHost} (q : QueryType) (s : EditorState)
    (limit : Z) :
  view_events (trace (matchAll q s limit)) = [].
Proof. destruct q; reflexivity. Qed.

(** X18.  With a valid query, [selectMatches] returns true exactly when
    the document has at least one match and at most 1000; it then
    dispatches one transaction, which selects the ranges of all matches in
    the order of the scan and changes nothing.  Otherwise it asks nothing
    of the view. *)
Theorem selectMatches_all_or_nothing `{RegExpHost} (view : EditorView)
    (st : SearchState) :
  field_searchState view = Some st -> valid (spec_of (query st)) = true ->
  let ms := all_matches (query st) (state view) in
  (result (selectMatches view) = true
   <-> (1 <= List.length ms <= 1000)%nat)
  /\ view_events (trace (selectMatches view))
     = if result (selectMatches view)
       then [Dispatch
               {| tr_selection :=
                    map (fun r => (from (range_of r), to (range_of r))) ms;
                  tr_changes := [];
                  tr_userEvent := js "select.search.matches" |}]
       else [].
Proof.
  intros F V; cbv zeta.
  unfold selectMatches, searchCommand; rewrite F, V.
  rewrite result_bind, trace_bind, view_events_app, matchAll_view_events.
  rewrite matchAll_result, collect_limit by (simpl; lia).
  cbn [List.length Nat.add app].
  destruct (Z.ltb_spec 1000
              (Z.of_nat (List.length (all_matches (query st) (state view)))))
    as [G|G].
  - split; [split; [discriminate | lia] | reflexivity].
  - destruct (all_matches (query st) (state view)) as [|m ms] eqn:E.
    + split; [split; [discriminate | simpl; lia] | reflexivity].
    + split; [split; [simpl in *; lia | reflexivity] | reflexivity].
Qed.

Lemma selectMatches_all_or_nothing_at_abc :
  result (@selectMatches literalHost (viewOf (OfString (plainQuery "b"))))
  = true
  <-> (1 <= List.length
              (@all_matches literalHost (OfString (plainQuery "b"))
                 (plainState (js "abc")))
       <= 1000)%nat.
Proof.
  apply (@selectMatches_all_or_nothing literalHost
           (viewOf (OfString (plainQuery "b")))
           {| query := OfString (plainQuery "b"); panel := true |});
    reflexivity.
Defined.

Lemma select_loop_result (values : list SearchResult) :
  forall (ranges : list (Z * Z)) (main : nat) (selFrom : Z),
  (List.length ranges <= 1001)%nat ->
  (select_loop values ranges main selFrom = None
   <-> (1001 < List.length ranges + List.length values)%nat)
  /\ forall R M,
       select_loop values ranges main selFrom = Some (R, M) ->
       R = ranges ++ map (fun v : SearchResult => (from v, to v)) values
       /\ ((M = main /\ Forall (fun v => from v <> selFrom) values)
           \/ exists v, In v values /\ from v = selFrom
                        /\ nth_error R M = Some (from v, to v)).
Proof.
  induction values as [|v rest IH]; intros ranges main selFrom L;
    cbn [select_loop].
  - split; [split; [discriminate | simpl; lia]|].
    intros R M [= <- <-]; rewrite app_nil_r; split; [reflexivity|].
    left; split; [reflexivity | constructor].
  - destruct (Z.ltb_spec 1000 (Z.of_nat (List.length ranges))) as [G|G].
    + split; [split; [simpl; lia | reflexivity] | discriminate].
    + destruct (IH (ranges ++ [(from v, to v)])
                  (if from v =? selFrom then List.length ranges else main)
                  selFrom) as [N S];
        [rewrite length_app; simpl; lia|].
      split.
      * rewrite N, length_app; simpl; lia.
      * intros R M E; destruct (S R M E) as [-> C].
        rewrite <- app_assoc; split; [reflexivity|].
        destruct C as [[-> F]|(v' & I & E' & Nth)].
        -- destruct (Z.eqb_spec (from v) selFrom) as [Eq|Ne].
           ++ right; exists v; split; [left; reflexivity | split; [exact Eq|]].
              rewrite nth_error_app2 by lia.
              rewrite Nat.sub_diag; reflexivity.
           ++ left; split; [reflexivity | constructor; assumption].
        -- right; exists v'; split; [right; exact I | split; [exact E'|]].
           rewrite <- app_assoc in Nth; exact Nth.
Qed.

(** X19.  With one selection range [[from, to)] that is not empty and
    lies in the document, [selectSelectionMatches] scans the whole
    document once for the selected text, taken literally and with its
    case.  It returns false exactly when there are more than 1001 matches;
    otherwise the selection it dispatches is never empty, holds the ranges
    of all matches in order, each with the same text as the selection, and
    its main index is a valid index, which points to the selected range
    itself when that range is among the matches. *)
Theorem selectSelectionMatches_selection (state : EditorState) :
  (List.length (selection_ranges state) <= 1)%nat ->
  0 <= selection_from state -> selection_from state < selection_to state ->
  selection_to state <= doc_length state ->
  let sel := (selection_from state, selection_to state) in
  let values := selection_matches state in
  trace (selectSelectionMatches state)
  = [NewSearchCursor 0 (doc_length state)]
  /\ (result (selectSelectionMatches state) = None
      <-> (1001 < List.length values)%nat)
  /\ forall R M,
       result (selectSelectionMatches state) = Some (R, M) ->
       R = map (fun v : SearchResult => (from v, to v)) values
       /\ R <> [] /\ (M < List.length R)%nat
       /\ (forall f t, In (f, t) R ->
             sliceString (doc state) f t
             = sliceString (doc state) (fst sel) (snd sel))
       /\ (In sel R -> nth_error R M = Some sel).
Proof.
  intros One A B C; cbv zeta.
  set (spec := selectionQuery state).
  set (len := doc_length state).
  assert (U : unquoted spec
              = sliceString (doc state) (selection_from state)
                  (selection_to state)) by reflexivity.
  assert (PL : pattern_length spec
               = selection_to state - selection_from state).
  { unfold pattern_length; rewrite U; apply sliceString_length; auto; lia. }
  assert (N : unquoted spec <> []).
  { intros E; unfold pattern_length, strlen in PL; rewrite E in PL.
    simpl in PL; lia. }
  assert (Run : selectSelectionMatches state
                = (select_loop (selection_matches state) [] O
                     (selection_from state),
                   [NewSearchCursor 0 len])).
  { unfold selectSelectionMatches.
    destruct (Z.ltb_spec 1 (Z.of_nat (List.length (selection_ranges state))));
      [lia|].
    destruct (Z.eqb_spec (selection_from state) (selection_to state));
      [lia | reflexivity]. }
  rewrite Run; cbn [trace result fst snd].
  destruct (select_loop_result (selection_matches state) [] O
              (selection_from state)) as [None_iff Some_spec]; [simpl; lia|].
  split; [reflexivity | split; [exact None_iff|]].
  intros R M E; destruct (Some_spec R M E) as [-> Main].
  cbn [app] in *.
  assert (Occ : forall m, In m (selection_matches state) ->
                  occurs_in spec state 0 len m).
  { intros m I; apply (occurs_within_whole spec state m N).
    apply next_occurrences; [lia | exact N | exact I]. }
  assert (Self : occurs_in spec state 0 len
                   {| from := selection_from state;
                      to := selection_to state |}).
  { unfold occurs_in, occurs; cbn [from to]; rewrite PL.
    replace (selection_from state
             + (selection_to state - selection_from state))
      with (selection_to state) by lia.
    rewrite U; unfold word_ok; cbn [wholeWord spec selectionQuery].
    subst len; repeat split; auto; lia. }
  assert (Sorted_from : StronglySorted
            (fun x y : SearchResult => from x < from y /\ to x <= from y)
            (selection_matches state)).
  { apply (chained_sorted _ 0); [apply next_chained; exact N|].
    apply Forall_forall; intros m I.
    destruct (Occ m I) as (_ & _ & T & _); lia. }
  assert (NE : selection_matches state <> []).
  { destruct (next_covers spec state 0 len (Z.le_refl 0) N _
                (proj2 (occurs_within_whole spec state _ N) Self))
      as (m' & I & _).
    intros Em; unfold selection_matches in Em; subst spec len.
    rewrite Em in I; contradiction. }
  split; [reflexivity | split; [|split; [|split]]].
  - destruct (selection_matches state); [contradiction | discriminate].
  - destruct Main as [[-> _]|(v & _ & _ & Nth)].
    + destruct (selection_matches state); [contradiction | simpl; lia].
    + apply nth_error_Some; rewrite Nth; discriminate.
  - intros f t I; apply in_map_iff in I as (m & E' & I); inversion E'; subst.
    destruct (Occ m I) as (_ & _ & T & _ & _ & S & _).
    rewrite T, PL. unfold normalizer in S; cbn [caseSensitive spec
      selectionQuery] in S.
    rewrite !map_id, PL, U in S; exact S.
  - intros I; apply in_map_iff in I as (m & E' & I); inversion E' as [[Ef Et]].
    destruct Main as [[_ F]|(v & Iv & Ev & Nth)].
    + rewrite Forall_forall in F; exfalso; apply (F m I); exact Ef.
    + destruct (sorted_pair _ _ _ _ Sorted_from I Iv) as [->|[R|R]];
        [|lia|lia].
      rewrite Nth, Ef, Et; reflexivity.
Qed.

Lemma selectSelectionMatches_selection_at_abab :
  trace (selectSelectionMatches
           {| doc := js "abab"; selection_from := 2; selection_to := 4;
              selection_head := 4; selection_ranges := [(2, 4)];
              readOnly := false; classify := fun _ _ => Other |})
  = [NewSearchCursor 0 4].
Proof.
  apply (selectSelectionMatches_selection
           {| doc := js "abab"; selection_from := 2; selection_to := 4;
              selection_head := 4; selection_ranges := [(2, 4)];
              readOnly := false; classify := fun _ _ => Other |});
    unfold doc_length, strlen; simpl; lia.
Defined.

(** ** The replace commands *)

Section ReplaceNext.
Context `{RegExpHost}.
Variable textLength : str -> Z.
Variables (view : EditorView) (st : SearchState).

Let s : EditorState := state view.
Let q : QueryType := query st.

Lemma replaceNext_events :
  field_searchState view = Some st -> valid (spec_of q) = true ->
  readOnly s = false ->
  view_events (trace (replaceNext textLength view))
  = match result (nextMatch q s (selection_from s) (selection_from s)) with
    | None => []
    | Some r =>
        if (from (range_of r) =? selection_from s)
           && (to (range_of r) =? selection_to s)
        then
          [Dispatch
             {| tr_selection :=
                  match result (nextMatch q s (from (range_of r))
                                  (to (range_of r))) with
                  | Some n =>
                      [replaceNext_selection
                         [(from (range_of r), to (range_of r),
                           getReplacement q r)]
                         (textLength (getReplacement q r)) (range_of n)]
                  | None => []
                  end;
                tr_changes :=
                  [(from (range_of r), to (range_of r), getReplacement q r)];
                tr_userEvent := js "input.replace" |}]
        else
          [Dispatch
             {| tr_selection := [replaceNext_selection [] 0 (range_of r)];
                tr_changes := [];
                tr_userEvent := js "input.replace" |}]
    end
  /\ result (replaceNext textLength view)
     = match result (nextMatch q s (selection_from s) (selection_from s))
       with
       | None => false
       | Some _ => true
       end.
Proof.
  intros F V RO; unfold replaceNext, searchCommand.
  rewrite F; fold q; rewrite V; fold s; rewrite RO.
  rewrite result_bind, trace_bind, view_events_app, nextMatch_view_events.
  destruct (result (nextMatch q s (selection_from s) (selection_from s)))
    as [r|]; [|split; reflexivity].
  destruct ((from (range_of r) =? selection_from s)
            && (to (range_of r) =? selection_to s)).
  - rewrite result_bind, trace_bind, view_events_app, nextMatch_view_events.
    split; reflexivity.
  - split; reflexivity.
Qed.

End ReplaceNext.

Lemma in_view_events (e : Event) (t : list Event) :
  is_cursor_event e = false -> In e t -> In e (view_events t).
Proof.
  intros C I; apply filter_In; split; [exact I | rewrite C; reflexivity].
Qed.

(** X20.  [replaceNext] changes nothing but the main selection.  Every
    transaction it dispatches has the user event [input.replace] and at
    most one selection range, and goes with a match that [nextMatch] finds
    from the start of the main selection.  When that match is the main
    selection itself, the transaction has one change, which replaces the
    range of the main selection by the replacement text of the match.
    When it is not, the transaction has no change and selects the match.
    On a read-only state [replaceNext] dispatches nothing and creates no
    cursor. *)
Theorem replaceNext_changes_selection `{RegExpHost} (textLength : str -> Z)
    (view : EditorView) :
  (forall tr,
     In (Dispatch tr) (trace (replaceNext textLength view)) ->
     readOnly (state view) = false
     /\ tr_userEvent tr = js "input.replace"
     /\ (List.length (tr_selection tr) <= 1)%nat
     /\ exists st r,
          field_searchState view = Some st
          /\ result (nextMatch (query st) (state view)
                       (selection_from (state view))
                       (selection_from (state view))) = Some r
          /\ ((from (range_of r) = selection_from (state view)
               /\ to (range_of r) = selection_to (state view)
               /\ tr_changes tr
                  = [(selection_from (state view), selection_to (state view),
                      getReplacement (query st) r)])
              \/ (~ (from (range_of r) = selection_from (state view)
                     /\ to (range_of r) = selection_to (state view))
                  /\ tr_changes tr = []
                  /\ tr_selection tr
                     = [(from (range_of r), to (range_of r))])))
  /\ (readOnly (state view) = true ->
      forall e, In e (trace (replaceNext textLength view)) ->
                e = OpenSearchPanel).
Proof.
  split.
  - intros tr I.
    destruct (field_searchState view) as [st|] eqn:F;
      [|unfold replaceNext, searchCommand in I; rewrite F in I;
        destruct I as [I|[]]; discriminate I].
    destruct (valid (spec_of (query st))) eqn:V;
      [|unfold replaceNext, searchCommand in I; rewrite F, V in I;
        destruct I as [I|[]]; discriminate I].
    destruct (readOnly (state view)) eqn:RO;
      [unfold replaceNext, searchCommand in I; rewrite F, V, RO in I;
       destruct I|].
    destruct (replaceNext_events textLength view st F V RO) as [E _].
    apply (in_view_events (Dispatch tr) _ eq_refl) in I.
    rewrite E in I; clear E.
    destruct (result (nextMatch (query st) (state view)
                        (selection_from (state view))
                        (selection_from (state view)))) as [r|] eqn:N;
      [|destruct I].
    destruct (Z.eqb_spec (from (range_of r)) (selection_from (state view)))
      as [Ef|Nf]; cbn [andb] in I.
    + destruct (Z.eqb_spec (to (range_of r)) (selection_to (state view)))
        as [Et|Nt].
      * destruct I as [[= <-]|[]]; cbn.
        split; [auto | split; [reflexivity | split]].
        -- destruct (result (nextMatch (query st) (state view)
                               (from (range_of r)) (to (range_of r))));
             simpl; lia.
        -- exists st, r; split; [auto | split; [auto | left]].
           rewrite Ef, Et; auto.
      * destruct I as [[= <-]|[]]; cbn.
        split; [auto | split; [reflexivity | split; [lia|]]].
        exists st, r; split; [auto | split; [auto | right]].
        split; [tauto | split; [reflexivity|]].
        unfold replaceNext_selection; rewrite !Z.sub_0_r; reflexivity.
    + destruct I as [[= <-]|[]]; cbn.
      split; [auto | split; [reflexivity | split; [lia|]]].
      exists st, r; split; [auto | split; [auto | right]].
      split; [tauto | split; [reflexivity|]].
      unfold replaceNext_selection; rewrite !Z.sub_0_r; reflexivity.
  - intros RO e I; unfold replaceNext, searchCommand in I.
    destruct (field_searchState view) as [st|];
      [|destruct I as [<-|[]]; reflexivity].
    destruct (valid (spec_of (query st)));
      [|destruct I as [<-|[]]; reflexivity].
    rewrite RO in I; destruct I.
Qed.

Lemma occurrence_unique (spec : SearchQuery) (s : EditorState) (a b a' b' : Z)
    (m m' : SearchResult) :
  occurs_within spec s a b m -> occurs_within spec s a' b' m' ->
  from m = from m' -> m = m'.
Proof.
  intros (_ & _ & T & _) (_ & _ & T' & _) E.
  destruct m as [f t], m' as [f' t']; simpl in *; f_equal; lia.
Qed.

(** X21.  For a valid literal query on a state that is not read-only, when
    the main selection [[a, b)] is an occurrence of the search string
    (as after [findNext]), [replaceNext] returns true and dispatches one
    transaction: it replaces [[a, b)] by the unquoted replacement text and
    selects the match that [nextMatch] finds from [a] and [b], at the
    place where that match lies once the change is made; no range is
    selected when there is no other match. *)
Theorem replaceNext_literal `{RegExpHost} (textLength : str -> Z)
    (view : EditorView) (st : SearchState) (spec : SearchQuery) :
  field_searchState view = Some st -> query st = OfString spec ->
  valid spec = true -> readOnly (state view) = false ->
  occurs_in spec (state view) 0 (doc_length (state view))
    {| from := selection_from (state view);
       to := selection_to (state view) |} ->
  let s := state view in
  let a := selection_from s in
  let b := selection_to s in
  let text := unquote spec (replace spec) in
  result (replaceNext textLength view) = true
  /\ view_events (trace (replaceNext textLength view))
     = [Dispatch
          {| tr_selection :=
               match result (StringQuery.nextMatch spec s a b) with
               | Some n =>
                   [(mapPos a b (textLength text) (from n),
                     mapPos a b (textLength text) (to n))]
               | None => []
               end;
             tr_changes := [(a, b, text)];
             tr_userEvent := js "input.replace" |}].
Proof.
  intros F Q V RO Sel; cbv zeta.
  destruct st as [q p]; cbn [query] in Q; subst q.
  set (s := state view) in *.
  set (a := selection_from s) in *; set (b := selection_to s) in *.
  assert (N : unquoted spec <> []).
  { apply unquoted_nonempty; unfold valid in V.
    apply andb_true_iff in V as [V _]; exact V. }
  pose proof (pattern_length_pos spec N) as P.
  pose proof Sel as (A0 & B0 & T0 & O0); cbn [from to] in A0, B0, T0, O0.
  assert (Here : result (StringQuery.nextMatch spec s a a)
                 = Some {| from := a; to := b |}).
  { pose proof (StringQuery_nextMatch_first spec s a a N A0) as First.
    assert (In_first : occurs_within spec s a (doc_length s)
                         {| from := a; to := b |}).
    { apply occurs_in_within; [exact N|].
      split; [cbn; lia | split; [exact B0 | split; assumption]]. }
    destruct (result (StringQuery.nextMatch spec s a a)) as [m|].
    - destruct First as [[O Min]|[None_first _]];
        [|exfalso; apply (None_first _ In_first)].
      f_equal; apply (occurrence_unique spec s a (doc_length s) a
                        (doc_length s)); auto.
      pose proof (Min _ In_first) as Le; destruct O as (Ge & _).
      cbn [from] in *; lia.
    - exfalso; apply (proj1 First _ In_first). }
  destruct (replaceNext_events textLength view
              {| query := OfString spec; panel := p |} F V RO) as [E R].
  cbn [query nextMatch range_of getReplacement ResultOf] in E, R.
  fold s in E, R; fold a in E, R; fold b in E.
  rewrite R; clear R.
  rewrite Here in E |- *; cbn [from to] in E.
  rewrite !Z.eqb_refl in E; cbn [andb] in E.
  split; [reflexivity|]; rewrite E; clear E.
  pose proof (StringQuery_nextMatch_first spec s a b N ltac:(lia)) as Next.
  destruct (result (StringQuery.nextMatch spec s a b)) as [n|];
    [|reflexivity].
  unfold replaceNext_selection, mapPos, StringQuery.getReplacement.
  assert (Where : occurs_within spec s b (doc_length s) n
                  \/ occurs_within spec s 0 a n)
    by (destruct Next as [[O _]|[_ [O _]]]; auto).
  destruct Where as [(W1 & _ & W2 & _)|(_ & W1 & W2 & _)].
  - destruct (Z.leb_spec (to n) a); [lia|].
    destruct (Z.leb_spec b (from n)); [|lia].
    destruct (Z.leb_spec b (to n)); [|lia].
    set (X := textLength (unquote spec (replace spec))).
    replace (from n - (to n - from n - X)) with (from n - (b - a) + X) by lia.
    replace (to n - (to n - from n - X)) with (to n - (b - a) + X) by lia.
    reflexivity.
  - destruct (Z.leb_spec (to n) a); [|lia].
    destruct (Z.leb_spec b (from n)); [lia|].
    destruct (Z.leb_spec b (to n)); [lia|].
    rewrite !Z.sub_0_r; reflexivity.
Qed.

Lemma replaceNext_literal_at_abab :
  result (@replaceNext literalHost strlen
            {| state :=
                 {| doc := js "abab"; selection_from := 0; selection_to := 2;
                    selection_head := 2; selection_ranges := [(0, 2)];
                    readOnly := false; classify := fun _ _ => Other |};
               field_searchState :=
                 Some {| query := OfString (plainQuery "ab"); panel := true |};
               visibleRanges := [] |})
  = true.
Proof.
  apply (@replaceNext_literal literalHost strlen
           {| state :=
                {| doc := js "abab"; selection_from := 0; selection_to := 2;
                   selection_head := 2; selection_ranges := [(0, 2)];
                   readOnly := false; classify := fun _ _ => Other |};
              field_searchState :=
                Some {| query := OfString (plainQuery "ab"); panel := true |};
              visibleRanges := [] |}
           {| query := OfString (plainQuery "ab"); panel := true |}
           (plainQuery "ab")); try reflexivity.
  unfold occurs_in, occurs; repeat split; vm_compute;
    first [reflexivity | discriminate].
Defined.

Lemma replaceAll_run `{RegExpHost} (view : EditorView) (st : SearchState) :
  field_searchState view = Some st -> valid (spec_of (query st)) = true ->
  readOnly (state view) = false ->
  let ms := all_matches (query st) (state view) in
  result (replaceAll view)
  = (if 1000000000 <? Z.of_nat (List.length ms) then None
     else Some (match ms with [] => false | _ :: _ => true end))
  /\ view_events (trace (replaceAll view))
     = if 1000000000 <? Z.of_nat (List.length ms) then []
       else match ms with
            | [] => []
            | _ :: _ =>
                [Dispatch
                   {| tr_selection := [];
                      tr_changes :=
                        map (fun r => (from (range_of r), to (range_of r),
                                       getReplacement (query st) r)) ms;
                      tr_userEvent := js "input.replace.all" |}]
            end.
Proof.
  intros F V RO; cbv zeta.
  unfold replaceAll, replaceAll_body; rewrite F, V, RO.
  rewrite result_bind, trace_bind, view_events_app, matchAll_view_events.
  rewrite matchAll_result, collect_limit by (simpl; lia).
  cbn [List.length Nat.add app].
  destruct (1000000000 <? Z.of_nat (List.length
                                      (all_matches (query st) (state view))));
    [split; reflexivity|].
  destruct (all_matches (query st) (state view)); split; reflexivity.
Qed.

(** X22.  With a valid query on a state that is not read-only,
    [replaceAll] scans the document once.  With more than 10^9 matches
    the null that [matchAll] returns is not checked and the command fails
    with a type error; otherwise it returns true exactly when there is a
    match, and then dispatches one transaction with one change for each
    match, in the order of the scan, that puts the replacement text of the
    match in its range, and with no selection. *)
Theorem replaceAll_changes `{RegExpHost} (view : EditorView)
    (st : SearchState) :
  field_searchState view = Some st -> valid (spec_of (query st)) = true ->
  readOnly (state view) = false ->
  let ms := all_matches (query st) (state view) in
  (result (replaceAll view) = None
   <-> 1000000000 < Z.of_nat (List.length ms))
  /\ (result (replaceAll view) = Some true
      <-> ms <> [] /\ Z.of_nat (List.length ms) <= 1000000000)
  /\ (result (replaceAll view) = Some true ->
      view_events (trace (replaceAll view))
      = [Dispatch
           {| tr_selection := [];
              tr_changes :=
                map (fun r => (from (range_of r), to (range_of r),
                               getReplacement (query st) r)) ms;
              tr_userEvent := js "input.replace.all" |}])
  /\ (result (replaceAll view) <> Some true ->
      view_events (trace (replaceAll view)) = []).
Proof.
  intros F V RO; cbv zeta.
  destruct (replaceAll_run view st F V RO) as [-> ->].
  destruct (Z.ltb_spec 1000000000
              (Z.of_nat (List.length (all_matches (query st) (state view)))))
    as [G|G].
  - split; [split; [lia | reflexivity]|].
    split; [split; [discriminate | lia]|].
    split; [discriminate | reflexivity].
  - split; [split; [discriminate | lia]|].
    destruct (all_matches (query st) (state view)) as [|m ms].
    + split; [split; [discriminate | intros [K _]; contradiction]|].
      split; [discriminate | reflexivity].
    + split; [split; [intros _; split; [discriminate | exact G]
                     | reflexivity]|].
      split; [reflexivity | intros K; contradiction].
Qed.

Lemma replaceAll_changes_at_abc :
  result (@replaceAll literalHost (viewOf (OfString (plainQuery "b"))))
  = Some true
  <-> @all_matches literalHost (OfString (plainQuery "b"))
        (plainState (js "abc")) <> []
      /\ Z.of_nat (List.length
                     (@all_matches literalHost (OfString (plainQuery "b"))
                        (plainState (js "abc")))) <= 1000000000.
Proof.
  apply (@replaceAll_changes literalHost (viewOf (OfString (plainQuery "b")))
           {| query := OfString (plainQuery "b"); panel := true |});
    reflexivity.
Defined.

Lemma chained_count (ms : list SearchResult) : forall lo hi,
  chained lo ms -> Forall (fun m => from m < to m /\ to m <= hi) ms ->
  Z.of_nat (List.length ms) <= Z.max 0 (hi - lo).
Proof.
  induction ms as [|m ms IH]; intros lo hi C F; [simpl; lia|].
  destruct C as [C1 C2]; inversion F as [|? ? [F1 F2] F']; subst.
  specialize (IH (to m) hi C2 F'); simpl List.length; lia.
Qed.

(** X23.  For a valid literal query on a state that is not read-only and
    a document of at most 10^9 units, [replaceAll] does not fail: the
    matches cannot be more than the units of the document.  Its changes
    come in ascending order and do not overlap, each replaces an
    occurrence of the search string, and all put in the same text, the
    unquoted replacement text. *)
Theorem replaceAll_literal `{RegExpHost} (view : EditorView)
    (st : SearchState) (spec : SearchQuery) :
  field_searchState view = Some st -> query st = OfString spec ->
  valid spec = true -> readOnly (state view) = false ->
  doc_length (state view) <= 1000000000 ->
  let s := state view in
  let ms := all_matches (OfString spec) s in
  result (replaceAll view)
  = Some (match ms with [] => false | _ :: _ => true end)
  /\ (forall tr,
        In (Dispatch tr) (trace (replaceAll view)) ->
        tr_changes tr
        = map (fun m : SearchResult =>
                 (from m, to m, unquote spec (replace spec))) ms)
  /\ chained 0 ms
  /\ Forall (fun m => occurs_in spec s 0 (doc_length s) m) ms.
Proof.
  intros F Q V RO Small; cbv zeta.
  destruct st as [q p]; cbn [query] in Q; subst q.
  set (s := state view) in *.
  assert (N : unquoted spec <> []).
  { apply unquoted_nonempty; unfold valid in V.
    apply andb_true_iff in V as [V _]; exact V. }
  assert (Occ : forall m, In m (all_matches (OfString spec) s) ->
                  occurs_in spec s 0 (doc_length s) m).
  { intros m I; apply (occurs_within_whole spec s m N).
    apply next_occurrences; [lia | exact N | exact I]. }
  assert (C : chained 0 (all_matches (OfString spec) s))
    by (apply next_chained; exact N).
  assert (Count : Z.of_nat (List.length (all_matches (OfString spec) s))
                  <= 1000000000).
  { pose proof (pattern_length_pos spec N) as P.
    pose proof (chained_count _ 0 (doc_length s) C) as K.
    assert (Fa : Forall (fun m => from m < to m /\ to m <= doc_length s)
                   (all_matches (OfString spec) s)).
    { apply Forall_forall; intros m I.
      destruct (Occ m I) as (_ & B & T & _); lia. }
    specialize (K Fa); eapply Z.le_trans; [exact K | lia]. }
  destruct (replaceAll_run view {| query := OfString spec; panel := p |}
              F V RO) as [R E].
  cbn [query getReplacement range_of ResultOf] in R, E; fold s in R, E.
  match type of R with
  | context [Z.ltb 1000000000 ?x] =>
      assert (LT : Z.ltb 1000000000 x = false)
        by (apply Z.ltb_ge; exact Count);
      rewrite LT in R, E
  end.
  split; [exact R | split; [|split; [exact C|]]].
  - intros tr I.
    apply (in_view_events (Dispatch tr) _ eq_refl) in I; rewrite E in I.
    destruct (all_matches (OfString spec) s) as [|m ms]; [destruct I|].
    destruct I as [[= <-]|[]]; reflexivity.
  - apply Forall_forall; exact Occ.
Qed.

Lemma replaceAll_literal_at_abc :
  result (@replaceAll literalHost (viewOf (OfString (plainQuery "b"))))
  = Some (match @all_matches literalHost (OfString (plainQuery "b"))
                  (plainState (js "abc")) with
          | [] => false
          | _ :: _ => true
          end).
Proof.
  apply (@replaceAll_literal literalHost (viewOf (OfString (plainQuery "b")))
           {| query := OfString (plainQuery "b"); panel := true |}
           (plainQuery "b")); try reflexivity.
  vm_compute; discriminate.
Defined.

(** ** The whole-word test *)

(** X24.  For a match [[from, to)] in the document, the whole-word test
    does not depend on the buffer it is given, as long as the buffer is a
    window of the document that either does not hold the whole match (the
    test then reads the document itself) or holds one more unit on either
    side of the match where the document has one: the test is then the
    test on the whole document. *)
Theorem stringWordTest_window (text : str)
    (categorizer : str -> CharCategory) (rangeFrom rangeTo : Z) (buf : str)
    (bufPos : Z) :
  0 <= rangeFrom -> rangeFrom <= rangeTo -> rangeTo <= strlen text ->
  (rangeFrom < bufPos \/ bufPos + strlen buf < rangeTo)
  \/ (is_window text buf bufPos
      /\ (bufPos < rangeFrom \/ rangeFrom = 0)
      /\ (rangeTo < bufPos + strlen buf \/ rangeTo = strlen text)) ->
  stringWordTest text categorizer rangeFrom rangeTo buf bufPos
  = stringWordTest text categorizer rangeFrom rangeTo text 0.
Proof.
  intros F T L Cases.
  assert (Whole : is_window text text 0).
  { split; [lia|]; unfold sliceString.
    replace (0 + strlen text - 0) with (strlen text) by lia.
    unfold strlen; rewrite Nat2Z.id; simpl; rewrite firstn_all.
    reflexivity. }
  assert (Test : forall w p,
            is_window text w p -> p <= rangeFrom -> rangeTo <= p + strlen w ->
            (p < rangeFrom \/ rangeFrom = 0) ->
            (rangeTo < p + strlen w \/ rangeTo = strlen text) ->
            (notWord categorizer (charBefore w (rangeFrom - p))
             || notWord categorizer (charAfter w (rangeFrom - p)))
            && (notWord categorizer (charAfter w (rangeTo - p))
                || notWord categorizer (charBefore w (rangeTo - p)))
            = (notWord categorizer (charBefore text rangeFrom)
               || notWord categorizer (charAfter text rangeFrom))
              && (notWord categorizer (charAfter text rangeTo)
                  || notWord categorizer (charBefore text rangeTo))).
  { intros w p W P E Left Right.
    destruct (window_chars text w p rangeFrom W) as [-> ->]; try lia.
    destruct (window_chars text w p rangeTo W) as [-> ->]; try lia.
    reflexivity. }
  transitivity
    ((notWord categorizer (charBefore text rangeFrom)
      || notWord categorizer (charAfter text rangeFrom))
     && (notWord categorizer (charAfter text rangeTo)
         || notWord categorizer (charBefore text rangeTo))).
  - unfold stringWordTest.
    destruct ((rangeFrom <? bufPos) || (bufPos + strlen buf <? rangeTo))
      eqn:Widen.
    + set (p := Z.max 0 (rangeFrom - 2)).
      set (e := Z.min (strlen text) (rangeTo + 2)).
      assert (Len : strlen (sliceString text p e) = e - p)
        by (apply sliceString_length; subst p e; lia).
      apply Test; rewrite ?Len; subst p e; try lia.
      split; [lia|]; rewrite Len; f_equal; lia.
    + apply orb_false_iff in Widen as [W1 W2].
      apply Z.ltb_ge in W1, W2.
      destruct Cases as [[C|C]|(W & Left & Right)]; try lia.
      apply Test; auto.
  - symmetry; unfold stringWordTest.
    destruct (Z.ltb_spec rangeFrom 0); [lia|].
    destruct (Z.ltb_spec (0 + strlen text) rangeTo); [lia|].
    cbn [orb]; rewrite <- (Test text 0 Whole); try lia.
    rewrite !Z.sub_0_r; reflexivity.
Qed.

Lemma stringWordTest_window_at_cat :
  stringWordTest (js "a cat b") (charCategorizer (plainState []) 0) 2 5
    (js "at b") 3
  = stringWordTest (js "a cat b") (charCategorizer (plainState []) 0) 2 5
      (js "a cat b") 0.
Proof.
  apply (stringWordTest_window (js "a cat b")
           (charCategorizer (plainState []) 0) 2 5 (js "at b") 3);
    try (vm_compute; discriminate).
  left; left; lia.
Defined.

(** X25.  The whole-word test of regular expression matches accepts every
    empty match, and on a match that is not empty it is the whole-word test
    of literal matches, run on the input of the match at the place of the
    match. *)
Theorem regexpWordTest_as_stringWordTest (categorizer : str -> CharCategory)
    (a b : Z) (m : RegExpExecArray) :
  0 <= index m ->
  index m + strlen (submatch m 0) <= strlen (input m) ->
  regexpWordTest categorizer a b m
  = negb (nonempty (submatch m 0))
    || stringWordTest (input m) categorizer (index m)
         (index m + strlen (submatch m 0)) (input m) 0.
Proof.
  intros I L; unfold regexpWordTest, stringWordTest, submatch in *.
  cbn [groups nth] in *.
  destruct (Z.ltb_spec (index m) 0); [lia|].
  destruct (Z.ltb_spec (0 + strlen (input m))
              (index m + strlen (whole m))); [lia|].
  cbn [orb]; rewrite !Z.sub_0_r; reflexivity.
Qed.

Lemma regexpWordTest_as_stringWordTest_at_ab :
  regexpWordTest (charCategorizer (plainState []) 0) 0 2 (rmatch abResult)
  = negb (nonempty (submatch (rmatch abResult) 0))
    || stringWordTest (input (rmatch abResult))
         (charCategorizer (plainState []) 0) (index (rmatch abResult))
         (index (rmatch abResult) + strlen (submatch (rmatch abResult) 0))
         (input (rmatch abResult)) 0.
Proof.
  apply (regexpWordTest_as_stringWordTest
           (charCategorizer (plainState []) 0) 0 2 (rmatch abResult));
    vm_compute; discriminate.
Defined.
